(** * TruthLens: the spectral fingerprint pipeline

    A shallow embedding of [fft-analyzer.js] (class [FFTAnalyzer]) and of
    the [Utils] helpers it calls, followed by the properties of the
    pipeline that the specification states.

    Number model.  A JavaScript number that holds a finite value is a
    rational, so the data of the classifier (Float32Array contents, scores,
    timestamps, progress values) is modelled in [Q] with exact arithmetic;
    the transform, which calls [Math.cos] and [Math.sin], is modelled in
    [R].  In these two models the rounding of the floating-point
    operations is left out, and so are NaN and the infinities as values: a
    read past the end of an array is an explicit [None] (or ends the run
    of the transform), and a quotient by zero, which the source meets only
    for an empty spectrum or an empty list of frames, is the 0 of [Q].
    The properties that hinge on the rounding or on NaN (the comparison of
    the two scores, the guard of [normalize] against a zero range, the
    invariance of the scores under a rescaling of the spectrum) are stated
    on a second model of [normalize], [analyzeFFTPattern] and
    [detectAIPatterns], module [Binary64], whose numbers are the IEEE 754
    binary64 numbers of the language.  Array indices and loop counters are
    [nat]; where the source applies the 32-bit operators [>>] and [<<] the
    operand is a [Z] and the coercion to a signed 32-bit integer is
    written out. *)

From Stdlib Require Import ZArith QArith Qround Qminmax Qabs Reals Psatz Lia.
From Stdlib Require Import List String.
From Stdlib Require Floats.
From stdpp Require Import base list.
Import ListNotations.

(** A decimal literal of a binary64 number, such as [0.3], denotes the
    nearest binary64 number, as it does in JavaScript. *)
Set Warnings "-inexact-float".

(** ** JavaScript numbers *)

Module Num.

Local Open Scope Q_scope.

(** [x < y] on finite numbers. *)
Definition ltb (x y : Q) : bool :=
  match x ?= y with Lt => true | _ => false end.

(** The conversion applied by a store into a [Uint8ClampedArray]
    (ToUint8Clamp): clamp to [0, 255], then round to the nearest integer,
    ties to the even one. *)
Definition toUint8Clamp (x : Q) : Z :=
  let clamped := Qmin (Qmax x 0) 255 in
  let f := Qfloor clamped in
  if ltb clamped (inject_Z f + (1 # 2)) then f
  else if ltb (inject_Z f + (1 # 2)) clamped then (f + 1)%Z
  else if Z.even f then f else (f + 1)%Z.

(** A read [a[i]] of a typed array of integers: [None] is [undefined],
    which every arithmetic use turns into NaN. *)
Definition gt (v : option Z) (t : Z) : bool :=
  match v with Some x => (t <? x)%Z | None => false end.

(** [Math.abs(a - b)]; [None] is NaN. *)
Definition absdiff (a b : option Z) : option Z :=
  match a, b with
  | Some x, Some y => Some (Z.abs (x - y))
  | _, _ => None
  end.

Definition add (a b : option Z) : option Z :=
  match a, b with
  | Some x, Some y => Some (x + y)%Z
  | _, _ => None
  end.

Definition ofNat (n : nat) : Q := inject_Z (Z.of_nat n).

End Num.

(** ** Loops *)

(** [for (i of l) s = body(i, s)]. *)
Definition for_each {S : Type} (l : list nat) (body : nat -> S -> S) (s : S) : S :=
  fold_left (fun s i => body i s) l s.

(** The values taken by [i] in [for (i = start; i < stop; i += step)];
    with [step >= 1] the loop ends within [stop] rounds. *)
Fixpoint stride_from (fuel start stop step : nat) : list nat :=
  match fuel with
  | O => []
  | S fuel' =>
      if (start <? stop)%nat
      then start :: stride_from fuel' (start + step) stop step
      else []
  end.

Definition stride_range (start stop step : nat) : list nat :=
  stride_from stop start stop step.

(** ** utils.js *)

Module Utils.

Local Open Scope Q_scope.

(** [Math.min(...data)] and [Math.max(...data)] of a non-empty array. *)
Definition arr_min (x : Q) (xs : list Q) : Q := fold_left Qmin xs x.
Definition arr_max (x : Q) (xs : list Q) : Q := fold_left Qmax xs x.

(** [normalize(data)]: the result is a [Uint8ClampedArray].  On the empty
    array the loop body never runs. *)
Definition normalize (data : list Q) : list Z :=
  match data with
  | [] => []
  | x :: xs =>
      let min := arr_min x xs in
      let max := arr_max x xs in
      let range := max - min in
      (fun d =>
         Num.toUint8Clamp
           (if Num.ltb 0 range then ((d - min) / range) * 255 else 0))
        <$> data
  end.

Section Shift.

(** Elements of a [Float32Array]: [zero] fills a fresh array, [nan] is
    what a store of [undefined] (a read past the end) leaves. *)
Context {A : Type} (zero nan : A).

Definition read (data : list A) (i : nat) : A :=
  match data !! i with Some v => v | None => nan end.

(** [fftShift(data, width, height)]. *)
Definition fftShift (data : list A) (width height : nat) : list A :=
  let shifted := replicate (length data) zero in
  let halfWidth := (width / 2)%nat in
  let halfHeight := (height / 2)%nat in
  for_each (seq 0 height) (fun y shifted =>
    for_each (seq 0 width) (fun x shifted =>
      let newX := ((x + halfWidth) mod width)%nat in
      let newY := ((y + halfHeight) mod height)%nat in
      <[(newY * width + newX)%nat := read data (y * width + x)%nat]> shifted)
      shifted)
    shifted.

End Shift.

(** A loop of stores [s[dst p] = val p] over a list of sources [l]; the
    two loops of [fftShift] are one such loop over the [grid] of pixels
    [(y, x)], with [shiftIndex] for [dst]. *)
Definition scatter {A P : Type} (dst : P -> nat) (val : P -> A)
    (l : list P) (s : list A) : list A :=
  fold_left (fun s p => <[dst p := val p]> s) l s.

Definition shiftIndex (width height : nat) (yx : nat * nat) : nat :=
  (((fst yx + height / 2) mod height) * width
   + (snd yx + width / 2) mod width)%nat.

Definition grid (width height : nat) : list (nat * nat) :=
  list_prod (seq 0 height) (seq 0 width).

End Utils.

(** ** fft-analyzer.js: the pattern classifier and the decision *)

Module Classifier.

Local Open Scope Q_scope.

Record Patterns : Type := mkPatterns {
  gridPattern : Q;
  brightDots : Q;
  crossShape : Q;
  checkerboard : Q;
  smoothGradient : Q
}.

(** What [computeFFT] returns for one frame. *)
Record FFTData : Type := mkFFTData {
  magnitude : list Q;
  width : nat;
  height : nat
}.

Record Detection : Type := mkDetection {
  isAI : bool;
  confidence : Q;
  patterns : Patterns;
  details : list string
}.

(** [if (cond) count++]. *)
Definition bump (cond : bool) (count : nat) : nat :=
  if cond then S count else count.

Section Scores.

Variable normalized : list Z.
Variables width height : nat.

Definition gridCount : nat :=
  let gridSize := 16%nat in
  for_each (stride_range gridSize height gridSize) (fun y count =>
    for_each (stride_range gridSize width gridSize) (fun x count =>
      let idx := (y * width + x)%nat in
      bump (Num.gt (normalized !! idx) 200) count) count) 0%nat.

Definition brightCount : nat :=
  for_each (seq 0 (length normalized)) (fun i count =>
    bump (Num.gt (normalized !! i) 240) count) 0%nat.

Definition crossCount : nat :=
  let centerX := Num.ofNat width / 2 in
  let centerY := Num.ofNat height / 2 in
  let threshold := 180%Z in
  for_each (seq 0 width) (fun i count =>
    let count :=
      bump (Num.gt (normalized !! (Z.to_nat (Qfloor centerY) * width + i)%nat)
                   threshold) count in
    bump (Num.gt (normalized !! (i * width + Z.to_nat (Qfloor centerX))%nat)
                 threshold) count) 0%nat.

Definition checkerCond (y x : nat) : bool :=
  let current := normalized !! (y * width + x)%nat in
  let right := normalized !! (y * width + (x + 1))%nat in
  let down := normalized !! ((y + 1) * width + x)%nat in
  Num.gt (Num.absdiff current right) 100
  || Num.gt (Num.absdiff current down) 100.

Definition checkerCount : nat :=
  for_each (seq 0 (height - 1)) (fun y count =>
    for_each (seq 0 (width - 1)) (fun x count =>
      bump (checkerCond y x) count) count) 0%nat.

Definition smoothCond (y x : nat) : bool :=
  let current := normalized !! (y * width + x)%nat in
  let neighbors :=
    [ normalized !! ((y - 1) * width + x)%nat;
      normalized !! ((y + 1) * width + x)%nat;
      normalized !! (y * width + (x - 1))%nat;
      normalized !! (y * width + (x + 1))%nat ] in
  match fold_left (fun sum n => Num.add sum (Num.absdiff current n))
                  neighbors (Some 0%Z) with
  | Some sum => Num.ltb (inject_Z sum / 4) 30
  | None => false
  end.

Definition gradientSmooth : nat :=
  for_each (seq 1 (height - 2)) (fun y count =>
    for_each (seq 1 (width - 2)) (fun x count =>
      bump (smoothCond y x) count) count) 0%nat.

End Scores.

(** [analyzeFFTPattern(magnitude, width, height)]. *)
Definition analyzeFFTPattern (magnitude : list Q) (width height : nat) : Patterns :=
  let normalized := Utils.normalize magnitude in
  {| gridPattern := Qmin (Num.ofNat (gridCount normalized width height) / 100) 1;
     brightDots := Qmin (Num.ofNat (brightCount normalized) / 500) 1;
     crossShape :=
       Qmin (Num.ofNat (crossCount normalized width height)
             / (Num.ofNat width * 2)) 1;
     checkerboard :=
       Qmin (Num.ofNat (checkerCount normalized width height)
             / (Num.ofNat width * Num.ofNat height)) 1;
     smoothGradient :=
       Num.ofNat (gradientSmooth normalized width height)
       / (Num.ofNat width * Num.ofNat height) |}.

Definition zeroPatterns : Patterns := mkPatterns 0 0 0 0 0.

Definition addPatterns (p a : Patterns) : Patterns :=
  {| gridPattern := gridPattern p + gridPattern a;
     brightDots := brightDots p + brightDots a;
     crossShape := crossShape p + crossShape a;
     checkerboard := checkerboard p + checkerboard a;
     smoothGradient := smoothGradient p + smoothGradient a |}.

Definition divPatterns (p : Patterns) (numFrames : Q) : Patterns :=
  {| gridPattern := gridPattern p / numFrames;
     brightDots := brightDots p / numFrames;
     crossShape := crossShape p / numFrames;
     checkerboard := checkerboard p / numFrames;
     smoothGradient := smoothGradient p / numFrames |}.

(** The sums and the average at the head of [detectAIPatterns]. *)
Definition averagePatterns (fftResults : list FFTData) : Patterns :=
  let patterns :=
    fold_left (fun patterns fftData =>
                 addPatterns patterns
                   (analyzeFFTPattern (magnitude fftData) (width fftData)
                                      (height fftData)))
              fftResults zeroPatterns in
  divPatterns patterns (Num.ofNat (length fftResults)).

Definition aiScore (patterns : Patterns) : Q :=
  gridPattern patterns * 0.3 +
  brightDots patterns * 0.25 +
  crossShape patterns * 0.25 +
  checkerboard patterns * 0.2.

Definition realScore (patterns : Patterns) : Q := smoothGradient patterns.

Definition push_if (cond : bool) (msg : string) (details : list string) :=
  if cond then details ++ [msg] else details.

(** The decision and the explanation at the tail of [detectAIPatterns]. *)
Definition decide_patterns (patterns : Patterns) : Detection :=
  let isAI := Num.ltb (realScore patterns) (aiScore patterns) in
  let confidence :=
    Qmin (Qabs (aiScore patterns - realScore patterns) * 100) 99 in
  let details :=
    if isAI then
      push_if (Num.ltb 0.4 (checkerboard patterns))
        "Checkerboard effect visible - typical of diffusion models"
      (push_if (Num.ltb 0.5 (crossShape patterns))
        "Cross/plus shape pattern - common in GAN-generated content"
      (push_if (Num.ltb 0.5 (brightDots patterns))
        "Regular bright dots found - indicates periodic artifacts"
      (push_if (Num.ltb 0.5 (gridPattern patterns))
        "Strong grid pattern detected - characteristic of CNN upsampling"
        [])))
    else
      [ "Smooth, natural frequency distribution detected";
        "No geometric patterns or regular artifacts found";
        "Frequency spectrum matches real camera footage" ]%string in
  {| isAI := isAI; confidence := confidence;
     patterns := patterns; details := details |}.

(** [detectAIPatterns(fftResults)].  With no frame the source divides by
    zero and every score is NaN; the model is meant for a non-empty
    [fftResults]. *)
Definition detectAIPatterns (fftResults : list FFTData) : Detection :=
  decide_patterns (averagePatterns fftResults).

End Classifier.

(** ** The classifier in binary64

    Where a property hinges on how a result is rounded (a tie of the two
    scores, the storage of a spectrum in a [Float32Array], a quotient by
    zero), [normalize], [analyzeFFTPattern] and [detectAIPatterns] are
    modelled once more with the numbers the source computes with: IEEE 754
    binary64, with its NaN, its infinities and its signed zero. *)

Module Binary64.

Import Floats.FloatClass Floats.PrimFloat Floats.SpecFloat Floats.FloatOps.
Local Open Scope float_scope.

(** The number that holds the integer [z] (exactly, below [2^53]). *)
Definition ofZ (z : Z) : float :=
  SF2Prim (binary_normalize 53 1024 z 0 false).

Definition ofNat (n : nat) : float := ofZ (Z.of_nat n).

(** The rational that a finite number is. *)
Definition exact (x : float) : option Q :=
  match Prim2SF x with
  | S754_zero _ => Some 0%Q
  | S754_finite s m e =>
      Some (match e with
            | Zneg p => Qmake (cond_Zopp s (Zpos m)) (2 ^ p)
            | _ => inject_Z (cond_Zopp s (Zpos m) * 2 ^ e)
            end)
  | _ => None
  end.

(** The number [x] is the rational [q]. *)
Definition represents (x : float) (q : Q) : Prop :=
  match exact x with
  | Some v => (v == q)%Q
  | None => False
  end.


(** [Math.min(x, y)] and [Math.max(x, y)]. *)
Definition min2 (x y : float) : float :=
  if is_nan x || is_nan y then nan
  else if x <? y then x
  else if y <? x then y
  else match classify x with NZero => x | _ => y end.

Definition max2 (x y : float) : float :=
  if is_nan x || is_nan y then nan
  else if x <? y then y
  else if y <? x then x
  else match classify x with PZero => x | _ => y end.

(** [Math.min(...data)] and [Math.max(...data)]. *)
Definition arr_min (data : list float) : float :=
  fold_left min2 data infinity.

Definition arr_max (data : list float) : float :=
  fold_left max2 data neg_infinity.

(** The conversion of a store into a [Uint8ClampedArray]. *)
Definition toUint8Clamp (x : float) : Z :=
  match Prim2SF x with
  | S754_nan => 0
  | S754_zero _ => 0
  | S754_infinity s => if s then 0 else 255
  | S754_finite s m e =>
      Num.toUint8Clamp
        (match e with
         | Zneg p => Qmake (cond_Zopp s (Zpos m)) (2 ^ p)
         | _ => inject_Z (cond_Zopp s (Zpos m) * 2 ^ e)
         end)
  end.

(** [Utils.normalize(data)] on the elements of a [Float32Array], read as
    numbers.  [rescaled] is the list of the values of
    [range > 0 ? ((data[i] - min) / range) * 255 : 0] before they are
    stored: a quotient by a zero range would show there as NaN or as an
    infinity. *)
Definition rescaled (data : list float) : list float :=
  let min := arr_min data in
  let max := arr_max data in
  let range := max - min in
  (fun d => if 0 <? range then ((d - min) / range) * 255 else 0) <$> data.

Definition normalize (data : list float) : list Z :=
  toUint8Clamp <$> rescaled data.

Record Patterns : Type := mkPatterns {
  gridPattern : float;
  brightDots : float;
  crossShape : float;
  checkerboard : float;
  smoothGradient : float
}.

(** [analyzeFFTPattern(magnitude, width, height)]: the counting loops
    work on the bytes of the normalized array and are those of
    [Classifier]. *)
Definition analyzeFFTPattern (magnitude : list float) (width height : nat)
  : Patterns :=
  let normalized := normalize magnitude in
  {| gridPattern :=
       min2 (ofNat (Classifier.gridCount normalized width height) / 100) 1;
     brightDots := min2 (ofNat (Classifier.brightCount normalized) / 500) 1;
     crossShape :=
       min2 (ofNat (Classifier.crossCount normalized width height)
             / (ofNat width * 2)) 1;
     checkerboard :=
       min2 (ofNat (Classifier.checkerCount normalized width height)
             / (ofNat width * ofNat height)) 1;
     smoothGradient :=
       ofNat (Classifier.gradientSmooth normalized width height)
       / (ofNat width * ofNat height) |}.

Record FFTData : Type := mkFFTData {
  magnitude : list float;
  width : nat;
  height : nat
}.

Definition zeroPatterns : Patterns := mkPatterns 0 0 0 0 0.

Definition addPatterns (p a : Patterns) : Patterns :=
  {| gridPattern := gridPattern p + gridPattern a;
     brightDots := brightDots p + brightDots a;
     crossShape := crossShape p + crossShape a;
     checkerboard := checkerboard p + checkerboard a;
     smoothGradient := smoothGradient p + smoothGradient a |}.

Definition divPatterns (p : Patterns) (numFrames : float) : Patterns :=
  {| gridPattern := gridPattern p / numFrames;
     brightDots := brightDots p / numFrames;
     crossShape := crossShape p / numFrames;
     checkerboard := checkerboard p / numFrames;
     smoothGradient := smoothGradient p / numFrames |}.

(** The sums and the average at the head of [detectAIPatterns]. *)
Definition averagePatterns (fftResults : list FFTData) : Patterns :=
  let patterns :=
    fold_left (fun patterns fftData =>
                 addPatterns patterns
                   (analyzeFFTPattern (magnitude fftData) (width fftData)
                                      (height fftData)))
              fftResults zeroPatterns in
  divPatterns patterns (ofNat (length fftResults)).

(** The decision at the tail of [detectAIPatterns] (lines 262-300).  The
    weights are the binary64 numbers nearest to 0.3 and 0.2; 0.25 is
    exact. *)
Definition aiScore (patterns : Patterns) : float :=
  gridPattern patterns * 0.3 +
  brightDots patterns * 0.25 +
  crossShape patterns * 0.25 +
  checkerboard patterns * 0.2.

Definition realScore (patterns : Patterns) : float := smoothGradient patterns.

Record Detection : Type := mkDetection {
  isAI : bool;
  confidence : float;
  patterns : Patterns;
  details : list string
}.

Definition decide_patterns (patterns : Patterns) : Detection :=
  let aiScore := aiScore patterns in
  let realScore := realScore patterns in
  let isAI := realScore <? aiScore in
  let confidence := min2 (abs (aiScore - realScore) * 100) 99 in
  let details :=
    if isAI then
      Classifier.push_if (0.4 <? checkerboard patterns)
        "Checkerboard effect visible - typical of diffusion models"
      (Classifier.push_if (0.5 <? crossShape patterns)
        "Cross/plus shape pattern - common in GAN-generated content"
      (Classifier.push_if (0.5 <? brightDots patterns)
        "Regular bright dots found - indicates periodic artifacts"
      (Classifier.push_if (0.5 <? gridPattern patterns)
        "Strong grid pattern detected - characteristic of CNN upsampling"
        [])))
    else
      [ "Smooth, natural frequency distribution detected";
        "No geometric patterns or regular artifacts found";
        "Frequency spectrum matches real camera footage" ]%string in
  {| isAI := isAI; confidence := confidence;
     patterns := patterns; details := details |}.

(** [detectAIPatterns(fftResults)]. *)
Definition detectAIPatterns (fftResults : list FFTData) : Detection :=
  decide_patterns (averagePatterns fftResults).

(** The score sets and spectra of the examples. *)
Definition tiePatterns : Patterns := mkPatterns 0.125 0 0 0.75 0.1875.

Definition steps : list float := [0; 241; 255].



End Binary64.

(** ** The checkerboard score in the words of the specification *)

Module Spec.

Local Open Scope Q_scope.

(** The values at indices [i] and [j] differ by more than 100. *)
Definition exceeds (normalized : list Z) (i j : nat) : bool :=
  Num.gt (Num.absdiff (normalized !! i) (normalized !! j)) 100.

(** The number of adjacent-pixel pairs, a pixel with its right neighbour
    or a pixel with its down neighbour, whose values differ by more than
    100. *)
Definition checkerPairs (normalized : list Z) (width height : nat) : nat :=
  (length (List.filter
            (fun yx => exceeds normalized (fst yx * width + snd yx)
                                          (fst yx * width + (snd yx + 1)))
            (list_prod (seq 0 height) (seq 0 (width - 1))))
   + length (List.filter
            (fun yx => exceeds normalized (fst yx * width + snd yx)
                                          ((fst yx + 1) * width + snd yx))
            (list_prod (seq 0 (height - 1)) (seq 0 width))))%nat.

Definition checkerboard (magnitude : list Q) (width height : nat) : Q :=
  Qmin (Num.ofNat (checkerPairs (Utils.normalize magnitude) width height)
        / (Num.ofNat width * Num.ofNat height)) 1.

(** The same count restricted to the pixels that have both neighbours. *)
Definition innerPairs (normalized : list Z) (width height : nat) : nat :=
  (length (List.filter
            (fun yx => exceeds normalized (fst yx * width + snd yx)
                                          (fst yx * width + (snd yx + 1)))
            (list_prod (seq 0 (height - 1)) (seq 0 (width - 1))))
   + length (List.filter
            (fun yx => exceeds normalized (fst yx * width + snd yx)
                                          ((fst yx + 1) * width + snd yx))
            (list_prod (seq 0 (height - 1)) (seq 0 (width - 1)))))%nat.

(** Reads at [i] and [j] both succeed and differ by more than 100. *)
Definition jump (normalized : list Z) (i j : nat) : Prop :=
  exists u v : Z,
    normalized !! i = Some u /\ normalized !! j = Some v
    /\ (100 < Z.abs (u - v))%Z.

End Spec.

(** ** fft-analyzer.js: the orchestrator *)

Module Pipeline.

Import Classifier.
Local Open Scope Q_scope.

(** What the run does to its collaborators, in order: a seek of the video
    to a timestamp, and a call of the progress callback. *)
Inductive Event : Type :=
| Seek (time : Q)
| Progress (value : Q).

(** A computation that appends to the trace of events. *)
Definition M (A : Type) : Type := list Event -> A * list Event.

Definition ret {A} (a : A) : M A := fun tr => (a, tr).

Definition bind {A B} (c : M A) (k : A -> M B) : M B :=
  fun tr => let (a, tr') := c tr in k a tr'.

Definition emit (e : Event) : M unit := fun tr => (tt, tr ++ [e]).

Notation "x <- c ;; k" := (bind c (fun x => k))
  (at level 100, c at next level, right associativity).
Notation "c ;;; k" := (bind c (fun _ => k))
  (at level 100, right associativity).

(** [for (i of l) { s = await body(i, s) }]. *)
Fixpoint for_eachM {S : Type} (l : list nat) (body : nat -> S -> M S) (s : S) : M S :=
  match l with
  | [] => ret s
  | i :: l' => s' <- body i s ;; for_eachM l' body s'
  end.

Definition run {A} (c : M A) : A * list Event := c [].

Definition seeks (tr : list Event) : list Q :=
  flat_map (fun e => match e with Seek t => [t] | Progress _ => [] end) tr.

Definition progressValues (tr : list Event) : list Q :=
  flat_map (fun e => match e with Progress v => [v] | Seek _ => [] end) tr.

Record FFTAnalyzer : Type := mkFFTAnalyzer {
  frameSize : nat;
  sampleFrames : nat
}.

Definition constructor : FFTAnalyzer :=
  {| frameSize := 256; sampleFrames := 5 |}.

(** [if (progressCallback) progressCallback(v)]. *)
Definition callIf (progressCallback : option (Q -> M unit)) (v : Q) : M unit :=
  match progressCallback with
  | Some callback => callback v
  | None => ret tt
  end.

(** The callback that records its argument, and the two ways a caller
    can run the analysis: with that callback or with none. *)
Definition report : Q -> M unit := fun v => emit (Progress v).

Definition reporting (b : bool) : option (Q -> M unit) :=
  if b then Some report else None.

(** A sequence of numbers never decreases. *)
Fixpoint nondecreasing (l : list Q) : Prop :=
  match l with
  | [] => True
  | x :: l' =>
      match l' with
      | [] => True
      | y :: _ => x <= y /\ nondecreasing l'
      end
  end.

Section Run.

(** The browser side: the pixel buffer type, and the frame a video
    shows once it has been positioned at a time ([Utils.extractFrame]
    draws it on a canvas of the requested size). *)
Context {ImageData : Type}.

Record Video : Type := mkVideo {
  duration : Q;
  frameAt : Q -> nat -> ImageData
}.

(** [computeFFT]: the spectrum of one frame.  Its values come out of
    floating-point square roots and logarithms; the orchestration is
    stated for any such function. *)
Variable computeFFT : ImageData -> FFTData.

Record Result : Type := mkResult {
  isAIGenerated : bool;
  res_confidence : Q;
  res_patterns : Patterns;
  fftData : option FFTData;
  res_details : list string
}.

Definition seekAndExtract (this : FFTAnalyzer) (video : Video) (time : Q)
  : M ImageData :=
  emit (Seek time) ;;;
  ret (frameAt video time (frameSize this)).

Definition extractFrames (this : FFTAnalyzer) (video : Video)
    (numFrames : nat) (progressCallback : option (Q -> M unit))
  : M (list ImageData) :=
  let interval := duration video / (Num.ofNat numFrames + 1) in
  for_eachM (seq 1 numFrames) (fun i frames =>
    let time := interval * Num.ofNat i in
    frameData <- seekAndExtract this video time ;;
    callIf progressCallback ((Num.ofNat i / Num.ofNat numFrames) * 50) ;;;
    ret (frames ++ [frameData])) [].

Definition analyzeVideo (this : FFTAnalyzer) (video : Video)
    (progressCallback : option (Q -> M unit)) : M Result :=
  frames <- extractFrames this video (sampleFrames this) progressCallback ;;
  fftResults <-
    for_eachM (seq 0 (length frames)) (fun i fftResults =>
      match frames !! i with
      | Some frame =>
          let fftData := computeFFT frame in
          callIf progressCallback
            (Num.ofNat (i + 1) / Num.ofNat (length frames) * 100) ;;;
          ret (fftResults ++ [fftData])
      | None => ret fftResults
      end) [] ;;
  let analysis := detectAIPatterns fftResults in
  ret {| isAIGenerated := isAI analysis;
         res_confidence := confidence analysis;
         res_patterns := patterns analysis;
         fftData := fftResults !! 0%nat;
         res_details := details analysis |}.

End Run.

(** The timestamp of the [i]-th request of [extractFrames], and what one
    round of each of the two loops adds to the trace when the callback is
    [reporting b]. *)
Definition timeOf {ImageData : Type} (video : @Video ImageData)
    (numFrames i : nat) : Q :=
  duration video / (Num.ofNat numFrames + 1) * Num.ofNat i.

Definition extractEvents {ImageData : Type} (video : @Video ImageData)
    (b : bool) (numFrames i : nat) : list Event :=
  Seek (timeOf video numFrames i)
  :: (if b then [Progress (Num.ofNat i / Num.ofNat numFrames * 50)] else []).

Definition fftEvents (b : bool) (count i : nat) : list Event :=
  if b then [Progress (Num.ofNat (i + 1) / Num.ofNat count * 100)] else [].

End Pipeline.

(** ** fft-analyzer.js: the 1D transform *)

Module FFT.

Local Open Scope Z_scope.

(** The error kinds that the specification names.  The source has no
    [throw] statement. *)
Inductive ErrorKind : Type :=
| InvalidLength
| FrameUnavailable.

(** How a call ends: it returns, it throws, it reads an array element
    that does not exist (the source goes on with [undefined]; the model
    stops there), or it is still running when the fuel is spent. *)
Inductive outcome (A : Type) : Type :=
| Ret (a : A)
| Throw (e : ErrorKind)
| Undefined
| OutOfFuel.

Arguments Ret {A} a.
Arguments Throw {A} e.
Arguments Undefined {A}.
Arguments OutOfFuel {A}.

Definition bind {A B} (c : outcome A) (k : A -> outcome B) : outcome B :=
  match c with
  | Ret a => k a
  | Throw e => Throw e
  | Undefined => Undefined
  | OutOfFuel => OutOfFuel
  end.

Notation "'let*' x := c 'in' k" := (bind c (fun x => k))
  (at level 10, x pattern, c at level 100, k at level 200).

Fixpoint for_eachO {S : Type} (l : list nat) (body : nat -> S -> outcome S)
    (s : S) : outcome S :=
  match l with
  | [] => Ret s
  | i :: l' => let* s' := body i s in for_eachO l' body s'
  end.

(** ToInt32, and the operators [z >> s] and [z << s] for a shift count
    [0 <= s < 32]. *)
Definition toInt32 (z : Z) : Z := (z + 2 ^ 31) mod 2 ^ 32 - 2 ^ 31.
Definition sar (z s : Z) : Z := Z.shiftr (toInt32 z) s.
Definition shl (z s : Z) : Z := toInt32 (Z.shiftl (toInt32 z) s).

(** [a[i]] and [a[i] = v] on a [Float32Array]; a store outside the array
    is ignored. *)
Definition get (a : list R) (i : Z) : outcome R :=
  if i <? 0 then Undefined
  else match a !! Z.to_nat i with
       | Some v => Ret v
       | None => Undefined
       end.

Definition set (a : list R) (i : Z) (v : R) : list R :=
  if i <? 0 then a else <[Z.to_nat i := v]> a.

(** [[a[i], a[j]] = [a[j], a[i]]]. *)
Definition swap (a : list R) (i j : Z) : outcome (list R) :=
  let* aj := get a j in
  let* ai := get a i in
  Ret (set (set a i aj) j ai).

(** [while (k <= j) { j -= k; k >>= 1; }]. *)
Fixpoint while_k (fuel : nat) (j k : Z) : outcome (Z * Z) :=
  match fuel with
  | O => OutOfFuel
  | S fuel' =>
      if k <=? j then while_k fuel' (j - k) (sar k 1) else Ret (j, k)
  end.

(** One round of the bit-reversal loop, at index [i] with the reversed
    index [j]. *)
Definition bitReversalStep (fuel : nat) (n : Z) (i : nat)
    (st : list R * list R * Z) : outcome (list R * list R * Z) :=
  let '(real, imag, j) := st in
  let i := Z.of_nat i in
  let* (real, imag) :=
    (if i <? j
     then let* real' := swap real i j in
          let* imag' := swap imag i j in
          Ret (real', imag')
     else Ret (real, imag)) in
  let k := sar n 1 in
  let* (j, k) := while_k fuel j k in
  let j := j + k in
  Ret (real, imag, j).

(** The bit-reversal permutation: the first loop of [fft1D]. *)
Definition bitReversal (fuel : nat) (n : Z) (real imag : list R)
  : outcome (list R * list R * Z) :=
  for_eachO (seq 0 (Z.to_nat (n - 1))) (bitReversalStep fuel n)
            (real, imag, 0).

(** One round of the innermost loop: the butterfly on
    [(evenIdx, oddIdx)] and the rotation of the twiddle factor. *)
Definition butterfly (i halfLen : Z) (angle : R) (j : nat)
    (st : list R * list R * R * R) : outcome (list R * list R * R * R) :=
  let '(real, imag, wReal, wImag) := st in
  let evenIdx := i + Z.of_nat j in
  let oddIdx := i + Z.of_nat j + halfLen in
  let* realOdd := get real oddIdx in
  let* imagOdd := get imag oddIdx in
  let tReal := (wReal * realOdd - wImag * imagOdd)%R in
  let tImag := (wReal * imagOdd + wImag * realOdd)%R in
  let* realEven := get real evenIdx in
  let real := set real oddIdx (realEven - tReal)%R in
  let* imagEven := get imag evenIdx in
  let imag := set imag oddIdx (imagEven - tImag)%R in
  let* realEven := get real evenIdx in
  let real := set real evenIdx (realEven + tReal)%R in
  let* imagEven := get imag evenIdx in
  let imag := set imag evenIdx (imagEven + tImag)%R in
  let nextWReal := (wReal * cos angle - wImag * sin angle)%R in
  let nextWImag := (wReal * sin angle + wImag * cos angle)%R in
  Ret (real, imag, nextWReal, nextWImag).

(** [for (let i = 0; i < n; i += len)], entered at [i]. *)
Fixpoint blocks (fuel : nat) (n len halfLen : Z) (angle : R) (i : Z)
    (st : list R * list R) : outcome (list R * list R) :=
  match fuel with
  | O => OutOfFuel
  | S fuel' =>
      if i <? n then
        let '(real, imag) := st in
        let* (real, imag, _, _) :=
          for_eachO (seq 0 (Z.to_nat halfLen)) (butterfly i halfLen angle)
                    (real, imag, 1%R, 0%R) in
        blocks fuel' n len halfLen angle (i + len) (real, imag)
      else Ret st
  end.

(** [for (let len = 2; len <= n; len <<= 1)], entered at [len]. *)
Fixpoint stages (fuel fuel_blocks : nat) (n len : Z) (st : list R * list R)
  : outcome (list R * list R) :=
  match fuel with
  | O => OutOfFuel
  | S fuel' =>
      if len <=? n then
        let halfLen := sar len 1 in
        let angle := (-2 * PI / IZR len)%R in
        let* st' := blocks fuel_blocks n len halfLen angle 0 st in
        stages fuel' fuel_blocks n (shl len 1) st'
      else Ret st
  end.

(** [fft1D(real, imag)]: the arrays are updated in place, so the model
    returns their final contents.  Every unbounded loop runs on [fuel]. *)
Definition fft1D (fuel : nat) (real imag : list R)
  : outcome (list R * list R) :=
  let n := Z.of_nat (length real) in
  if n <=? 1 then Ret (real, imag)
  else
    let* (real, imag, _) := bitReversal fuel n real imag in
    stages fuel fuel n 2 (real, imag).

(** The call does not end by throwing. *)
Definition no_throw {A : Type} (o : outcome A) : Prop :=
  forall e : ErrorKind, o <> Throw e.

(** The impulse test vector of length [n] and the all-zero array. *)
Definition impulse (n : nat) : list R :=
  match n with
  | O => []
  | S n' => 1%R :: replicate n' 0%R
  end.

Definition zeros (n : nat) : list R := replicate n 0%R.

(** [Math.sqrt(re * re + im * im)] at index [k], as
    [Utils.calculateMagnitude] computes it. *)
Definition magnitudeAt (real imag : list R) (k : nat) : option R :=
  match real !! k, imag !! k with
  | Some re, Some im => Some (sqrt (re * re + im * im))
  | _, _ => None
  end.

End FFT.

(** ** Counters read in both directions

    The bit-reversal loop keeps [j] equal to the mirror image of [i]: the
    binary digits of [i], least significant first, are the digits of [j],
    most significant first. *)

Module Bits.

Local Open Scope Z_scope.

Definition pow2 (s : nat) : Z := 2 ^ Z.of_nat s.

(** The number whose digits are [bs], least significant first. *)
Fixpoint val_lsb (bs : list bool) : Z :=
  match bs with
  | [] => 0
  | b :: bs' => (if b then 1 else 0) + 2 * val_lsb bs'
  end.

(** The number whose digits are [bs], most significant first. *)
Fixpoint val_msb (bs : list bool) : Z :=
  match bs with
  | [] => 0
  | b :: bs' => (if b then pow2 (length bs') else 0) + val_msb bs'
  end.

(** Adding one to the number read least significant digit first; [None]
    when every digit is set. *)
Fixpoint inc (bs : list bool) : option (list bool) :=
  match bs with
  | [] => None
  | false :: bs' => Some (true :: bs')
  | true :: bs' =>
      match inc bs' with
      | Some r => Some (false :: r)
      | None => None
      end
  end.

(** The array that holds 1 at the first [c] of its [n] indices and 0 at
    the others. *)
Definition step_list (n c : nat) : list R :=
  replicate c 1%R ++ replicate (n - c) 0%R.

(** The invariant of the bit-reversal loop on the impulse of length
    [2^m]: the arrays are untouched and [j] mirrors [i]. *)
Definition mirrored (m i : nat) (st : list R * list R * Z) : Prop :=
  let '(real, imag, j) := st in
  real = step_list (2 ^ m) 1 /\ imag = FFT.zeros (2 ^ m)
  /\ exists bs : list bool,
       length bs = m /\ val_lsb bs = Z.of_nat i /\ val_msb bs = j.

End Bits.

(** * Further notions and models

    The rest of the pipeline: the preprocessing of a frame
    ([rgbToGrayscale], [applyHighPassFilter]) over [Q], the heat map of
    the visualizer ([infernoColormap], the pixel loop of [render]) over [Q]
    and bytes, and the spectrum of a frame ([fft2D], [calculateMagnitude],
    [toLogScale], [computeFFT]) over [R], into which the filtered field is
    carried by [Q2R].  The discrete Fourier transform that [fft1D] and
    [fft2D] are compared with is defined in [Fourier]. *)

(** ** Uniform spectra *)

Module Uniform.

Import Classifier.
Local Open Scope Q_scope.

(** A [width * height] frame whose spectrum has the same value
    everywhere. *)
Definition uniformFrame (width height : nat) (f : FFTData) : Prop :=
  Classifier.width f = width /\ Classifier.height f = height
  /\ length (magnitude f) = (width * height)%nat
  /\ exists c : Q, Forall (fun v => v == c) (magnitude f).

End Uniform.

(** ** The frames of a run *)

Module Run.

Import Pipeline.

(** The frames a run of [analyzeVideo] acquires, in the order of their
    timestamps. *)
Definition sampledFrames {ImageData : Type} (this : FFTAnalyzer)
    (video : @Video ImageData) : list ImageData :=
  List.map (fun i => frameAt video (timeOf video (sampleFrames this) i)
                             (frameSize this))
           (seq 1 (sampleFrames this)).

End Run.

(** ** utils.js: the preprocessing of a frame *)

Module Frame.

Import FFT.
Local Open Scope Q_scope.

(** The pixel buffer of a canvas: [data] holds the bytes R, G, B, A of the
    pixels, row by row. *)
Record ImageData : Type := mkImageData {
  data : list Z;
  width : nat;
  height : nat
}.

(** What the platform guarantees of an [ImageData]: four bytes per
    pixel. *)
Definition wellFormed (imageData : ImageData) : Prop :=
  length (data imageData) = (4 * (width imageData * height imageData))%nat
  /\ Forall (fun v => (0 <= v <= 255)%Z) (data imageData).

(** [a[i]] where the value is used as a number: a missing element ends
    the run of the model. *)
Definition elem {A : Type} (a : list A) (i : nat) : outcome A :=
  match a !! i with
  | Some v => Ret v
  | None => Undefined
  end.

Definition elemZ {A : Type} (a : list A) (i : Z) : outcome A :=
  if (i <? 0)%Z then Undefined else elem a (Z.to_nat i).

(** [for (k of l) { s = body(k, s) }] for any kind of index. *)
Fixpoint foldO {I S : Type} (l : list I) (body : I -> S -> outcome S)
    (s : S) : outcome S :=
  match l with
  | [] => Ret s
  | i :: l' => let* s' := body i s in foldO l' body s'
  end.

(** The luminance of a pixel. *)
Definition luminance (r g b : Z) : Q :=
  0.299 * inject_Z r + 0.587 * inject_Z g + 0.114 * inject_Z b.

(** [rgbToGrayscale(imageData)]. *)
Definition rgbToGrayscale (imageData : ImageData) : outcome (list Q) :=
  let data := data imageData in
  let grayscale := replicate (width imageData * height imageData) 0 in
  for_eachO (stride_range 0 (length data) 4) (fun i grayscale =>
    let* r := elem data i in
    let* g := elem data (i + 1) in
    let* b := elem data (i + 2) in
    let gray := luminance r g b in
    Ret (<[(i / 4)%nat := gray]> grayscale)) grayscale.

Definition kernel : list (list Z) :=
  [ [-1; -1; -1];
    [-1;  8; -1];
    [-1; -1; -1] ]%Z.

(** The two innermost loops of [applyHighPassFilter]: the weighted sum
    around the pixel [(x, y)]. *)
Definition kernelSum (data : list Q) (width y x : nat) : outcome Q :=
  foldO [-1; 0; 1]%Z (fun ky sum =>
    foldO [-1; 0; 1]%Z (fun kx sum =>
      let pixelIndex :=
        ((Z.of_nat y + ky) * Z.of_nat width + (Z.of_nat x + kx))%Z in
      let* v := elemZ data pixelIndex in
      let* row := elemZ kernel (ky + 1) in
      let* k := elemZ row (kx + 1) in
      Ret (sum + v * inject_Z k)) sum) 0.

(** [applyHighPassFilter(data, width, height)]. *)
Definition applyHighPassFilter (data : list Q) (width height : nat)
  : outcome (list Q) :=
  let filtered := replicate (length data) 0 in
  for_eachO (seq 1 (height - 2)) (fun y filtered =>
    for_eachO (seq 1 (width - 2)) (fun x filtered =>
      let* sum := kernelSum data width y x in
      Ret (<[(y * width + x)%nat := sum]> filtered)) filtered) filtered.

(** The pixels that have all eight neighbours. *)
Definition interior (width height y x : nat) : Prop :=
  (1 <= y)%nat /\ (y + 1 < height)%nat /\ (1 <= x)%nat /\ (x + 1 < width)%nat.

(** The value at [(x, y)] of a [width]-wide field, 0 outside. *)
Definition pixel (data : list Q) (width : nat) (y x : nat) : Q :=
  match data !! (y * width + x)%nat with
  | Some v => v
  | None => 0
  end.

(** Eight times the centre minus the eight neighbours. *)
Definition highPassAt (data : list Q) (width y x : nat) : Q :=
  8 * pixel data width y x
  - (pixel data width (y - 1) (x - 1) + pixel data width (y - 1) x
     + pixel data width (y - 1) (x + 1)
     + pixel data width y (x - 1) + pixel data width y (x + 1)
     + pixel data width (y + 1) (x - 1) + pixel data width (y + 1) x
     + pixel data width (y + 1) (x + 1)).

End Frame.

(** ** utils.js and fft-visualizer.js: the heat map *)

Module Heatmap.

Local Open Scope Q_scope.

(** A call returns, throws a [TypeError] (a property of [undefined] is
    read) or throws an [IndexSizeError] ([createImageData] is asked for an
    image without pixels). *)
Inductive result (A : Type) : Type :=
| Ok (a : A)
| TypeError
| IndexSizeError.

Arguments Ok {A} a.
Arguments TypeError {A}.
Arguments IndexSizeError {A}.

Definition colormapData : list (Z * Z * Z) :=
  [ (0, 0, 4); (40, 11, 84); (101, 21, 110); (159, 42, 99);
    (212, 72, 66); (245, 125, 21); (250, 193, 39); (252, 255, 164) ]%Z.

(** [a[i]] for a number [i]: [None] is [undefined]. *)
Definition lookupZ {A : Type} (a : list A) (i : Z) : option A :=
  if (i <? 0)%Z then None else a !! Z.to_nat i.

(** [Math.round]: the nearest integer, halves upwards. *)
Definition round (x : Q) : Z := Qfloor (x + (1 # 2)).

(** [c1 + (c2 - c1) * t], rounded. *)
Definition blend (c1 c2 : Z) (t : Q) : Z :=
  round (inject_Z c1 + (inject_Z c2 - inject_Z c1) * t).

(** [infernoColormap(value)]. *)
Definition infernoColormap (value : Q) : result (Z * Z * Z) :=
  let count := Z.of_nat (length colormapData) in
  let index := Z.min (Qfloor (value * inject_Z (count - 1))) (count - 2) in
  let t := value * inject_Z (count - 1) - inject_Z index in
  match lookupZ colormapData index with
  | None => TypeError
  | Some (r1, g1, b1) =>
      match lookupZ colormapData (index + 1) with
      | None => TypeError
      | Some (r2, g2, b2) => Ok (blend r1 r2 t, blend g1 g2 t, blend b1 b2 t)
      end
  end.

(** The loop of [render] that fills the pixel buffer of
    [createImageData(width, height)], four bytes per value of the
    normalized spectrum. *)
Fixpoint fillPixels (normalized : list Z) (i : nat) (pixels : list Z)
  : result (list Z) :=
  match normalized with
  | [] => Ok pixels
  | v :: rest =>
      let value := inject_Z v / 255 in
      match infernoColormap value with
      | TypeError => TypeError
      | IndexSizeError => IndexSizeError
      | Ok (r, g, b) =>
          let pixels := <[(i * 4)%nat := Num.toUint8Clamp (inject_Z r)]> pixels in
          let pixels := <[(i * 4 + 1)%nat := Num.toUint8Clamp (inject_Z g)]> pixels in
          let pixels := <[(i * 4 + 2)%nat := Num.toUint8Clamp (inject_Z b)]> pixels in
          let pixels := <[(i * 4 + 3)%nat := Num.toUint8Clamp 255]> pixels in
          fillPixels rest (S i) pixels
      end
  end.

(** The part of [render] that computes the pixels: the normalization, the
    buffer of [createImageData(width, height)] and the loop. *)
Definition renderPixels (magnitude : list Q) (width height : nat)
  : result (list Z) :=
  let normalized := Utils.normalize magnitude in
  if (width =? 0)%nat || (height =? 0)%nat then IndexSizeError
  else
    let imageData := replicate (4 * (width * height)) 0%Z in
    fillPixels normalized 0 imageData.

End Heatmap.

(** ** The discrete Fourier transform

    What [fft1D] is meant to compute, written with complex numbers as
    pairs of reals, and the notions used to relate the loops of [fft1D] to
    it. *)

Module Fourier.

Local Open Scope R_scope.

Definition C : Type := R * R.

Definition Cadd (a b : C) : C := (a.1 + b.1, a.2 + b.2).
Definition Csub (a b : C) : C := (a.1 - b.1, a.2 - b.2).
Definition Cmul (a b : C) : C :=
  (a.1 * b.1 - a.2 * b.2, a.1 * b.2 + a.2 * b.1).

(** [cos t + i sin t]. *)
Definition cis (t : R) : C := (cos t, sin t).

(** [f 0 + ... + f (n - 1)]. *)
Fixpoint Csum (n : nat) (f : nat -> C) : C :=
  match n with
  | O => (0, 0)
  | S n' => Cadd (Csum n' f) (f n')
  end.

(** The complex sample at index [t] of a pair of arrays. *)
Definition signal (real imag : list R) (t : nat) : C :=
  (nth t real 0, nth t imag 0).

(** The transform of the sequence [x] of length [n] at frequency [k]:
    the sum of [x t * exp (- 2 pi i t k / n)]. *)
Definition dftOf (n : nat) (x : nat -> C) (k : nat) : C :=
  Csum n (fun t => Cmul (x t) (cis (- (2 * PI * INR t * INR k / INR n)))).

Definition dft (real imag : list R) (k : nat) : C :=
  dftOf (length real) (signal real imag) k.

(** The arrays [real] and [imag] have length [N] and hold the sequence
    [F]. *)
Definition holds (real imag : list R) (N : nat) (F : nat -> C) : Prop :=
  length real = N /\ length imag = N
  /\ forall p : nat, (p < N)%nat ->
       real !! p = Some (F p).1 /\ imag !! p = Some (F p).2.

(** The index [v] with its [w] low bits in reverse order. *)
Fixpoint rev (w v : nat) : nat :=
  match w with
  | O => O
  | S w' => ((v mod 2) * 2 ^ w' + rev w' (v / 2))%nat
  end.

(** The contents of the arrays when the bit-reversal loop is at index
    [i]: the indices below [i] and their mirror images are exchanged. *)
Definition reversalInv (m i : nat) (F : nat -> C) (a : nat) : C :=
  if (a <? i)%nat || (rev m a <? i)%nat then F (rev m a) else F a.

(** What one stage of butterflies with half-length [H] makes of the
    sequence [F]. *)
Definition stage (H : nat) (angle : R) (F : nat -> C) (p : nat) : C :=
  let j := (p mod (2 * H))%nat in
  if (j <? H)%nat
  then Cadd (F p) (Cmul (cis (INR j * angle)) (F (p + H)%nat))
  else Csub (F (p - H)%nat) (Cmul (cis (INR (j - H) * angle)) (F p)).

(** The contents of the arrays after [t] butterflies of the block that
    starts at [i]. *)
Definition innerInv (H : nat) (angle : R) (i t : nat) (F : nat -> C)
    (p : nat) : C :=
  if (i <=? p)%nat && (p <? i + t)%nat
  then Cadd (F p) (Cmul (cis (INR (p - i) * angle)) (F (p + H)%nat))
  else if (i + H <=? p)%nat && (p <? i + H + t)%nat
  then Csub (F (p - H)%nat) (Cmul (cis (INR (p - i - H) * angle)) (F p))
  else F p.

(** The contents of the arrays after the blocks below index [i]. *)
Definition blocksInv (H : nat) (angle : R) (i : nat) (F : nat -> C)
    (p : nat) : C :=
  if (p <? i)%nat then stage H angle F p else F p.

(** The transforms of length [2^s] of the [2^w] interleaved subsequences
    of [x], as the arrays hold them after [s] stages: block [b] is the
    transform of the subsequence that starts at [rev w b] and has stride
    [2^w]. *)
Definition partial (w s : nat) (x : nat -> C) (p : nat) : C :=
  let b := (p / 2 ^ s)%nat in
  let k := (p mod 2 ^ s)%nat in
  dftOf (2 ^ s) (fun t => x (rev w b + 2 ^ w * t)%nat) k.

(** The sample at index [p] of a real image. *)
Definition pixelAt (data : list R) (p : nat) : C := (nth p data 0, 0).

(** The transform of row [y] of the image at horizontal frequency [u]. *)
Definition rowDft (data : list R) (width : nat) (y u : nat) : C :=
  dftOf width (fun x => pixelAt data (y * width + x)) u.

(** The 2D transform of a [width * height] image at the frequency
    [(u, v)]: the sum over [y] and [x] of
    [data[y * width + x] * exp (- 2 pi i (x u / width + y v / height))],
    as the transform over [y] of the transforms of the rows. *)
Definition dft2D (data : list R) (width height : nat) (u v : nat) : C :=
  dftOf height (fun y => rowDft data width y u) v.

(** The contents of the arrays of [fft2D] after the rows below [y], and
    after the columns below [x]. *)
Definition rowsInv (data : list R) (width : nat) (y p : nat) : C :=
  if (p / width <? y)%nat then rowDft data width (p / width) (p mod width)
  else pixelAt data p.

Definition colsInv (data : list R) (width height : nat) (x p : nat) : C :=
  if (p mod width <? x)%nat
  then dft2D data width height (p mod width) (p / width)
  else rowDft data width (p / width) (p mod width).

End Fourier.

(** ** fft-analyzer.js and utils.js: the spectrum of a frame *)

Module Spectrum.

Import FFT.
Local Open Scope R_scope.

(** [a.slice(lo, hi)] of a typed array, for [lo <= hi]: both ends are
    clamped to the length. *)
Definition slice (a : list R) (lo hi : nat) : list R :=
  take (hi - lo) (drop lo a).

(** A loop [for (t = 0; t < len; t++) { real[dst t] = fromReal[src t];
    imag[dst t] = fromImag[src t]; }]: the loops of [fft2D] that move a
    row or a column between the image and the arrays given to [fft1D]. *)
Definition copyCells (len : nat) (src dst : nat -> nat)
    (from to : list R * list R) : outcome (list R * list R) :=
  for_eachO (seq 0 len)
    (fun t st =>
       let '(real, imag) := st in
       let* r := get from.1 (Z.of_nat (src t)) in
       let real := set real (Z.of_nat (dst t)) r in
       let* i := get from.2 (Z.of_nat (src t)) in
       let imag := set imag (Z.of_nat (dst t)) i in
       Ret (real, imag))
    to.

(** [fft2D(data, width, height)]; [fuel] bounds the loops of each call of
    [fft1D]. *)
Definition fft2D (fuel : nat) (data : list R) (width height : nat)
  : outcome (list R * list R) :=
  let real := zeros (length data) in
  let imag := zeros (length data) in
  let* real :=
    for_eachO (seq 0 (length data))
      (fun i real =>
         let* v := get data (Z.of_nat i) in
         Ret (set real (Z.of_nat i) v))
      real in
  let* (real, imag) :=
    for_eachO (seq 0 height)
      (fun y st =>
         let '(real, imag) := st in
         let rowReal := slice real (y * width) ((y + 1) * width) in
         let rowImag := slice imag (y * width) ((y + 1) * width) in
         let* (rowReal, rowImag) := fft1D fuel rowReal rowImag in
         copyCells width (fun x => x) (fun x => (y * width + x)%nat)
                   (rowReal, rowImag) (real, imag))
      (real, imag) in
  for_eachO (seq 0 width)
    (fun x st =>
       let '(real, imag) := st in
       let* (colReal, colImag) :=
         copyCells height (fun y => (y * width + x)%nat) (fun y => y)
                   (real, imag) (zeros height, zeros height) in
       let* (colReal, colImag) := fft1D fuel colReal colImag in
       copyCells height (fun y => y) (fun y => (y * width + x)%nat)
                 (colReal, colImag) (real, imag))
    (real, imag).

(** [Utils.calculateMagnitude(real, imag)]. *)
Definition calculateMagnitude (real imag : list R) : outcome (list R) :=
  for_eachO (seq 0 (length real))
    (fun i magnitude =>
       let* re := get real (Z.of_nat i) in
       let* im := get imag (Z.of_nat i) in
       Ret (set magnitude (Z.of_nat i) (sqrt (re * re + im * im))))
    (zeros (length real)).

(** [Math.log10] on the positive numbers. *)
Definition log10 (x : R) : R := ln x / ln 10.

(** [Utils.toLogScale(magnitude)].  Where the argument of [Math.log10] is
    not positive, the source stores NaN or -Infinity; the model stops
    there. *)
Definition toLogScale (magnitude : list R) : outcome (list R) :=
  for_eachO (seq 0 (length magnitude))
    (fun i logMag =>
       let* v := get magnitude (Z.of_nat i) in
       let arg := v + 1 / 10 ^ 10 in
       if Rlt_dec 0 arg
       then Ret (set logMag (Z.of_nat i) (20 * log10 arg))
       else Undefined)
    (zeros (length magnitude)).

(** The value [toLogScale] stores for the complex amplitude [c]. *)
Definition decibels (c : R * R) : R :=
  20 * log10 (sqrt (c.1 * c.1 + c.2 * c.2) + 1 / 10 ^ 10).

(** The result of [computeFFT]; an entry [None] is the NaN that
    [fftShift] stores when it reads past the end of its input. *)
Record FFTData : Type := mkFFTData {
  magnitude : list (option R);
  width : nat;
  height : nat
}.

(** [computeFFT(imageData)]. *)
Definition computeFFT (fuel : nat) (this : Pipeline.FFTAnalyzer)
    (imageData : Frame.ImageData) : outcome FFTData :=
  let frameSize := Pipeline.frameSize this in
  let* grayscale := Frame.rgbToGrayscale imageData in
  let* grayscale := Frame.applyHighPassFilter grayscale frameSize frameSize in
  let* (real, imag) := fft2D fuel (Q2R <$> grayscale) frameSize frameSize in
  let* magnitude := calculateMagnitude real imag in
  let* logMagnitude := toLogScale magnitude in
  let shifted :=
    Utils.fftShift (Some 0) None (Some <$> logMagnitude) frameSize frameSize in
  Ret {| magnitude := shifted; width := frameSize; height := frameSize |}.

(** The spectrum [spectrum], computed over the reals, has rational
    values, and [f] is the same spectrum as the classifier receives it. *)
Definition readsAs (spectrum : FFTData) (f : Classifier.FFTData) : Prop :=
  magnitude spectrum = (fun q => Some (Q2R q)) <$> Classifier.magnitude f
  /\ width spectrum = Classifier.width f
  /\ height spectrum = Classifier.height f.

(** Every pixel of the frame has the colour [(r, g, b)]. *)
Definition uniformColour (imageData : Frame.ImageData) (r g b : Z) : Prop :=
  forall p : nat,
    (p < Frame.width imageData * Frame.height imageData)%nat ->
    Frame.data imageData !! (4 * p)%nat = Some r
    /\ Frame.data imageData !! (4 * p + 1)%nat = Some g
    /\ Frame.data imageData !! (4 * p + 2)%nat = Some b.

End Spectrum.

(* ===== Further models end ===== *)

(* ===== Proofs ===== *)

(** ** Numbers *)

Section NumFacts.

Local Open Scope Q_scope.

Lemma ltb_lt (x y : Q) : Num.ltb x y = true <-> x < y.
Proof.
  unfold Num.ltb. rewrite Qlt_alt.
  destruct (x ?= y); split; congruence.
Qed.

Lemma ltb_ge (x y : Q) : Num.ltb x y = false <-> y <= x.
Proof.
  rewrite <- not_true_iff_false, ltb_lt. split.
  - apply Qnot_lt_le.
  - apply Qle_not_lt.
Qed.

Lemma ltb_compat (x x' y y' : Q) :
  x == x' -> y == y' -> Num.ltb x y = Num.ltb x' y'.
Proof.
  intros Hx Hy. unfold Num.ltb. now rewrite Hx, Hy.
Qed.

Lemma clamp_bounds (x : Q) :
  0 <= Qmin (Qmax x 0) 255 <= 255.
Proof.
  split.
  - apply Q.min_glb; [apply Q.le_max_r | discriminate].
  - apply Q.le_min_r.
Qed.

Lemma clamp_id (x : Q) : 0 <= x <= 255 -> Qmin (Qmax x 0) 255 == x.
Proof.
  intros [H0 H1]. rewrite (Q.max_l x 0) by exact H0.
  now apply Q.min_l.
Qed.

Lemma floor_bounds (c : Q) :
  0 <= c <= 255 -> (0 <= Qfloor c <= 255)%Z.
Proof.
  intros [H0 H1]. split.
  - change 0%Z with (Qfloor 0). now apply Qfloor_resp_le.
  - change 255%Z with (Qfloor 255). now apply Qfloor_resp_le.
Qed.

Lemma toUint8Clamp_cases (x : Q) :
  let c := Qmin (Qmax x 0) 255 in
  (Num.toUint8Clamp x = Qfloor c /\ c <= inject_Z (Qfloor c) + (1 # 2))
  \/ (Num.toUint8Clamp x = (Qfloor c + 1)%Z /\ inject_Z (Qfloor c) + (1 # 2) <= c).
Proof.
  intros c. unfold Num.toUint8Clamp. fold c.
  destruct (Num.ltb c (inject_Z (Qfloor c) + (1 # 2))) eqn:E1.
  { left. split; [reflexivity |]. apply ltb_lt in E1. now apply Qlt_le_weak. }
  apply ltb_ge in E1.
  destruct (Num.ltb (inject_Z (Qfloor c) + (1 # 2)) c) eqn:E2.
  { right. now split. }
  apply ltb_ge in E2.
  destruct (Z.even (Qfloor c)); [left | right]; now split.
Qed.

Lemma toUint8Clamp_range (x : Q) : (0 <= Num.toUint8Clamp x <= 255)%Z.
Proof.
  pose proof (clamp_bounds x) as Hc.
  pose proof (floor_bounds _ Hc) as Hf.
  destruct (toUint8Clamp_cases x) as [[-> _] | [-> Hhalf]]; [exact Hf |].
  split; [lia |].
  assert (inject_Z (Qfloor (Qmin (Qmax x 0) 255)) < inject_Z 255) as Hlt.
  { change (inject_Z 255) with 255. lra. }
  rewrite <- Zlt_Qlt in Hlt. lia.
Qed.

Lemma toUint8Clamp_near (x : Q) :
  0 <= x <= 255 -> Qabs (inject_Z (Num.toUint8Clamp x) - x) <= 1 # 2.
Proof.
  intros Hx. pose proof (clamp_id x Hx) as Hc.
  pose proof (Qfloor_le (Qmin (Qmax x 0) 255)) as Hlo.
  pose proof (Qlt_floor (Qmin (Qmax x 0) 255)) as Hhi.
  rewrite inject_Z_plus in Hhi. change (inject_Z 1) with 1 in Hhi.
  apply Qabs_Qle_condition.
  destruct (toUint8Clamp_cases x) as [[-> Hh] | [-> Hh]]; cbv zeta in Hh.
  - split; lra.
  - rewrite inject_Z_plus. change (inject_Z 1) with 1. split; lra.
Qed.

Lemma toUint8Clamp_compat (x y : Q) :
  x == y -> Num.toUint8Clamp x = Num.toUint8Clamp y.
Proof.
  intros H. unfold Num.toUint8Clamp.
  assert (Qmin (Qmax x 0) 255 == Qmin (Qmax y 0) 255) as Hc by now rewrite H.
  rewrite (Qfloor_comp _ _ Hc).
  rewrite (ltb_compat _ (Qmin (Qmax y 0) 255) _
             (inject_Z (Qfloor (Qmin (Qmax y 0) 255)) + (1 # 2)) Hc)
    by reflexivity.
  rewrite (ltb_compat (inject_Z (Qfloor (Qmin (Qmax y 0) 255)) + (1 # 2))
             (inject_Z (Qfloor (Qmin (Qmax y 0) 255)) + (1 # 2))
             _ (Qmin (Qmax y 0) 255)) by (reflexivity || exact Hc).
  reflexivity.
Qed.

Lemma toUint8Clamp_0 : Num.toUint8Clamp 0 = 0%Z.
Proof. reflexivity. Qed.

End NumFacts.

(** ** [Utils.normalize] *)

Section NormalizeFacts.

Local Open Scope Q_scope.





Lemma arr_min_const (c : Q) (xs : list Q) (x : Q) :
  x == c -> Forall (fun d => d == c) xs -> Utils.arr_min x xs == c.
Proof.
  unfold Utils.arr_min. intros Hx Hxs. revert x Hx.
  induction Hxs as [|y ys Hy _ IH]; intros x Hx; simpl; [exact Hx |].
  apply IH. rewrite Q.min_l; [exact Hx |]. rewrite Hx, Hy. apply Qle_refl.
Qed.

Lemma arr_max_const (c : Q) (xs : list Q) (x : Q) :
  x == c -> Forall (fun d => d == c) xs -> Utils.arr_max x xs == c.
Proof.
  unfold Utils.arr_max. intros Hx Hxs. revert x Hx.
  induction Hxs as [|y ys Hy _ IH]; intros x Hx; simpl; [exact Hx |].
  apply IH. rewrite Q.max_l; [exact Hx |]. rewrite Hx, Hy. apply Qle_refl.
Qed.

Lemma fmap_const_replicate {A B : Type} (b : B) (l : list A) :
  (fun _ => b) <$> l = replicate (length l) b.
Proof.
  induction l as [|a l IH]; [reflexivity |].
  rewrite fmap_cons. simpl. now f_equal.
Qed.

Lemma normalize_length (data : list Q) :
  length (Utils.normalize data) = length data.
Proof.
  destruct data as [|x xs]; [reflexivity |].
  unfold Utils.normalize. now rewrite length_fmap.
Qed.

Lemma normalize_range (data : list Q) :
  Forall (fun v => (0 <= v <= 255)%Z) (Utils.normalize data).
Proof.
  destruct data as [|x xs]; [constructor |].
  unfold Utils.normalize. apply Forall_fmap, Forall_forall.
  intros d _. apply toUint8Clamp_range.
Qed.

(** The value stored at an index is the one the source computes from
    the element there. *)
Lemma normalize_lookup (x : Q) (xs : list Q) (i : nat) :
  Utils.normalize (x :: xs) !! i =
  (fun d =>
     Num.toUint8Clamp
       (if Num.ltb 0 (Utils.arr_max x xs - Utils.arr_min x xs)
        then ((d - Utils.arr_min x xs)
              / (Utils.arr_max x xs - Utils.arr_min x xs)) * 255
        else 0)) <$> (x :: xs) !! i.
Proof. unfold Utils.normalize. now rewrite list_lookup_fmap. Qed.


Lemma normalize_constant (c : Q) (data : list Q) :
  Forall (fun d => d == c) data ->
  Utils.normalize data = replicate (length data) 0%Z.
Proof.
  intros Hall. destruct data as [|x xs]; [reflexivity |].
  apply Forall_cons in Hall as [Hx Hxs].
  unfold Utils.normalize.
  assert (Num.ltb 0 (Utils.arr_max x xs - Utils.arr_min x xs) = false) as ->.
  { apply ltb_ge.
    rewrite (arr_min_const c xs x Hx Hxs), (arr_max_const c xs x Hx Hxs). lra. }
  rewrite toUint8Clamp_0. apply fmap_const_replicate.
Qed.

End NormalizeFacts.

(** ** Binary64: comparisons, NaN and the constant array *)

Section Binary64Facts.

Import Floats.FloatClass Floats.PrimFloat Floats.SpecFloat Floats.FloatOps.
Import Floats.FloatAxioms.
Import Binary64.
Local Open Scope float_scope.


Lemma SFcompare_refl (s : spec_float) :
  s <> S754_nan -> SFcompare s s = Some Eq.
Proof.
  destruct s as [sg | sg | | sg m e]; intros Hs; try congruence; cbn.
  - reflexivity.
  - now destruct sg.
  - rewrite Z.compare_refl, Pos.compare_cont_refl. now destruct sg.
Qed.


Lemma is_nan_true (x : float) : is_nan x = true <-> Prim2SF x = S754_nan.
Proof.
  unfold is_nan. rewrite eqb_spec. unfold SFeqb.
  destruct (Prim2SF x) as [sg | sg | | sg m e] eqn:E;
    try (rewrite SFcompare_refl by discriminate); cbn; split; congruence.
Qed.

Lemma ltb_nan_l (x y : float) : is_nan x = true -> (x <? y) = false.
Proof.
  intros Hx. apply is_nan_true in Hx. rewrite ltb_spec, Hx. reflexivity.
Qed.

Lemma ltb_nan_r (x y : float) : is_nan y = true -> (x <? y) = false.
Proof.
  intros Hy. apply is_nan_true in Hy. rewrite ltb_spec, Hy. unfold SFltb.
  now destruct (Prim2SF x).
Qed.














Lemma SFcompare_Eq_sym (x y : spec_float) :
  SFcompare x y = Some Eq -> SFcompare y x = Some Eq.
Proof.
  destruct x as [sx | sx | | sx mx ex], y as [sy | sy | | sy my ey]; cbn;
    try congruence.
  all: try (destruct sx; congruence).
  all: try (destruct sy; congruence).
  all: try (destruct sx, sy; congruence).
  destruct sx, sy; try congruence;
    (destruct (ex ?= ey)%Z eqn:He; try congruence;
     apply Z.compare_eq in He as ->; rewrite Z.compare_refl;
     destruct (Pos.compare_cont Eq mx my) eqn:Hm; cbn; try congruence;
     apply Pcompare_Eq_eq in Hm as ->; now rewrite Pos.compare_cont_refl).
Qed.


Lemma eqb_not_ltb (x y : float) : (x =? y) = true -> (y <? x) = false.
Proof.
  rewrite eqb_spec, ltb_spec. unfold SFeqb, SFltb. intros H.
  destruct (SFcompare (Prim2SF x) (Prim2SF y)) as [[| |] |] eqn:E;
    try discriminate.
  now rewrite (SFcompare_Eq_sym _ _ E).
Qed.





End Binary64Facts.

Section NormalizeContract.

Import Floats.PrimFloat.
Local Open Scope Q_scope.

Example normalize_ramp : Utils.normalize [0; 1; 2; 4] = [0; 64; 128; 255]%Z.
Proof. reflexivity. Qed.

Example normalize_flat : Utils.normalize [7 # 2; 7 # 2; 14 # 4] = [0; 0; 0]%Z.
Proof. reflexivity. Qed.

(** Without the guard [range > 0] the value computed for an element of a
    constant array would be NaN. *)
Example unguarded_quotient :
  is_nan ((7 - 7) / (7 - 7) * 255)%float = true.
Proof. reflexivity. Qed.



End NormalizeContract.

(** ** The classifier works on the normalized spectrum *)

Section NormalizesInternally.

Import Floats.FloatClass Floats.PrimFloat Floats.SpecFloat Floats.FloatOps.
Import Binary64.
Local Open Scope float_scope.

Example normalize_steps : normalize steps = [0; 241; 255]%Z.
Proof. vm_compute. reflexivity. Qed.




End NormalizesInternally.

(** ** Counting loops *)

Section CountingLoops.

Import Classifier.

Lemma for_each_bump_count (p : nat -> bool) (l : list nat) (c : nat) :
  for_each l (fun i count => bump (p i) count) c
  = (c + length (List.filter p l))%nat.
Proof.
  unfold for_each. revert c.
  induction l as [|i l IH]; intros c; simpl; [lia |].
  rewrite IH. unfold bump. destruct (p i); simpl; lia.
Qed.

Lemma for_each_rows_count (p : nat -> nat -> bool) (ys xs : list nat) (c : nat) :
  for_each ys (fun y count =>
    for_each xs (fun x count => bump (p y x) count) count) c
  = (c + length (List.filter (fun yx => p (fst yx) (snd yx)) (list_prod ys xs)))%nat.
Proof.
  unfold for_each at 1. revert c.
  induction ys as [|y ys IH]; intros c; simpl; [lia |].
  rewrite IH, for_each_bump_count.
  rewrite List.filter_app, length_app.
  assert (List.filter (fun yx : nat * nat => p (fst yx) (snd yx))
            (List.map (fun x => (y, x)) xs)
          = List.map (fun x => (y, x)) (List.filter (p y) xs)) as ->.
  { clear. induction xs as [|x xs IH]; simpl; [reflexivity |].
    destruct (p y x); simpl; now rewrite IH. }
  rewrite length_map. lia.
Qed.

Lemma filter_none {A : Type} (p : A -> bool) (l : list A) :
  (forall a, In a l -> p a = false) -> List.filter p l = [].
Proof.
  induction l as [|a l IH]; intros H; simpl; [reflexivity |].
  rewrite (H a) by now left. apply IH. intros a' Ha'. apply H. now right.
Qed.

Lemma filter_all {A : Type} (p : A -> bool) (l : list A) :
  (forall a, In a l -> p a = true) -> List.filter p l = l.
Proof.
  induction l as [|a l IH]; intros H; simpl; [reflexivity |].
  rewrite (H a) by now left. f_equal. apply IH. intros a' Ha'. apply H. now right.
Qed.

End CountingLoops.

(** ** The classifier on an all-zero spectrum *)

Section ZeroSpectrum.

Import Classifier.
Local Open Scope Q_scope.

Lemma for_each_id {S : Type} (body : nat -> S -> S) (l : list nat) (s : S) :
  (forall i s', In i l -> body i s' = s') -> for_each l body s = s.
Proof.
  unfold for_each. revert s.
  induction l as [|i l IH]; intros s H; simpl; [reflexivity |].
  rewrite (H i s) by now left. apply IH. intros i' s' Hi'. apply H. now right.
Qed.

Lemma gt_zero_lookup (n i : nat) (t : Z) :
  (0 <= t)%Z -> Num.gt (replicate n 0%Z !! i) t = false.
Proof.
  intros Ht. destruct (replicate n 0%Z !! i) as [v|] eqn:E; [| reflexivity].
  apply lookup_replicate in E as [-> _]. simpl. lia.
Qed.

Lemma absdiff_zero_lookup (n i j : nat) (t : Z) :
  (0 <= t)%Z ->
  Num.gt (Num.absdiff (replicate n 0%Z !! i) (replicate n 0%Z !! j)) t = false.
Proof.
  intros Ht.
  destruct (replicate n 0%Z !! i) as [u|] eqn:Ei; [| reflexivity].
  destruct (replicate n 0%Z !! j) as [v|] eqn:Ej; [| reflexivity].
  apply lookup_replicate in Ei as [-> _]. apply lookup_replicate in Ej as [-> _].
  simpl. lia.
Qed.

Variables width height : nat.

Let normalized : list Z := replicate (width * height) 0%Z.

Lemma gridCount_zero : gridCount normalized width height = 0%nat.
Proof.
  unfold gridCount. apply for_each_id. intros y c _.
  apply for_each_id. intros x c' _.
  unfold normalized. now rewrite gt_zero_lookup.
Qed.

Lemma brightCount_zero : brightCount normalized = 0%nat.
Proof.
  unfold brightCount. apply for_each_id. intros i c _.
  unfold normalized. now rewrite gt_zero_lookup.
Qed.

Lemma crossCount_zero : crossCount normalized width height = 0%nat.
Proof.
  unfold crossCount. apply for_each_id. intros i c _.
  unfold normalized. now rewrite !gt_zero_lookup.
Qed.

Lemma checkerCount_zero : checkerCount normalized width height = 0%nat.
Proof.
  unfold checkerCount. apply for_each_id. intros y c _.
  apply for_each_id. intros x c' _.
  unfold checkerCond, normalized. now rewrite !absdiff_zero_lookup.
Qed.

Lemma smoothCond_zero (y x : nat) :
  (1 <= y <= height - 2)%nat -> (1 <= x <= width - 2)%nat ->
  smoothCond normalized width y x = true.
Proof.
  intros Hy Hx. unfold smoothCond, normalized.
  rewrite !lookup_replicate_2 by nia. reflexivity.
Qed.

Lemma gradientSmooth_zero :
  gradientSmooth normalized width height = ((height - 2) * (width - 2))%nat.
Proof.
  unfold gradientSmooth. rewrite for_each_rows_count, filter_all.
  - now rewrite length_prod, !length_seq.
  - intros [y x] Hin. apply in_prod_iff in Hin as [Hy Hx].
    apply in_seq in Hy, Hx. simpl. apply smoothCond_zero; lia.
Qed.

End ZeroSpectrum.

Section ZeroVerdict.

Import Classifier.
Local Open Scope Q_scope.

Lemma ofNat_nonneg (n : nat) : 0 <= Num.ofNat n.
Proof.
  unfold Num.ofNat. change 0 with (inject_Z 0). rewrite <- Zle_Qle. lia.
Qed.

Lemma Qdiv_nonneg (p q : Q) : 0 <= p -> 0 <= q -> 0 <= p / q.
Proof.
  intros Hp Hq. unfold Qdiv.
  apply Qmult_le_0_compat; [exact Hp | now apply Qinv_le_0_compat].
Qed.

Lemma score_of_zero_count (q : Q) : Qmin (Num.ofNat 0 / q) 1 == 0.
Proof.
  assert (Num.ofNat 0 / q == 0) as ->.
  { unfold Qdiv. apply Qmult_0_l. }
  reflexivity.
Qed.

Lemma normalize_zero (n : nat) :
  Utils.normalize (replicate n 0) = replicate n 0%Z.
Proof.
  rewrite (normalize_constant 0).
  - now rewrite length_replicate.
  - apply Forall_replicate. reflexivity.
Qed.

(** The five scores of the all-zero [width * height] spectrum. *)
Lemma analyzeFFTPattern_zero (width height : nat) :
  let p := analyzeFFTPattern (replicate (width * height) 0) width height in
  gridPattern p == 0 /\ brightDots p == 0 /\ crossShape p == 0
  /\ checkerboard p == 0
  /\ smoothGradient p
     = Num.ofNat ((height - 2) * (width - 2))
       / (Num.ofNat width * Num.ofNat height).
Proof.
  unfold analyzeFFTPattern. rewrite normalize_zero. cbn [gridPattern
    brightDots crossShape checkerboard smoothGradient].
  rewrite gridCount_zero, brightCount_zero, crossCount_zero,
    checkerCount_zero, gradientSmooth_zero.
  repeat split; apply score_of_zero_count.
Qed.

(** The average over a single frame is that frame's classification. *)
Lemma averagePatterns_single (f : FFTData) :
  let p := analyzeFFTPattern (magnitude f) (width f) (height f) in
  let avg := averagePatterns [f] in
  gridPattern avg == gridPattern p /\ brightDots avg == brightDots p
  /\ crossShape avg == crossShape p /\ checkerboard avg == checkerboard p
  /\ smoothGradient avg == smoothGradient p.
Proof.
  unfold averagePatterns. cbn [fold_left length].
  generalize (analyzeFFTPattern (magnitude f) (width f) (height f)).
  intros p. unfold divPatterns, addPatterns, zeroPatterns.
  cbn [gridPattern brightDots crossShape checkerboard smoothGradient].
  change (Num.ofNat 1) with 1.
  repeat split; field.
Qed.

Lemma detectAIPatterns_zero (width height : nat) :
  let s := Num.ofNat ((height - 2) * (width - 2))
           / (Num.ofNat width * Num.ofNat height) in
  let d := detectAIPatterns [mkFFTData (replicate (width * height) 0) width height] in
  isAI d = false /\ confidence d == Qmin (s * 100) 99.
Proof.
  intros s d.
  destruct (averagePatterns_single
              (mkFFTData (replicate (width * height) 0) width height))
    as (Hg & Hb & Hc & Hk & Hs).
  destruct (analyzeFFTPattern_zero width height) as (Zg & Zb & Zc & Zk & Zs).
  cbn [magnitude Classifier.width Classifier.height] in *.
  rewrite Zg in Hg. rewrite Zb in Hb. rewrite Zc in Hc. rewrite Zk in Hk.
  rewrite Zs in Hs. fold s in Hs.
  set (avg := averagePatterns _) in *.
  assert (0 <= s) as Hs0.
  { apply Qdiv_nonneg; [apply ofNat_nonneg |].
    apply Qmult_le_0_compat; apply ofNat_nonneg. }
  assert (aiScore avg == 0) as Hai.
  { unfold aiScore. rewrite Hg, Hb, Hc, Hk. reflexivity. }
  subst d. unfold detectAIPatterns, decide_patterns. fold avg.
  cbn [isAI confidence]. unfold realScore. split.
  - apply ltb_ge. rewrite Hai, Hs. exact Hs0.
  - rewrite Hai, Hs.
    assert (Qabs (0 - s) == s) as ->; [| reflexivity].
    rewrite <- (Qabs_opp (0 - s)).
    assert (- (0 - s) == s) as -> by ring.
    now apply Qabs_pos.
Qed.

End ZeroVerdict.

Section ZeroSpectrum256.

Import Classifier.
Local Open Scope Q_scope.

Lemma zero_verdict_at (width height : nat) (sm cf : Q) :
  Num.ofNat ((height - 2) * (width - 2)) / (Num.ofNat width * Num.ofNat height)
  == sm ->
  Qmin (Num.ofNat ((height - 2) * (width - 2))
        / (Num.ofNat width * Num.ofNat height) * 100) 99 == cf ->
  let spectrum := replicate (width * height) 0 in
  let p := analyzeFFTPattern spectrum width height in
  let d := detectAIPatterns [mkFFTData spectrum width height] in
  gridPattern p == 0 /\ brightDots p == 0 /\ crossShape p == 0
  /\ checkerboard p == 0 /\ smoothGradient p == sm
  /\ isAI d = false /\ confidence d == cf.
Proof.
  intros Hsm Hcf spectrum p d.
  destruct (analyzeFFTPattern_zero width height) as (Zg & Zb & Zc & Zk & Zs).
  destruct (detectAIPatterns_zero width height) as (Hai & Hconf).
  split; [exact Zg |]. split; [exact Zb |]. split; [exact Zc |].
  split; [exact Zk |]. split; [| split; [exact Hai |]].
  - subst p spectrum. rewrite Zs. exact Hsm.
  - subst d spectrum. rewrite Hconf. exact Hcf.
Qed.

Lemma smooth_256 :
  Num.ofNat ((256 - 2) * (256 - 2)) / (Num.ofNat 256 * Num.ofNat 256)
  == 64516 # 65536.
Proof. vm_compute. reflexivity. Qed.

Lemma confidence_256 :
  Qmin (Num.ofNat ((256 - 2) * (256 - 2)) / (Num.ofNat 256 * Num.ofNat 256)
        * 100) 99
  == 403225 # 4096.
Proof. vm_compute. reflexivity. Qed.

(** C1 (as the code has it).  On the all-zero 256 x 256 spectrum the
    classifier yields [gridPattern], [brightDots], [crossShape] and
    [checkerboard] equal to 0 and [smoothGradient] equal to
    254 * 254 / 65536 (every interior point is counted as smooth); the
    aggregation of that single classification and the decision rule yield
    [isAI = false] with confidence 403225 / 4096, about 98.44. *)
Theorem zero_spectrum_verdict :
  let spectrum := replicate (256 * 256) 0 in
  let p := analyzeFFTPattern spectrum 256 256 in
  let d := detectAIPatterns [mkFFTData spectrum 256 256] in
  gridPattern p == 0 /\ brightDots p == 0 /\ crossShape p == 0
  /\ checkerboard p == 0 /\ smoothGradient p == 64516 # 65536
  /\ isAI d = false /\ confidence d == 403225 # 4096.
Proof.
  exact (zero_verdict_at 256 256 (64516 # 65536) (403225 # 4096)
           smooth_256 confidence_256).
Qed.

Lemma zero_claim_fails_at (width height : nat) (sm cf : Q) :
  Num.ofNat ((height - 2) * (width - 2)) / (Num.ofNat width * Num.ofNat height)
  == sm ->
  Qmin (Num.ofNat ((height - 2) * (width - 2))
        / (Num.ofNat width * Num.ofNat height) * 100) 99 == cf ->
  ~ sm == 0 -> ~ cf == 0 ->
  let spectrum := replicate (width * height) 0 in
  let p := analyzeFFTPattern spectrum width height in
  let d := detectAIPatterns [mkFFTData spectrum width height] in
  ~ (gridPattern p == 0 /\ brightDots p == 0 /\ crossShape p == 0
     /\ checkerboard p == 0 /\ smoothGradient p == 0
     /\ isAI d = false /\ confidence d == 0)
  /\ ~ smoothGradient p == 0
  /\ ~ confidence d == 0.
Proof.
  intros Hsm Hcf Nsm Ncf spectrum p d.
  destruct (zero_verdict_at width height sm cf Hsm Hcf)
    as (_ & _ & _ & _ & Zs & _ & Zc).
  fold spectrum in Zs, Zc. fold p in Zs. fold d in Zc.
  clearbody p d.
  assert (~ smoothGradient p == 0) as Hs.
  { intros H. apply Nsm. now rewrite <- Zs. }
  assert (~ confidence d == 0) as Hc.
  { intros H. apply Ncf. now rewrite <- Zc. }
  split; [| split; [exact Hs | exact Hc]].
  intros (_ & _ & _ & _ & H & _). now apply Hs.
Qed.

(** C1 as stated fails: on the all-zero 256 x 256 spectrum the five
    scores are not all 0 and the confidence is not 0. *)
Lemma zero_spectrum_claim_fails :
  let spectrum := replicate (256 * 256) 0 in
  let p := analyzeFFTPattern spectrum 256 256 in
  let d := detectAIPatterns [mkFFTData spectrum 256 256] in
  ~ (gridPattern p == 0 /\ brightDots p == 0 /\ crossShape p == 0
     /\ checkerboard p == 0 /\ smoothGradient p == 0
     /\ isAI d = false /\ confidence d == 0)
  /\ ~ smoothGradient p == 0
  /\ ~ confidence d == 0.
Proof.
  apply (zero_claim_fails_at 256 256 (64516 # 65536) (403225 # 4096)
           smooth_256 confidence_256); discriminate.
Qed.

End ZeroSpectrum256.

(** ** The decision rule *)

Section Decision.

Import Floats.FloatClass Floats.PrimFloat Floats.SpecFloat Floats.FloatOps.
Import Binary64.
Local Open Scope float_scope.

Example decide_zero : isAI (decide_patterns (mkPatterns 0 0 0 0 0)) = false.
Proof. reflexivity. Qed.

(** C4.  For every aggregate score set, the decision stage computes
    [aiScore] as the weighted sum [gridPattern * 0.3 + brightDots * 0.25
    + crossShape * 0.25 + checkerboard * 0.2], each product and each sum
    rounded to binary64, and [realScore = smoothGradient]; [isAI] is true
    exactly when the computed [aiScore] is strictly greater than
    [realScore], so it is false when the two computed numbers are equal
    and when either is NaN; and [confidence] is
    [min (|aiScore - realScore| * 100, 99)] in the same arithmetic.
    [detectAIPatterns] applies this stage to the average of the per-frame
    scores. *)
Theorem decision_rule_binary64 (p : Patterns) :
  let ai := gridPattern p * 0.3 + brightDots p * 0.25
            + crossShape p * 0.25 + checkerboard p * 0.2 in
  let real := smoothGradient p in
  let d := decide_patterns p in
  aiScore p = ai
  /\ realScore p = real
  /\ isAI d = (real <? ai)
  /\ ((ai =? real) = true -> isAI d = false)
  /\ (is_nan ai = true \/ is_nan real = true -> isAI d = false)
  /\ confidence d = min2 (abs (ai - real) * 100) 99
  /\ patterns d = p
  /\ (forall fftResults,
        detectAIPatterns fftResults
        = decide_patterns (averagePatterns fftResults)).
Proof.
  intros ai real d.
  split; [reflexivity |]. split; [reflexivity |]. split; [reflexivity |].
  split; [| split; [| repeat split; reflexivity]].
  - apply eqb_not_ltb.
  - intros [H | H]; [now apply ltb_nan_r | now apply ltb_nan_l].
Qed.

Lemma decision_rule_binary64_witness :
  isAI (decide_patterns (mkPatterns 1 0 0 0 0.3)) = false
  /\ isAI (decide_patterns (mkPatterns 0 0 0 0 nan)) = false.
Proof.
  split.
  - apply (proj1 (proj2 (proj2 (proj2 (decision_rule_binary64
             (mkPatterns 1 0 0 0 0.3)))))). reflexivity.
  - apply (proj1 (proj2 (proj2 (proj2 (proj2 (decision_rule_binary64
             (mkPatterns 0 0 0 0 nan))))))). right. reflexivity.
Defined.

(** The scores [(1/8, 0, 0, 3/4, 3/16)] are binary64 numbers, and their
    exact weighted sum [0.30 * 1/8 + 0.20 * 3/4] is [3/16], the
    [realScore]: a tie of the exact values.  The sum the source computes
    is [3/16 + 2^-55], so [isAI] is true. *)
Lemma decision_rule_exact_tie_fails :
  let p := tiePatterns in
  let q := Classifier.mkPatterns (1 # 8) 0 0 (3 # 4) (3 # 16) in
  represents (gridPattern p) (Classifier.gridPattern q)
  /\ represents (brightDots p) (Classifier.brightDots q)
  /\ represents (crossShape p) (Classifier.crossShape q)
  /\ represents (checkerboard p) (Classifier.checkerboard q)
  /\ represents (smoothGradient p) (Classifier.smoothGradient q)
  /\ (0.30 * (1 # 8) + 0.25 * 0 + 0.25 * 0 + 0.20 * (3 # 4) == 3 # 16)%Q
  /\ represents (aiScore p) (6755399441055745 # 36028797018963968)
  /\ represents (realScore p) (6755399441055744 # 36028797018963968)
  /\ isAI (decide_patterns p) = true.
Proof.
  repeat split; vm_compute; reflexivity.
Qed.

End Decision.

(** ** The checkerboard score *)

Section Checkerboard.

Import Classifier.
Local Open Scope Q_scope.

Lemma NoDup_list_prod {A B : Type} (l : list A) (l' : list B) :
  NoDup l -> NoDup l' -> NoDup (list_prod l l').
Proof.
  intros Hl Hl'. induction Hl as [|a l Ha Hl IH]; simpl; [constructor |].
  apply NoDup_app. split; [| split].
  - clear -Hl'. induction Hl' as [|b l' Hb Hl' IH]; simpl; constructor.
    + intros Hin. apply list_elem_of_In, in_map_iff in Hin as (y & Heq & Hy).
      inversion Heq; subst y. apply Hb. now apply list_elem_of_In.
    + exact IH.
  - intros [a' b'] Hin Hin'.
    apply list_elem_of_In, in_map_iff in Hin as (y & Heq & _).
    inversion Heq; subst a'.
    apply list_elem_of_In, in_prod_iff in Hin' as [Hin' _].
    apply Ha. now apply list_elem_of_In.
  - exact IH.
Qed.

Lemma exceeds_jump (normalized : list Z) (i j : nat) :
  Spec.exceeds normalized i j = true <-> Spec.jump normalized i j.
Proof.
  unfold Spec.exceeds, Spec.jump. split.
  - destruct (normalized !! i) as [u|]; [| discriminate].
    destruct (normalized !! j) as [v|]; [| discriminate].
    simpl. intros H. exists u, v. repeat split. lia.
  - intros (u & v & -> & -> & H). simpl. lia.
Qed.

Lemma checkerCond_jump (normalized : list Z) (width y x : nat) :
  checkerCond normalized width y x = true
  <-> Spec.jump normalized (y * width + x) (y * width + (x + 1))
      \/ Spec.jump normalized (y * width + x) ((y + 1) * width + x).
Proof.
  unfold checkerCond. rewrite orb_true_iff.
  now rewrite <- !exceeds_jump.
Qed.

(** C5 (as the code has it).  The checkerboard score is the number of
    pixels [(x, y)] with [x < width - 1] and [y < height - 1] whose value
    differs by more than 100 from the value of the right neighbour or from
    the value of the down neighbour, divided by [width * height] and
    clamped to at most 1.  Each such pixel is counted once, also when both
    differences exceed 100. *)
Theorem checkerboard_counts_pixels (magnitude : list Q) (width height : nat) :
  let normalized := Utils.normalize magnitude in
  let marked :=
    List.filter (fun yx => checkerCond normalized width (fst yx) (snd yx))
                (list_prod (seq 0 (height - 1)) (seq 0 (width - 1))) in
  checkerboard (analyzeFFTPattern magnitude width height)
  = Qmin (Num.ofNat (length marked) / (Num.ofNat width * Num.ofNat height)) 1
  /\ NoDup marked
  /\ forall y x : nat,
       In (y, x) marked
       <-> (y < height - 1)%nat /\ (x < width - 1)%nat
           /\ (Spec.jump normalized (y * width + x) (y * width + (x + 1))
               \/ Spec.jump normalized (y * width + x) ((y + 1) * width + x)).
Proof.
  intros normalized marked. split; [| split].
  - unfold analyzeFFTPattern. cbn [checkerboard]. fold normalized.
    unfold checkerCount. now rewrite for_each_rows_count.
  - unfold marked. apply NoDup_ListNoDup, List.NoDup_filter, NoDup_ListNoDup.
    apply NoDup_list_prod; apply NoDup_seq.
  - intros y x. unfold marked.
    rewrite filter_In, in_prod_iff, !in_seq. cbn [fst snd].
    rewrite checkerCond_jump. intuition lia.
Qed.

(** C5 as stated fails on the 2 x 2 spectrum [[0, 255], [255, 0]]: the
    pixel (0, 0) differs by more than 100 from both neighbours, the source
    counts it once and scores 1/4, while the four adjacent pairs of the
    grid (two of them at that pixel) give 1 and the two pairs at that pixel
    alone give 1/2. *)
Lemma checkerboard_pairs_fails :
  let magnitude := [0; 255; 255; 0] in
  let normalized := Utils.normalize magnitude in
  normalized = [0; 255; 255; 0]%Z
  /\ Spec.exceeds normalized 0 1 = true
  /\ Spec.exceeds normalized 0 2 = true
  /\ checkerCount normalized 2 2 = 1%nat
  /\ Spec.checkerPairs normalized 2 2 = 4%nat
  /\ Spec.innerPairs normalized 2 2 = 2%nat
  /\ checkerboard (analyzeFFTPattern magnitude 2 2) == 1 # 4
  /\ ~ checkerboard (analyzeFFTPattern magnitude 2 2)
       == Spec.checkerboard magnitude 2 2
  /\ ~ checkerboard (analyzeFFTPattern magnitude 2 2)
       == Qmin (Num.ofNat (Spec.innerPairs normalized 2 2)
                / (Num.ofNat 2 * Num.ofNat 2)) 1.
Proof.
  cbv zeta. repeat split; try reflexivity; vm_compute; discriminate.
Qed.

End Checkerboard.

(** ** The orchestrator: requested timestamps and reported progress *)

Section Orchestration.

Import Classifier Pipeline.
Local Open Scope Q_scope.

Lemma for_eachM_trace {S : Type} (body : nat -> S -> M S)
    (g : nat -> S -> S) (ev : nat -> list Event) (l : list nat) :
  (forall i s tr, In i l -> body i s tr = (g i s, tr ++ ev i)) ->
  forall s tr,
    for_eachM l body s tr
    = (fold_left (fun s i => g i s) l s, tr ++ flat_map ev l).
Proof.
  induction l as [|i l IH]; intros Hbody s tr; simpl.
  - unfold ret. now rewrite app_nil_r.
  - unfold bind. rewrite Hbody by now left.
    rewrite IH by (intros; apply Hbody; now right).
    now rewrite <- app_assoc.
Qed.

Lemma fold_left_push {A : Type} (g : nat -> A) (l : list nat) (s : list A) :
  fold_left (fun s i => s ++ [g i]) l s = s ++ List.map g l.
Proof.
  revert s. induction l as [|i l IH]; intros s; simpl.
  - now rewrite app_nil_r.
  - rewrite IH. now rewrite <- app_assoc.
Qed.

Lemma callIf_reporting (b : bool) (v : Q) (tr : list Event) :
  callIf (reporting b) v tr = (tt, tr ++ (if b then [Progress v] else [])).
Proof. destruct b; simpl; [reflexivity |]. unfold ret. now rewrite app_nil_r. Qed.

Lemma seeks_app (tr tr' : list Event) : seeks (tr ++ tr') = seeks tr ++ seeks tr'.
Proof. unfold seeks. apply flat_map_app. Qed.

Lemma progressValues_app (tr tr' : list Event) :
  progressValues (tr ++ tr') = progressValues tr ++ progressValues tr'.
Proof. unfold progressValues. apply flat_map_app. Qed.

Context {ImageData : Type}.
Variable computeFFT : ImageData -> FFTData.
Variable this : FFTAnalyzer.
Variable video : @Video ImageData.
Variable b : bool.

Lemma extractFrames_run (numFrames : nat) (tr : list Event) :
  extractFrames this video numFrames (reporting b) tr
  = (List.map (fun i => frameAt video (timeOf video numFrames i) (frameSize this))
              (seq 1 numFrames),
     tr ++ flat_map (extractEvents video b numFrames) (seq 1 numFrames)).
Proof.
  unfold extractFrames.
  rewrite (for_eachM_trace _
             (fun i frames =>
                frames ++ [frameAt video (timeOf video numFrames i) (frameSize this)])
             (extractEvents video b numFrames)).
  - now rewrite fold_left_push.
  - intros i s tr' _. unfold bind, seekAndExtract, emit, ret, bind.
    rewrite callIf_reporting. unfold extractEvents, timeOf.
    now rewrite <- app_assoc.
Qed.

Lemma seeks_extractEvents (numFrames : nat) (l : list nat) :
  seeks (flat_map (extractEvents video b numFrames) l) = List.map (timeOf video numFrames) l.
Proof.
  induction l as [|i l IH]; [reflexivity |].
  cbn [flat_map]. rewrite seeks_app, IH. unfold extractEvents.
  destruct b; reflexivity.
Qed.

Lemma progress_extractEvents (numFrames : nat) (l : list nat) :
  progressValues (flat_map (extractEvents video b numFrames) l)
  = if b then List.map (fun i => Num.ofNat i / Num.ofNat numFrames * 50) l
    else [].
Proof.
  induction l as [|i l IH]; [now destruct b |].
  cbn [flat_map]. rewrite progressValues_app, IH. unfold extractEvents.
  destruct b; reflexivity.
Qed.

Lemma progress_fftEvents (count : nat) (l : list nat) :
  progressValues (flat_map (fftEvents b count) l)
  = if b then List.map (fun i => Num.ofNat (i + 1) / Num.ofNat count * 100) l
    else [].
Proof.
  induction l as [|i l IH]; [now destruct b |].
  cbn [flat_map]. rewrite progressValues_app, IH. unfold fftEvents.
  destruct b; reflexivity.
Qed.

Lemma seeks_fftEvents (count : nat) (l : list nat) :
  seeks (flat_map (fftEvents b count) l) = [].
Proof.
  induction l as [|i l IH]; [reflexivity |].
  cbn [flat_map]. rewrite seeks_app, IH. unfold fftEvents.
  destruct b; reflexivity.
Qed.

(** The trace of a whole run: the events of the acquisition loop, then
    those of the per-frame loop. *)
Lemma analyzeVideo_trace (tr : list Event) :
  snd (analyzeVideo computeFFT this video (reporting b) tr)
  = tr ++ flat_map (extractEvents video b (sampleFrames this))
                   (seq 1 (sampleFrames this))
       ++ flat_map (fftEvents b (sampleFrames this))
                   (seq 0 (sampleFrames this)).
Proof.
  unfold analyzeVideo, bind at 1. rewrite extractFrames_run.
  set (frames := List.map _ (seq 1 (sampleFrames this))).
  assert (length frames = sampleFrames this) as Hlen.
  { unfold frames. now rewrite length_map, length_seq. }
  unfold bind at 1.
  rewrite (for_eachM_trace _
             (fun i fftResults =>
                match frames !! i with
                | Some frame => fftResults ++ [computeFFT frame]
                | None => fftResults
                end)
             (fftEvents b (length frames))).
  - unfold ret. cbn [snd]. now rewrite Hlen, <- app_assoc.
  - intros i s tr' Hin. apply in_seq in Hin.
    destruct (lookup_lt_is_Some_2 frames i) as [frame Hframe]; [lia |].
    rewrite Hframe. unfold bind, ret. rewrite callIf_reporting.
    reflexivity.
Qed.

End Orchestration.

Section Timestamps.

Import Classifier Pipeline.
Local Open Scope Q_scope.

Context {ImageData : Type}.

Example extractFrames_5_10 :
  List.map Qred
    (seeks (snd (run (extractFrames constructor (mkVideo 10 (fun _ _ => tt)) 5
                                    (Some report)))))
  = [5 # 3; 10 # 3; 5; 20 # 3; 25 # 3].
Proof. reflexivity. Qed.

(** C6.  For every frame count [N] and every source, [extractFrames]
    seeks the source exactly [N] times, the [i]-th time ([i = 1 .. N], in
    this order) at the timestamp [D * i / (N + 1)], and collects the frame
    shown there; with [N = 5] and [D = 10] the timestamps are 10/6, 20/6,
    30/6, 40/6, 50/6 in that order. *)
Theorem extractFrames_timestamps (this : FFTAnalyzer)
    (video : @Video ImageData) (N : nat) (b : bool) :
  let out := run (extractFrames this video N (reporting b)) in
  let frames := fst out in
  let requested := seeks (snd out) in
  length frames = N
  /\ length requested = N
  /\ (forall i : nat, (1 <= i <= N)%nat ->
        exists t : Q,
          requested !! (i - 1)%nat = Some t
          /\ t == duration video * Num.ofNat i / (Num.ofNat N + 1)
          /\ frames !! (i - 1)%nat = Some (frameAt video t (frameSize this)))
  /\ (N = 5%nat -> duration video == 10 ->
        Forall2 Qeq requested [10 # 6; 20 # 6; 30 # 6; 40 # 6; 50 # 6]).
Proof.
  intros out frames requested.
  assert (out = (List.map (fun i => frameAt video (timeOf video N i) (frameSize this))
                          (seq 1 N),
                 flat_map (extractEvents video b N) (seq 1 N))) as Hout.
  { unfold out, run. now rewrite extractFrames_run. }
  assert (requested = List.map (timeOf video N) (seq 1 N)) as Hreq.
  { unfold requested. rewrite Hout. apply seeks_extractEvents. }
  assert (frames = List.map (fun i => frameAt video (timeOf video N i) (frameSize this))
                            (seq 1 N)) as Hfr.
  { unfold frames. now rewrite Hout. }
  clearbody out frames requested. subst frames requested.
  split; [now rewrite length_map, length_seq |].
  split; [now rewrite length_map, length_seq |].
  split.
  - intros i Hi. exists (timeOf video N i).
    assert (seq 1 N !! (i - 1)%nat = Some i) as Hseq.
    { rewrite lookup_seq. split; lia. }
    split; [| split].
    + change (List.map (timeOf video N)) with (fmap (M := list) (timeOf video N)).
      now rewrite list_lookup_fmap, Hseq.
    + unfold timeOf. field.
      pose proof (ofNat_nonneg N). lra.
    + change (List.map (fun i0 => frameAt video (timeOf video N i0) (frameSize this)))
        with (fmap (M := list)
                (fun i0 => frameAt video (timeOf video N i0) (frameSize this))).
      now rewrite list_lookup_fmap, Hseq.
  - intros -> HD. cbn [seq List.map]. unfold timeOf.
    repeat constructor; rewrite HD; reflexivity.
Qed.

End Timestamps.

Lemma extractFrames_timestamps_witness :
  Forall2 Qeq
    (Pipeline.seeks
       (snd (Pipeline.run
               (Pipeline.extractFrames Pipeline.constructor
                  (Pipeline.mkVideo (20 # 2) (fun _ _ => tt))
                  5 (Pipeline.reporting true)))))
    [10 # 6; 20 # 6; 30 # 6; 40 # 6; 50 # 6]%Q.
Proof.
  apply (proj2 (proj2 (proj2
           (extractFrames_timestamps Pipeline.constructor
              (Pipeline.mkVideo (20 # 2) (fun _ _ => tt)) 5 true)))).
  - reflexivity.
  - reflexivity.
Defined.

Section Progress.

Import Classifier Pipeline.
Local Open Scope Q_scope.

Context {ImageData : Type}.
Variable computeFFT : ImageData -> FFTData.
Variable video : @Video ImageData.

(** The values reported by a run with [N] sampled frames: [i / N * 50]
    for [i = 1 .. N] while the frames are acquired, then [(i + 1) / N * 100]
    for [i = 0 .. N - 1] while they are transformed. *)
Lemma analyzeVideo_progress (this : FFTAnalyzer) :
  let N := sampleFrames this in
  progressValues (snd (run (analyzeVideo computeFFT this video (Some report))))
  = List.map (fun i => Num.ofNat i / Num.ofNat N * 50) (seq 1 N)
    ++ List.map (fun i => Num.ofNat (i + 1) / Num.ofNat N * 100) (seq 0 N).
Proof.
  intros N. change (Some report) with (reporting true). unfold run.
  rewrite analyzeVideo_trace. cbn [app].
  now rewrite progressValues_app, progress_extractEvents, progress_fftEvents.
Qed.

(** With two sampled frames or more, the first report of the per-frame
    loop, which follows the report 50 of the last acquisition, is
    [100 / N], at most 50. *)
Lemma analyzeVideo_first_fft_report (this : FFTAnalyzer) :
  let N := sampleFrames this in
  (2 <= N)%nat ->
  exists v : Q,
    progressValues
      (snd (run (analyzeVideo computeFFT this video (Some report)))) !! N
    = Some v
    /\ v == 100 / Num.ofNat N /\ v <= 50.
Proof.
  intros N HN. rewrite analyzeVideo_progress. fold N.
  rewrite lookup_app_r by (rewrite length_map, length_seq; lia).
  rewrite length_map, length_seq, Nat.sub_diag.
  destruct N as [|n]; [lia |]. cbn [seq List.map lookup list_lookup].
  eexists. split; [reflexivity |].
  assert (2 <= Num.ofNat (S n)) as Hn.
  { unfold Num.ofNat. change 2 with (inject_Z 2). rewrite <- Zle_Qle. lia. }
  change (Num.ofNat (0 + 1)) with 1.
  split.
  - field. lra.
  - assert (1 / Num.ofNat (S n) <= 1 # 2) as Hhalf
      by (apply Qle_shift_div_r; lra).
    lra.
Qed.

(** C2 (what the source does).  A run of the analyzer as its constructor
    sets it up, with five sampled frames, reports 10, 20, 30, 40, 50 during
    acquisition and then 20, 40, 60, 80, 100 during the transforms: the
    sequence drops from 50 to 20, it is not non-decreasing, and the first
    two transform reports lie below 50. *)
Theorem analyzeVideo_progress_restarts :
  let reported :=
    progressValues
      (snd (run (analyzeVideo computeFFT constructor video (Some report)))) in
  Forall2 Qeq reported [10; 20; 30; 40; 50; 20; 40; 60; 80; 100]
  /\ ~ nondecreasing reported.
Proof.
  intros reported. unfold reported. rewrite analyzeVideo_progress.
  cbn [sampleFrames constructor seq List.map app]. split.
  - repeat constructor.
  - cbn [nondecreasing]. intros (_ & _ & _ & _ & H & _).
    exact (H eq_refl).
Qed.

End Progress.

(** ** [Utils.fftShift] *)

Section ShiftTwice.

Context {A : Type} (zero nan : A).

Lemma for_each_rows_flat {S : Type} (body : nat -> nat -> S -> S)
    (ys xs : list nat) (s : S) :
  for_each ys (fun y s => for_each xs (fun x s => body y x s) s) s
  = fold_left (fun s yx => body (fst yx) (snd yx) s) (list_prod ys xs) s.
Proof.
  unfold for_each. revert s.
  induction ys as [|y ys IH]; intros s; simpl; [reflexivity |].
  rewrite fold_left_app, IH. f_equal.
  clear. revert s. induction xs as [|x xs IH]; intros s; simpl; [reflexivity |].
  apply IH.
Qed.

Lemma scatter_length {P : Type} (dst : P -> nat) (val : P -> A)
    (l : list P) (s : list A) :
  length (Utils.scatter dst val l s) = length s.
Proof.
  unfold Utils.scatter. revert s.
  induction l as [|p l IH]; intros s; simpl; [reflexivity |].
  now rewrite IH, length_insert.
Qed.

Lemma scatter_lookup_other {P : Type} (dst : P -> nat) (val : P -> A)
    (l : list P) (s : list A) (k : nat) :
  k ∉ dst <$> l -> Utils.scatter dst val l s !! k = s !! k.
Proof.
  unfold Utils.scatter. revert s.
  induction l as [|p l IH]; intros s Hk; simpl; [reflexivity |].
  rewrite fmap_cons, not_elem_of_cons in Hk. destruct Hk as [Hne Hk].
  rewrite IH by exact Hk. now apply list_lookup_insert_ne.
Qed.

Lemma scatter_lookup {P : Type} (dst : P -> nat) (val : P -> A)
    (l : list P) (s : list A) (p : P) :
  NoDup (dst <$> l) -> p ∈ l -> dst p < length s ->
  Utils.scatter dst val l s !! dst p = Some (val p).
Proof.
  revert s. induction l as [|q l IH]; intros s Hnd Hin Hlt.
  - now apply elem_of_nil in Hin.
  - rewrite fmap_cons in Hnd. apply NoDup_cons in Hnd as [Hq Hnd].
    apply elem_of_cons in Hin as [-> | Hin].
    + change (Utils.scatter dst val (q :: l) s)
        with (Utils.scatter dst val l (<[dst q := val q]> s)).
      rewrite scatter_lookup_other by exact Hq.
      now apply list_lookup_insert_eq.
    + change (Utils.scatter dst val (q :: l) s)
        with (Utils.scatter dst val l (<[dst q := val q]> s)).
      apply IH; [exact Hnd | exact Hin | now rewrite length_insert].
Qed.

Lemma shift_twice (w x : nat) :
  Nat.Even w -> x < w -> ((x + w / 2) mod w + w / 2) mod w = x.
Proof.
  intros [k ->] Hx.
  replace (2 * k / 2) with k by (symmetry; rewrite Nat.mul_comm; apply Nat.div_mul; lia).
  destruct (lt_dec x k) as [Hlt | Hge].
  - rewrite (Nat.mod_small (x + k)) by lia.
    symmetry. apply (Nat.mod_unique _ _ 1); lia.
  - replace ((x + k) mod (2 * k)) with (x - k).
    + replace (x - k + k) with x by lia. apply Nat.mod_small. lia.
    + apply (Nat.mod_unique _ _ 1); lia.
Qed.

Lemma rowcol_inj (w a b a' b' : nat) :
  b < w -> b' < w -> a * w + b = a' * w + b' -> a = a' /\ b = b'.
Proof.
  intros Hb Hb' Heq.
  assert (a = a') as ->; [| lia].
  destruct (lt_eq_lt_dec a a') as [[Hlt | Heq'] | Hgt]; [| exact Heq' |].
  - pose proof (Nat.mul_le_mono_r (a + 1) a' w ltac:(lia)). lia.
  - pose proof (Nat.mul_le_mono_r (a' + 1) a w ltac:(lia)). lia.
Qed.

Lemma shift_lt (w x : nat) : 0 < w -> (x + w / 2) mod w < w.
Proof. intros Hw. apply Nat.mod_upper_bound. lia. Qed.

End ShiftTwice.

Section ShiftInvolution.

Context {A : Type} (zero nan : A).
Variables width height : nat.
Hypothesis width_even : Nat.Even width.
Hypothesis height_even : Nat.Even height.

Local Abbreviation shiftIndex := (Utils.shiftIndex width height).
Local Abbreviation grid := (Utils.grid width height).

Lemma fftShift_scatter (data : list A) :
  Utils.fftShift zero nan data width height
  = Utils.scatter shiftIndex
      (fun yx => Utils.read nan data (fst yx * width + snd yx))
      grid (replicate (length data) zero).
Proof.
  unfold Utils.fftShift. now rewrite for_each_rows_flat.
Qed.

Lemma in_grid (y x : nat) : (y, x) ∈ grid <-> y < height /\ x < width.
Proof.
  unfold Utils.grid. rewrite list_elem_of_In, in_prod_iff, !in_seq. lia.
Qed.

Lemma shiftIndex_lt (y x : nat) :
  y < height -> x < width -> shiftIndex (y, x) < width * height.
Proof.
  intros Hy Hx. unfold Utils.shiftIndex. cbn [fst snd].
  pose proof (shift_lt height y ltac:(lia)).
  pose proof (shift_lt width x ltac:(lia)). nia.
Qed.

Lemma shiftIndex_inj (p q : nat * nat) :
  p ∈ grid -> q ∈ grid -> shiftIndex p = shiftIndex q -> p = q.
Proof.
  destruct p as [y x], q as [y' x']. rewrite !in_grid.
  intros [Hy Hx] [Hy' Hx'] Heq. unfold Utils.shiftIndex in Heq.
  cbn [fst snd] in Heq.
  pose proof (shift_lt width x ltac:(lia)) as Bx.
  pose proof (shift_lt width x' ltac:(lia)) as Bx'.
  apply rowcol_inj in Heq as [Ey Ex]; [| exact Bx | exact Bx'].
  f_equal.
  - rewrite <- (shift_twice height y), <- (shift_twice height y') by assumption.
    now rewrite Ey.
  - rewrite <- (shift_twice width x), <- (shift_twice width x') by assumption.
    now rewrite Ex.
Qed.

Lemma grid_NoDup : NoDup (shiftIndex <$> grid).
Proof.
  apply NoDup_fmap_2_strong.
  - intros p q Hp Hq. now apply shiftIndex_inj.
  - apply NoDup_list_prod; apply NoDup_seq.
Qed.

Lemma fftShift_length (data : list A) :
  length (Utils.fftShift zero nan data width height) = length data.
Proof. now rewrite fftShift_scatter, scatter_length, length_replicate. Qed.

(** Where the element at [(x, y)] goes. *)
Lemma fftShift_lookup (data : list A) (y x : nat) :
  length data = width * height -> y < height -> x < width ->
  Utils.fftShift zero nan data width height !! shiftIndex (y, x)
  = data !! (y * width + x).
Proof.
  intros Hlen Hy Hx. rewrite fftShift_scatter.
  rewrite (scatter_lookup shiftIndex _ grid _ (y, x)).
  - cbn [fst snd]. unfold Utils.read.
    destruct (lookup_lt_is_Some_2 data (y * width + x)) as [v ->];
      [nia | reflexivity].
  - apply grid_NoDup.
  - now apply in_grid.
  - rewrite length_replicate, Hlen. now apply shiftIndex_lt.
Qed.

Lemma fftShift_fftShift (data : list A) :
  length data = width * height ->
  Utils.fftShift zero nan (Utils.fftShift zero nan data width height) width height
  = data.
Proof.
  intros Hlen. apply list_eq. intros k.
  destruct (le_lt_dec (width * height) k) as [Hge | Hlt].
  - rewrite !lookup_ge_None_2; [reflexivity | lia |].
    rewrite !fftShift_length. lia.
  - assert (0 < width) as Hw by nia.
    assert (0 < height) as Hh by nia.
    pose proof (Nat.div_mod_eq k width) as Hk.
    pose proof (Nat.mod_upper_bound k width ltac:(lia)) as Hx'.
    assert (k / width < height) as Hy'.
    { apply Nat.Div0.div_lt_upper_bound. lia. }
    set (x' := k mod width) in *. set (y' := k / width) in *.
    set (x := (x' + width / 2) mod width).
    set (y := (y' + height / 2) mod height).
    assert (x < width) as Hx by now apply shift_lt.
    assert (y < height) as Hy by now apply shift_lt.
    assert (shiftIndex (y, x) = k) as Hdst.
    { unfold Utils.shiftIndex, x, y. cbn [fst snd].
      rewrite !shift_twice by assumption. lia. }
    rewrite <- Hdst at 1.
    rewrite fftShift_lookup by (rewrite ?fftShift_length; assumption).
    change (y * width + x) with (shiftIndex (y', x')).
    rewrite fftShift_lookup by assumption.
    f_equal. lia.
Qed.

End ShiftInvolution.

(** C7.  For every array of even width [w] and even height [h] (and of
    length [w * h]), applying [fftShift] twice returns the original array;
    one application moves the element at [(x, y)] to
    [((x + w/2) mod w, (y + h/2) mod h)]. *)
Theorem fftShift_involution {A : Type} (zero nan : A) (X : list A) (w h : nat) :
  Nat.Even w -> Nat.Even h -> length X = (w * h)%nat ->
  Utils.fftShift zero nan (Utils.fftShift zero nan X w h) w h = X
  /\ forall x y : nat, (x < w)%nat -> (y < h)%nat ->
       Utils.fftShift zero nan X w h
         !! (((y + h / 2) mod h) * w + (x + w / 2) mod w)%nat
       = X !! (y * w + x)%nat.
Proof.
  intros Hw Hh Hlen. split.
  - now apply fftShift_fftShift.
  - intros x y Hx Hy.
    now apply (fftShift_lookup zero nan w h Hw Hh X y x).
Qed.

Lemma fftShift_involution_witness :
  Utils.fftShift 0%Z (-1)%Z
    (Utils.fftShift 0%Z (-1)%Z [1; 2; 3; 4; 5; 6; 7; 8]%Z 4 2) 4 2
  = [1; 2; 3; 4; 5; 6; 7; 8]%Z.
Proof.
  apply (fftShift_involution 0%Z (-1)%Z [1; 2; 3; 4; 5; 6; 7; 8]%Z 4 2).
  - exists 2%nat. reflexivity.
  - exists 1%nat. reflexivity.
  - reflexivity.
Defined.

Example fftShift_4x2 :
  Utils.fftShift 0%Z (-1)%Z [1; 2; 3; 4; 5; 6; 7; 8]%Z 4 2
  = [7; 8; 5; 6; 3; 4; 1; 2]%Z.
Proof. reflexivity. Qed.

(** ** The 1D transform: no length check *)

Section NoLengthCheck.

Import FFT.
Local Open Scope Z_scope.

Lemma no_throw_bind {A B : Type} (c : outcome A) (k : A -> outcome B) :
  no_throw c -> (forall a, no_throw (k a)) -> no_throw (FFT.bind c k).
Proof.
  intros Hc Hk e. destruct c as [a | e' | |]; simpl; try discriminate.
  - apply Hk.
  - now destruct (Hc e').
Qed.

Lemma no_throw_ret {A : Type} (a : A) : no_throw (Ret a).
Proof. intros e. discriminate. Qed.

Lemma no_throw_for_eachO {S : Type} (body : nat -> S -> outcome S)
    (l : list nat) (s : S) :
  (forall i s', no_throw (body i s')) -> no_throw (for_eachO l body s).
Proof.
  intros Hbody. revert s. induction l as [|i l IH]; intros s; simpl.
  - apply no_throw_ret.
  - apply no_throw_bind; [apply Hbody | exact IH].
Qed.

Lemma no_throw_get (a : list R) (i : Z) : no_throw (get a i).
Proof.
  intros e. unfold get. destruct (i <? 0); [discriminate |].
  destruct (a !! Z.to_nat i); discriminate.
Qed.

Lemma no_throw_swap (a : list R) (i j : Z) : no_throw (swap a i j).
Proof.
  unfold swap. apply no_throw_bind; [apply no_throw_get | intros aj].
  apply no_throw_bind; [apply no_throw_get | intros ai]. apply no_throw_ret.
Qed.

Lemma no_throw_while_k (fuel : nat) (j k : Z) : no_throw (while_k fuel j k).
Proof.
  revert j k. induction fuel as [|fuel IH]; intros j k; simpl.
  - intros e. discriminate.
  - destruct (k <=? j); [apply IH | apply no_throw_ret].
Qed.

Lemma no_throw_bitReversal (fuel : nat) (n : Z) (real imag : list R) :
  no_throw (bitReversal fuel n real imag).
Proof.
  unfold bitReversal. apply no_throw_for_eachO.
  intros i [[re im] j]. unfold bitReversalStep.
  apply no_throw_bind.
  - destruct (Z.of_nat i <? j); [| apply no_throw_ret].
    apply no_throw_bind; [apply no_throw_swap | intros re'].
    apply no_throw_bind; [apply no_throw_swap | intros im'].
    apply no_throw_ret.
  - intros [re' im']. apply no_throw_bind; [apply no_throw_while_k |].
    intros [j' k']. apply no_throw_ret.
Qed.

Lemma no_throw_butterfly (i halfLen : Z) (angle : R) (j : nat)
    (st : list R * list R * R * R) :
  no_throw (butterfly i halfLen angle j st).
Proof.
  destruct st as [[[re im] wr] wi]. unfold butterfly.
  repeat (apply no_throw_bind; [apply no_throw_get | intros ?]).
  apply no_throw_ret.
Qed.

Lemma no_throw_blocks (fuel : nat) (n len halfLen : Z) (angle : R) (i : Z)
    (st : list R * list R) :
  no_throw (blocks fuel n len halfLen angle i st).
Proof.
  revert i st. induction fuel as [|fuel IH]; intros i [re im]; simpl.
  - intros e. discriminate.
  - destruct (i <? n); [| apply no_throw_ret].
    apply no_throw_bind.
    + apply no_throw_for_eachO. intros. apply no_throw_butterfly.
    + intros [[[re' im'] wr] wi]. apply IH.
Qed.

Lemma no_throw_stages (fuel fuel_blocks : nat) (n len : Z)
    (st : list R * list R) :
  no_throw (stages fuel fuel_blocks n len st).
Proof.
  revert len st. induction fuel as [|fuel IH]; intros len st; simpl.
  - intros e. discriminate.
  - destruct (len <=? n); [| apply no_throw_ret].
    apply no_throw_bind; [apply no_throw_blocks | intros st'; apply IH].
Qed.

Lemma no_throw_fft1D (fuel : nat) (real imag : list R) :
  no_throw (fft1D fuel real imag).
Proof.
  unfold fft1D. destruct (Z.of_nat (length real) <=? 1); [apply no_throw_ret |].
  apply no_throw_bind; [apply no_throw_bitReversal |].
  intros [[re im] j]. apply no_throw_stages.
Qed.

(** With [k = 0] the inner [while] loop of the bit reversal never exits. *)
Lemma while_k_zero (fuel : nat) (j : Z) :
  0 <= j -> while_k fuel j 0 = OutOfFuel.
Proof.
  revert j. induction fuel as [|fuel IH]; intros j Hj; simpl; [reflexivity |].
  destruct (0 <=? j) eqn:E; [| lia].
  rewrite Z.sub_0_r. change (sar 0 1) with 0. now apply IH.
Qed.

(** On a real part of length 3 the transform does not terminate. *)
Lemma fft1D_length_3 (fuel : nat) (a b c : R) (imag : list R) :
  fft1D fuel [a; b; c] imag = OutOfFuel.
Proof.
  assert (forall re im : list R,
            bitReversalStep fuel 3 0 (re, im, 0)
            = match fuel with O => OutOfFuel | S _ => Ret (re, im, 1) end)
    as Step0.
  { intros re im. unfold bitReversalStep.
    change (Z.of_nat 0 <? 0) with false. cbv iota. cbn [FFT.bind].
    change (sar 3 1) with 1. destruct fuel; reflexivity. }
  assert (forall re im : list R,
            bitReversalStep fuel 3 1 (re, im, 1) = OutOfFuel) as Step1.
  { intros re im. unfold bitReversalStep.
    change (Z.of_nat 1 <? 1) with false. cbv iota. cbn [FFT.bind].
    change (sar 3 1) with 1. destruct fuel as [|fuel']; [reflexivity |].
    cbn [while_k]. change (1 <=? 1) with true. cbv iota.
    change (sar 1 1) with 0. change (1 - 1) with 0.
    now rewrite while_k_zero. }
  unfold fft1D. change (Z.of_nat (length [a; b; c])) with 3.
  change (3 <=? 1) with false. cbv iota. unfold bitReversal.
  change (Z.to_nat (3 - 1)) with 2%nat. cbn [seq for_eachO].
  rewrite Step0. destruct fuel as [|fuel']; [reflexivity |].
  cbn [FFT.bind]. now rewrite Step1.
Qed.

End NoLengthCheck.

(** C3 (as the code has it).  [fft1D] has no precondition check and never
    fails with [InvalidLength], or with any other error: on arrays of
    length 0 or 1 it returns at once and leaves both arrays as they are; on
    arrays of length 3, which is not a power of two, it does not reject the
    input either, and its bit-reversal loop does not terminate. *)
Theorem fft1D_no_length_check (fuel : nat) (real imag : list R) :
  (forall e : FFT.ErrorKind, FFT.fft1D fuel real imag <> FFT.Throw e)
  /\ ((length real <= 1)%nat -> FFT.fft1D fuel real imag = FFT.Ret (real, imag))
  /\ (length real = 3%nat -> FFT.fft1D fuel real imag = FFT.OutOfFuel).
Proof.
  split; [apply no_throw_fft1D | split].
  - intros Hlen. unfold FFT.fft1D.
    destruct (Z.of_nat (length real) <=? 1)%Z eqn:E; [reflexivity | lia].
  - intros Hre.
    destruct real as [|a [|b [|c [|? ?]]]]; try discriminate.
    apply fft1D_length_3.
Qed.

Lemma fft1D_no_length_check_witness :
  FFT.fft1D 7 [] [] = FFT.Ret ([], [])
  /\ FFT.fft1D 7 [1; 2; 3]%R [0; 0; 0]%R = FFT.OutOfFuel.
Proof.
  split.
  - apply (proj1 (proj2 (fft1D_no_length_check 7 [] []))). simpl. lia.
  - apply (proj2 (proj2 (fft1D_no_length_check 7 [1; 2; 3]%R [0; 0; 0]%R))).
    reflexivity.
Defined.

(** C3 as stated fails: the empty arrays (length 0) are not rejected, the
    call returns them; arrays of length 3 are not rejected either. *)
Lemma fft1D_accepts_length_0 :
  (forall fuel : nat, FFT.fft1D fuel [] [] = FFT.Ret ([], []))
  /\ ~ (exists fuel : nat, FFT.fft1D fuel [] [] = FFT.Throw FFT.InvalidLength)
  /\ ~ (exists fuel : nat,
          FFT.fft1D fuel [1; 2; 3]%R [0; 0; 0]%R = FFT.Throw FFT.InvalidLength).
Proof.
  split; [reflexivity | split].
  - intros [fuel H]. discriminate H.
  - intros [fuel H]. rewrite fft1D_length_3 in H. discriminate H.
Qed.

(** ** The 1D transform: 32-bit shifts and the mirrored counter *)

Section MirroredCounter.

Import FFT Bits.
Local Open Scope Z_scope.

Lemma toInt32_small (z : Z) : - 2 ^ 31 <= z < 2 ^ 31 -> toInt32 z = z.
Proof.
  intros Hz. unfold toInt32. rewrite Z.mod_small; lia.
Qed.

Lemma sar_small (z : Z) : 0 <= z < 2 ^ 31 -> sar z 1 = z / 2.
Proof.
  intros Hz. unfold sar. rewrite toInt32_small by lia.
  now rewrite Z.shiftr_div_pow2 by lia.
Qed.

Lemma shl_small (z : Z) : 0 <= z < 2 ^ 30 -> shl z 1 = 2 * z.
Proof.
  intros Hz. unfold shl. rewrite (toInt32_small z) by lia.
  rewrite Z.shiftl_mul_pow2 by lia. rewrite toInt32_small; lia.
Qed.

Lemma pow2_S (s : nat) : pow2 (S s) = 2 * pow2 s.
Proof.
  unfold pow2. rewrite Nat2Z.inj_succ, Z.pow_succ_r; lia.
Qed.

Lemma pow2_pos (s : nat) : 0 < pow2 s.
Proof. unfold pow2. apply Z.pow_pos_nonneg; lia. Qed.

Lemma pow2_le (s t : nat) : (s <= t)%nat -> pow2 s <= pow2 t.
Proof. intros H. unfold pow2. apply Z.pow_le_mono_r; lia. Qed.

Lemma pow2_lt (s t : nat) : (s < t)%nat -> pow2 s < pow2 t.
Proof. intros H. unfold pow2. apply Z.pow_lt_mono_r; lia. Qed.

Lemma pow2_nat (s : nat) : Z.of_nat (2 ^ s) = pow2 s.
Proof. unfold pow2. now rewrite Nat2Z.inj_pow. Qed.

Lemma sar_pow2 (s : nat) : (s < 30)%nat -> sar (pow2 (S s)) 1 = pow2 s.
Proof.
  intros Hs. rewrite sar_small.
  - rewrite pow2_S. rewrite Z.mul_comm. apply Z.div_mul. lia.
  - pose proof (pow2_pos (S s)). pose proof (pow2_lt (S s) 31 ltac:(lia)).
    change (pow2 31) with (2 ^ 31) in *. lia.
Qed.

Lemma shl_pow2 (s : nat) : (s < 30)%nat -> shl (pow2 s) 1 = pow2 (S s).
Proof.
  intros Hs. rewrite shl_small.
  - now rewrite pow2_S.
  - pose proof (pow2_pos s). pose proof (pow2_lt s 30 Hs).
    change (pow2 30) with (2 ^ 30) in *. lia.
Qed.

Lemma val_msb_bound (bs : list bool) : 0 <= val_msb bs < pow2 (length bs).
Proof.
  induction bs as [|b bs IH]; simpl val_msb; cbn [length].
  - unfold pow2. simpl. lia.
  - rewrite pow2_S. pose proof (pow2_pos (length bs)). destruct b; lia.
Qed.

Lemma val_lsb_bound (bs : list bool) : 0 <= val_lsb bs < pow2 (length bs).
Proof.
  induction bs as [|b bs IH]; simpl val_lsb; cbn [length].
  - unfold pow2. simpl. lia.
  - rewrite pow2_S. destruct b; lia.
Qed.

Lemma val_lsb_zero (bs : list bool) : val_lsb bs = 0 -> val_msb bs = 0.
Proof.
  induction bs as [|b bs IH]; simpl; [reflexivity |].
  pose proof (val_lsb_bound bs) as Hb. destruct b; intros Hz; [lia |].
  rewrite IH; lia.
Qed.

Lemma inc_length (bs r : list bool) : inc bs = Some r -> length r = length bs.
Proof.
  revert r. induction bs as [|b bs IH]; intros r; simpl; [discriminate |].
  destruct b.
  - destruct (inc bs) as [r'|]; [| discriminate].
    intros [= <-]. simpl. now rewrite (IH r').
  - intros [= <-]. reflexivity.
Qed.

Lemma inc_lsb (bs r : list bool) : inc bs = Some r -> val_lsb r = val_lsb bs + 1.
Proof.
  revert r. induction bs as [|b bs IH]; intros r; simpl; [discriminate |].
  destruct b.
  - destruct (inc bs) as [r'|]; [| discriminate].
    intros [= <-]. simpl. rewrite (IH r') by reflexivity. lia.
  - intros [= <-]. simpl. lia.
Qed.

Lemma inc_none (bs : list bool) :
  inc bs = None -> val_lsb bs = pow2 (length bs) - 1.
Proof.
  induction bs as [|b bs IH]; simpl; intros H.
  - reflexivity.
  - destruct b; [| discriminate].
    destruct (inc bs); [discriminate |].
    rewrite pow2_S, IH by reflexivity. lia.
Qed.

(** The inner [while] loop followed by [j += k] mirrors the increment. *)
Lemma while_k_inc (bs r : list bool) (fuel : nat) :
  inc bs = Some r -> (length bs <= 31)%nat -> (length bs < fuel)%nat ->
  exists j' k' : Z,
    while_k fuel (val_msb bs) (pow2 (length bs - 1)) = Ret (j', k')
    /\ j' + k' = val_msb r.
Proof.
  revert r fuel. induction bs as [|b bs IH]; intros r fuel Hinc Hlen Hfuel;
    [discriminate |].
  destruct fuel as [|fuel]; [cbn [length] in Hfuel; lia |].
  cbn [length] in *. replace (S (length bs) - 1)%nat with (length bs) by lia.
  pose proof (val_msb_bound bs) as Hb.
  simpl in Hinc. cbn [while_k val_msb]. destruct b.
  - destruct (inc bs) as [r'|] eqn:E; [| discriminate].
    injection Hinc as <-.
    destruct (pow2 (length bs) <=? pow2 (length bs) + val_msb bs) eqn:E';
      [| lia].
    replace (pow2 (length bs) + val_msb bs - pow2 (length bs))
      with (val_msb bs) by lia.
    destruct bs as [|b' bs']; [discriminate |].
    cbn [length] in *. rewrite sar_pow2 by lia.
    destruct (IH r' fuel eq_refl ltac:(lia) ltac:(lia)) as (j' & k' & Hw & Hjk).
    replace (S (length bs') - 1)%nat with (length bs') in Hw by lia.
    exists j', k'. split; [exact Hw |]. cbn [val_msb]. lia.
  - injection Hinc as <-.
    destruct (pow2 (length bs) <=? 0 + val_msb bs) eqn:E'; [lia |].
    eexists _, _. split; [reflexivity |]. cbn [val_msb]. lia.
Qed.

End MirroredCounter.

(** ** The 1D transform: arrays of zeros and ones *)

Section StepArrays.

Import FFT Bits.
Local Open Scope Z_scope.

Lemma for_eachO_seq_inv {S : Type} (Inv : nat -> S -> Prop)
    (body : nat -> S -> outcome S) (len start : nat) (s : S) :
  Inv start s ->
  (forall i s, (start <= i < start + len)%nat -> Inv i s ->
     exists s', body i s = Ret s' /\ Inv (Datatypes.S i) s') ->
  exists s', for_eachO (seq start len) body s = Ret s' /\ Inv (start + len)%nat s'.
Proof.
  revert start s. induction len as [|len IH]; intros start s H0 Hstep.
  - exists s. split; [reflexivity |]. now rewrite Nat.add_0_r.
  - destruct (Hstep start s ltac:(lia) H0) as (s1 & Hbody & H1).
    destruct (IH (Datatypes.S start) s1 H1) as (s' & Hrun & Hend).
    { intros i s2 Hi. apply Hstep. lia. }
    exists s'. split.
    + cbn [seq for_eachO]. rewrite Hbody. exact Hrun.
    + now replace (start + Datatypes.S len)%nat
        with (Datatypes.S start + len)%nat by lia.
Qed.

Variable N : nat.

Lemma step_length (c : nat) : (c <= N)%nat -> length (step_list N c) = N.
Proof.
  intros Hc. unfold step_list. rewrite length_app, !length_replicate. lia.
Qed.

Lemma step_lookup_lo (c i : nat) :
  (i < c)%nat -> step_list N c !! i = Some 1%R.
Proof.
  intros Hi. unfold step_list.
  rewrite lookup_app_l by (rewrite length_replicate; lia).
  now apply lookup_replicate_2.
Qed.

Lemma step_lookup_hi (c i : nat) :
  (c <= i < N)%nat -> step_list N c !! i = Some 0%R.
Proof.
  intros Hi. unfold step_list.
  rewrite lookup_app_r by (rewrite length_replicate; lia).
  rewrite length_replicate. apply lookup_replicate_2. lia.
Qed.

Lemma get_step_lo (c : nat) (z : Z) :
  0 <= z < Z.of_nat c -> get (step_list N c) z = Ret 1%R.
Proof.
  intros Hz. unfold get. destruct (z <? 0) eqn:E; [lia |].
  now rewrite step_lookup_lo by lia.
Qed.

Lemma get_step_hi (c : nat) (z : Z) :
  Z.of_nat c <= z < Z.of_nat N -> get (step_list N c) z = Ret 0%R.
Proof.
  intros Hz. unfold get. destruct (z <? 0) eqn:E; [lia |].
  now rewrite step_lookup_hi by lia.
Qed.

Lemma get_zeros (z : Z) : 0 <= z < Z.of_nat N -> get (zeros N) z = Ret 0%R.
Proof.
  intros Hz. unfold get, zeros. destruct (z <? 0) eqn:E; [lia |].
  now rewrite lookup_replicate_2 by lia.
Qed.

Lemma set_zeros (z : Z) : set (zeros N) z 0%R = zeros N.
Proof.
  unfold set, zeros. destruct (z <? 0); [reflexivity |].
  destruct (le_lt_dec N (Z.to_nat z)) as [Hge | Hlt].
  - apply list_insert_ge. now rewrite length_replicate.
  - apply list_insert_id. now apply lookup_replicate_2.
Qed.

Lemma set_step_hi (c : nat) (z : Z) :
  (c <= N)%nat -> Z.of_nat c <= z -> set (step_list N c) z 0%R = step_list N c.
Proof.
  intros Hc Hz. unfold set. destruct (z <? 0); [reflexivity |].
  destruct (le_lt_dec N (Z.to_nat z)) as [Hge | Hlt].
  - apply list_insert_ge. now rewrite step_length.
  - apply list_insert_id. apply step_lookup_hi. lia.
Qed.

Lemma set_step_lo (c : nat) (z : Z) :
  0 <= z < Z.of_nat c -> set (step_list N c) z 1%R = step_list N c.
Proof.
  intros Hz. unfold set. destruct (z <? 0) eqn:E; [lia |].
  apply list_insert_id. apply step_lookup_lo. lia.
Qed.

Lemma set_step_next (c : nat) :
  (c < N)%nat ->
  set (step_list N c) (Z.of_nat c) 1%R = step_list N (Datatypes.S c).
Proof.
  intros Hc. unfold set. destruct (Z.of_nat c <? 0) eqn:E; [lia |].
  rewrite Nat2Z.id. apply list_eq. intros i.
  destruct (Nat.eq_dec i c) as [-> | Hne].
  - rewrite list_lookup_insert_eq by (rewrite step_length; lia).
    now rewrite step_lookup_lo by lia.
  - rewrite list_lookup_insert_ne by congruence.
    destruct (le_lt_dec N i) as [Hge | Hlt].
    + rewrite !lookup_ge_None_2; [reflexivity | |]; rewrite step_length; lia.
    + destruct (le_lt_dec c i) as [Hci | Hic].
      * now rewrite !step_lookup_hi by lia.
      * now rewrite !step_lookup_lo by lia.
Qed.

Lemma impulse_step : (1 <= N)%nat -> impulse N = step_list N 1.
Proof.
  intros HN. destruct N as [|n']; [lia |].
  unfold impulse, step_list. simpl. now rewrite Nat.sub_0_r.
Qed.

Lemma ones_step : replicate N 1%R = step_list N N.
Proof.
  unfold step_list. rewrite Nat.sub_diag. simpl. now rewrite app_nil_r.
Qed.

End StepArrays.

(** ** The 1D transform: the bit reversal leaves the impulse in place *)

Section BitReversalImpulse.

Import FFT Bits.
Local Open Scope Z_scope.

Variable m : nat.
Hypothesis m_range : (1 <= m <= 30)%nat.

Let N : nat := (2 ^ m)%nat.

Lemma N_pow2 : Z.of_nat N = pow2 m.
Proof. apply pow2_nat. Qed.

Lemma N_ge_2 : 2 <= Z.of_nat N.
Proof.
  rewrite N_pow2. pose proof (pow2_le 1 m ltac:(lia)) as H.
  change (pow2 1) with 2 in H. exact H.
Qed.

Lemma bitReversalStep_impulse (fuel i : nat) (st : list R * list R * Z) :
  (m < fuel)%nat -> (i < N - 1)%nat -> mirrored m i st ->
  exists st', bitReversalStep fuel (pow2 m) i st = Ret st'
              /\ mirrored m (S i) st'.
Proof.
  intros Hfuel Hi. destruct st as [[real imag] j].
  intros (-> & -> & bs & Hlen & Hlsb & Hmsb). fold N.
  pose proof N_pow2 as HN. pose proof N_ge_2 as HN2.
  pose proof (val_msb_bound bs) as Hjb. rewrite Hlen, Hmsb, <- HN in Hjb.
  unfold bitReversalStep.
  assert ((if Z.of_nat i <? j
           then let* real' := swap (step_list N 1) (Z.of_nat i) j in
                let* imag' := swap (zeros N) (Z.of_nat i) j in
                Ret (real', imag')
           else Ret (step_list N 1, zeros N))
          = Ret (step_list N 1, zeros N)) as ->.
  { destruct (Z.of_nat i <? j) eqn:E; [| reflexivity].
    apply Z.ltb_lt in E.
    assert (1 <= Z.of_nat i) as Hi1.
    { destruct i as [|i']; [| lia].
      rewrite (val_lsb_zero bs Hlsb) in Hmsb. lia. }
    unfold swap.
    rewrite (get_step_hi N 1 j), (get_step_hi N 1 (Z.of_nat i)) by lia.
    cbn [FFT.bind]. rewrite !set_step_hi by lia.
    rewrite (get_zeros N j), (get_zeros N (Z.of_nat i)) by lia.
    cbn [FFT.bind]. now rewrite !set_zeros. }
  cbn [FFT.bind].
  destruct (inc bs) as [r|] eqn:Einc.
  - destruct (while_k_inc bs r fuel Einc ltac:(lia) ltac:(lia))
      as (j' & k' & Hw & Hjk).
    rewrite Hlen, Hmsb in Hw.
    assert (sar (pow2 m) 1 = pow2 (m - 1)) as ->.
    { rewrite <- (sar_pow2 (m - 1)) by lia. do 2 f_equal. lia. }
    rewrite Hw. cbn [FFT.bind].
    eexists. split; [reflexivity |].
    repeat split. exists r.
    rewrite (inc_length bs r Einc), (inc_lsb bs r Einc), Hlsb.
    repeat split; lia.
  - apply inc_none in Einc. rewrite Hlen, <- HN in Einc. lia.
Qed.

Lemma bitReversal_impulse (fuel : nat) :
  (m < fuel)%nat ->
  exists j : Z,
    bitReversal fuel (pow2 m) (impulse N) (zeros N)
    = Ret (step_list N 1, zeros N, j).
Proof.
  intros Hfuel. pose proof N_pow2 as HN. pose proof N_ge_2 as HN2.
  unfold bitReversal. rewrite impulse_step by lia.
  destruct (for_eachO_seq_inv (mirrored m) (bitReversalStep fuel (pow2 m))
              (Z.to_nat (pow2 m - 1)) 0 (step_list N 1, zeros N, 0))
    as ([[real imag] j] & Hrun & Hreal & Himag & _).
  - repeat split. exists (replicate m false). rewrite length_replicate.
    repeat split.
    + clear. induction m as [|k IH]; simpl; [reflexivity | lia].
    + clear. induction m as [|k IH]; simpl; [reflexivity | lia].
  - intros i st Hi Hinv. apply bitReversalStep_impulse; [exact Hfuel | lia |].
    exact Hinv.
  - exists j. rewrite Hrun. now subst.
Qed.

End BitReversalImpulse.

(** ** The 1D transform: the stages spread the impulse *)

Section ButterflyImpulse.

Import FFT Bits.
Local Open Scope Z_scope.

Variables N H : nat.
Variable angle : R.

(** In the first block of a stage the butterfly copies the 1 at [j] to
    [j + H]. *)
Lemma butterfly_first (j : nat) (wReal wImag : R) :
  (j < H)%nat -> (2 * H <= N)%nat ->
  exists wReal' wImag' : R,
    butterfly 0 (Z.of_nat H) angle j
      (step_list N (H + j), zeros N, wReal, wImag)
    = Ret (step_list N (H + S j), zeros N, wReal', wImag').
Proof.
  intros Hj HN. unfold butterfly.
  rewrite (get_step_hi N (H + j)), (get_zeros N) by lia. cbn [FFT.bind].
  rewrite (get_step_lo N (H + j)) by lia. cbn [FFT.bind].
  rewrite (get_zeros N) by lia. cbn [FFT.bind].
  replace (1 - (wReal * 0 - wImag * 0))%R with 1%R by lra.
  replace (0 - (wReal * 0 + wImag * 0))%R with 0%R by lra.
  replace (0 + Z.of_nat j + Z.of_nat H) with (Z.of_nat (H + j)) by lia.
  rewrite set_step_next by lia. rewrite set_zeros.
  rewrite (get_step_lo N (S (H + j))) by lia. cbn [FFT.bind].
  rewrite (get_zeros N) by lia. cbn [FFT.bind].
  replace (1 + (wReal * 0 - wImag * 0))%R with 1%R by lra.
  replace (0 + (wReal * 0 + wImag * 0))%R with 0%R by lra.
  rewrite set_step_lo by lia. rewrite set_zeros.
  replace (H + S j)%nat with (S (H + j)) by lia.
  eexists _, _. reflexivity.
Qed.

(** In the other blocks it combines zeros. *)
Lemma butterfly_rest (c j : nat) (i : Z) (wReal wImag : R) :
  (j < H)%nat -> (c <= N)%nat ->
  Z.of_nat c <= i -> i + 2 * Z.of_nat H <= Z.of_nat N ->
  exists wReal' wImag' : R,
    butterfly i (Z.of_nat H) angle j (step_list N c, zeros N, wReal, wImag)
    = Ret (step_list N c, zeros N, wReal', wImag').
Proof.
  intros Hj Hc Hi HN. unfold butterfly.
  rewrite (get_step_hi N c), (get_zeros N) by lia. cbn [FFT.bind].
  rewrite (get_step_hi N c) by lia. cbn [FFT.bind].
  rewrite (get_zeros N) by lia. cbn [FFT.bind].
  replace (0 - (wReal * 0 - wImag * 0))%R with 0%R by lra.
  replace (0 - (wReal * 0 + wImag * 0))%R with 0%R by lra.
  rewrite set_step_hi by lia. rewrite set_zeros.
  rewrite (get_step_hi N c) by lia. cbn [FFT.bind].
  rewrite (get_zeros N) by lia. cbn [FFT.bind].
  replace (0 + (wReal * 0 - wImag * 0))%R with 0%R by lra.
  replace (0 + (wReal * 0 + wImag * 0))%R with 0%R by lra.
  rewrite set_step_hi by lia. rewrite set_zeros.
  eexists _, _. reflexivity.
Qed.

Lemma inner_first :
  (2 * H <= N)%nat ->
  exists wReal wImag : R,
    for_eachO (seq 0 H) (butterfly 0 (Z.of_nat H) angle)
              (step_list N H, zeros N, 1%R, 0%R)
    = Ret (step_list N (2 * H), zeros N, wReal, wImag).
Proof.
  intros HN.
  destruct (for_eachO_seq_inv
              (fun j (st : list R * list R * R * R) =>
                 st.1.1.1 = step_list N (H + j) /\ st.1.1.2 = zeros N)
              (butterfly 0 (Z.of_nat H) angle) H 0
              (step_list N H, zeros N, 1%R, 0%R))
    as ([[[real imag] wr] wi] & Hrun & Hreal & Himag).
  - cbn. now rewrite Nat.add_0_r.
  - intros j [[[real imag] wr] wi] Hj [Hreal Himag]. cbn in Hreal, Himag.
    subst real imag.
    destruct (butterfly_first j wr wi ltac:(lia) HN) as (wr' & wi' & Hb).
    eexists. split; [exact Hb |]. cbn. split; [| reflexivity].
    f_equal.
  - cbn in Hreal, Himag. subst real imag. exists wr, wi. rewrite Hrun.
    now replace (2 * H)%nat with (H + H)%nat by lia.
Qed.

Lemma inner_rest (c : nat) (i : Z) :
  (c <= N)%nat -> Z.of_nat c <= i -> i + 2 * Z.of_nat H <= Z.of_nat N ->
  exists wReal wImag : R,
    for_eachO (seq 0 H) (butterfly i (Z.of_nat H) angle)
              (step_list N c, zeros N, 1%R, 0%R)
    = Ret (step_list N c, zeros N, wReal, wImag).
Proof.
  intros Hc Hi HN.
  destruct (for_eachO_seq_inv
              (fun (_ : nat) (st : list R * list R * R * R) =>
                 st.1.1.1 = step_list N c /\ st.1.1.2 = zeros N)
              (butterfly i (Z.of_nat H) angle) H 0
              (step_list N c, zeros N, 1%R, 0%R))
    as ([[[real imag] wr] wi] & Hrun & Hreal & Himag).
  - now cbn.
  - intros j [[[real imag] wr] wi] Hj [Hreal Himag]. cbn in Hreal, Himag.
    subst real imag.
    destruct (butterfly_rest c j i wr wi ltac:(lia) Hc Hi HN)
      as (wr' & wi' & Hb).
    eexists. split; [exact Hb |]. now cbn.
  - cbn in Hreal, Himag. subst real imag. exists wr, wi. exact Hrun.
Qed.

End ButterflyImpulse.

Section BlocksImpulse.

Import FFT Bits.
Local Open Scope Z_scope.

Variables N H q : nat.
Variable angle : R.
Hypothesis N_blocks : N = (q * (2 * H))%nat.
Hypothesis H_pos : (1 <= H)%nat.

Lemma blocks_rest (k b fuel : nat) :
  (b + k = q)%nat -> (k < fuel)%nat -> (1 <= b)%nat ->
  blocks fuel (Z.of_nat N) (Z.of_nat (2 * H)) (Z.of_nat H) angle
         (Z.of_nat (b * (2 * H))) (step_list N (2 * H), zeros N)
  = Ret (step_list N (2 * H), zeros N).
Proof.
  revert b fuel. induction k as [|k IH]; intros b fuel Hbk Hfuel Hb;
    (destruct fuel as [|fuel]; [lia |]); cbn [blocks].
  - destruct (Z.of_nat (b * (2 * H)) <? Z.of_nat N) eqn:E; [| reflexivity].
    apply Z.ltb_lt in E. rewrite Nat.add_0_r in Hbk. rewrite Hbk in E. lia.
  - assert ((b + 1) * (2 * H) <= q * (2 * H))%nat as Hle
      by (apply Nat.mul_le_mono_r; lia).
    assert (1 * (2 * H) <= b * (2 * H))%nat as Hge
      by (apply Nat.mul_le_mono_r; lia).
    destruct (Z.of_nat (b * (2 * H)) <? Z.of_nat N) eqn:E;
      [| apply Z.ltb_ge in E; lia].
    rewrite Nat2Z.id.
    destruct (inner_rest N H angle (2 * H) (Z.of_nat (b * (2 * H))))
      as (wr & wi & Hrun); [lia | lia | lia |].
    rewrite Hrun. cbn [FFT.bind].
    replace (Z.of_nat (b * (2 * H)) + Z.of_nat (2 * H))
      with (Z.of_nat (S b * (2 * H))) by lia.
    apply IH; lia.
Qed.

Lemma blocks_first (fuel : nat) :
  (q < fuel)%nat -> (1 <= q)%nat ->
  blocks fuel (Z.of_nat N) (Z.of_nat (2 * H)) (Z.of_nat H) angle 0
         (step_list N H, zeros N)
  = Ret (step_list N (2 * H), zeros N).
Proof.
  intros Hfuel Hq. destruct fuel as [|fuel]; [lia |]. cbn [blocks].
  assert (1 * (2 * H) <= q * (2 * H))%nat as Hge
    by (apply Nat.mul_le_mono_r; lia).
  destruct (0 <? Z.of_nat N) eqn:E; [| apply Z.ltb_ge in E; lia].
  rewrite Nat2Z.id.
  destruct (inner_first N H angle) as (wr & wi & Hrun); [lia |].
  rewrite Hrun. cbn [FFT.bind].
  replace (0 + Z.of_nat (2 * H)) with (Z.of_nat (1 * (2 * H))) by lia.
  apply (blocks_rest (q - 1) 1 fuel); lia.
Qed.

End BlocksImpulse.

Section StagesImpulse.

Import FFT Bits.
Local Open Scope Z_scope.

Variable m : nat.
Hypothesis m_le_30 : (m <= 30)%nat.

Let N : nat := (2 ^ m)%nat.

(** The stages [len = 2^(s+1), ..., 2^m] turn the array that holds 1 at
    its first [2^s] indices into the all-ones array, and leave the loop at
    [len = n << 1]. *)
Lemma stages_run (r s fuel fuel_blocks : nat) :
  (s + S r = m)%nat -> (N <= fuel_blocks)%nat ->
  stages (S r + fuel) fuel_blocks (pow2 m) (pow2 (S s))
         (step_list N (2 ^ s), zeros N)
  = stages fuel fuel_blocks (pow2 m) (shl (pow2 m) 1) (step_list N N, zeros N).
Proof.
  revert s. induction r as [|r IH]; intros s Hsr Hfb.
  - assert (S s = m) as Hs by lia.
    cbn [stages Nat.add].
    destruct (pow2 (S s) <=? pow2 m) eqn:E;
      [| rewrite Hs in E; apply Z.leb_gt in E; lia].
    rewrite sar_pow2 by lia.
    assert (N = 1 * (2 * 2 ^ s))%nat as HN.
    { unfold N. rewrite <- Hs, Nat.pow_succ_r'. lia. }
    assert (1 <= 2 ^ s)%nat as Hs1.
    { pose proof (Nat.pow_nonzero 2 s). lia. }
    rewrite <- (pow2_nat m), <- (pow2_nat s). fold N.
    replace (pow2 (S s)) with (Z.of_nat (2 * 2 ^ s))
      by (rewrite <- pow2_nat, Nat.pow_succ_r'; reflexivity).
    rewrite (blocks_first N (2 ^ s) 1 _ HN Hs1) by lia.
    cbn [FFT.bind]. now replace (2 * 2 ^ s)%nat with N by lia.
  - pose proof (pow2_le (S s) m ltac:(lia)).
    change (S (S r) + fuel)%nat with (S (S r + fuel)). cbn [stages].
    destruct (pow2 (S s) <=? pow2 m) eqn:E; [| apply Z.leb_gt in E; lia].
    rewrite sar_pow2 by lia. rewrite shl_pow2 by lia.
    assert (N = 2 ^ S r * (2 * 2 ^ s))%nat as HN.
    { unfold N. replace m with (S r + S s)%nat by lia.
      now rewrite Nat.pow_add_r, (Nat.pow_succ_r' 2 s). }
    assert (1 <= 2 ^ s)%nat as Hs1.
    { pose proof (Nat.pow_nonzero 2 s). lia. }
    assert (1 <= 2 ^ S r)%nat as Hr1.
    { pose proof (Nat.pow_nonzero 2 (S r)). lia. }
    assert (2 ^ S r < N)%nat as HrN.
    { unfold N. apply Nat.pow_lt_mono_r; lia. }
    rewrite <- (pow2_nat m), <- (pow2_nat s). fold N.
    replace (pow2 (S s)) with (Z.of_nat (2 * 2 ^ s))
      by (rewrite <- pow2_nat, Nat.pow_succ_r'; reflexivity).
    rewrite (blocks_first N (2 ^ s) (2 ^ S r) _ HN Hs1) by lia.
    cbn [FFT.bind].
    replace (Z.of_nat N) with (pow2 m) by (symmetry; apply pow2_nat).
    replace (2 * 2 ^ s)%nat with (2 ^ S s)%nat
      by (now rewrite Nat.pow_succ_r').
    apply IH; lia.
Qed.

End StagesImpulse.

(** ** The 1D transform of the impulse *)

Section ImpulseSpectrum.

Import FFT Bits.
Local Open Scope Z_scope.

Lemma impulse_length (n : nat) : length (impulse n) = n.
Proof. destruct n; simpl; [reflexivity |]. now rewrite length_replicate. Qed.

Lemma pow_gt_exp (m : nat) : (m < 2 ^ m)%nat.
Proof. apply Nat.pow_gt_lin_r. lia. Qed.

(** The transform of the impulse up to the end of the last regular stage:
    what is left to run is the loop test at [len = n << 1]. *)
Lemma fft1D_impulse_run (m fuel : nat) :
  (1 <= m <= 30)%nat -> (2 ^ m <= fuel)%nat ->
  fft1D fuel (impulse (2 ^ m)) (zeros (2 ^ m))
  = stages (fuel - m) fuel (pow2 m) (shl (pow2 m) 1)
           (replicate (2 ^ m) 1%R, zeros (2 ^ m)).
Proof.
  intros Hm Hfuel. pose proof (pow_gt_exp m) as Hexp.
  unfold fft1D. rewrite impulse_length.
  pose proof (N_ge_2 m Hm) as HN2.
  destruct (Z.of_nat (2 ^ m) <=? 1) eqn:E; [apply Z.leb_le in E; lia |].
  rewrite pow2_nat.
  destruct (bitReversal_impulse m Hm fuel ltac:(lia)) as (j & ->).
  cbn [FFT.bind]. rewrite ones_step.
  replace fuel with (S (m - 1) + (fuel - m))%nat at 1 by lia.
  change 2 with (pow2 1). change 1%nat with (2 ^ 0)%nat at 2.
  apply stages_run; lia.
Qed.

Lemma fft1D_impulse (m fuel : nat) :
  (m <= 29)%nat -> (2 ^ m <= fuel)%nat ->
  fft1D fuel (impulse (2 ^ m)) (zeros (2 ^ m))
  = Ret (replicate (2 ^ m) 1%R, zeros (2 ^ m)).
Proof.
  intros Hm Hfuel. destruct (Nat.eq_dec m 0%nat) as [-> | Hm0]; [reflexivity |].
  rewrite fft1D_impulse_run by lia.
  pose proof (pow_gt_exp m) as Hexp.
  destruct (fuel - m)%nat as [|f] eqn:Ef; [lia |].
  cbn [stages]. rewrite shl_pow2 by lia.
  pose proof (pow2_lt m (S m) ltac:(lia)).
  destruct (pow2 (S m) <=? pow2 m) eqn:E; [apply Z.leb_le in E; lia |].
  reflexivity.
Qed.

Lemma magnitudeAt_flat (n k : nat) :
  (k < n)%nat -> magnitudeAt (replicate n 1%R) (zeros n) k = Some 1%R.
Proof.
  intros Hk. unfold magnitudeAt, zeros.
  rewrite !lookup_replicate_2 by exact Hk.
  f_equal. replace (1 * 1 + 0 * 0)%R with 1%R by lra. apply sqrt_1.
Qed.

End ImpulseSpectrum.

(** C9 (within the range of the 32-bit shifts).  For every power-of-two
    length [n = 2^m] with [m <= 29], the transform of the impulse
    ([real[0] = 1], every other entry 0), over exact real arithmetic,
    returns, and the magnitude [sqrt (re^2 + im^2)] of its output is 1 at
    every index. *)
Theorem fft1D_impulse_flat (m fuel : nat) :
  (m <= 29)%nat -> (2 ^ m <= fuel)%nat ->
  exists real imag : list R,
    FFT.fft1D fuel (FFT.impulse (2 ^ m)) (FFT.zeros (2 ^ m))
    = FFT.Ret (real, imag)
    /\ length real = (2 ^ m)%nat /\ length imag = (2 ^ m)%nat
    /\ forall k : nat, (k < 2 ^ m)%nat ->
         FFT.magnitudeAt real imag k = Some 1%R.
Proof.
  intros Hm Hfuel.
  exists (replicate (2 ^ m) 1%R), (FFT.zeros (2 ^ m)).
  split; [now apply fft1D_impulse |].
  split; [apply length_replicate | split; [apply length_replicate |]].
  intros k Hk. now apply magnitudeAt_flat.
Qed.

Lemma fft1D_impulse_flat_witness :
  exists real imag : list R,
    FFT.fft1D 8 (FFT.impulse (2 ^ 3)) (FFT.zeros (2 ^ 3)) = FFT.Ret (real, imag)
    /\ length real = (2 ^ 3)%nat /\ length imag = (2 ^ 3)%nat
    /\ forall k : nat, (k < 2 ^ 3)%nat ->
         FFT.magnitudeAt real imag k = Some 1%R.
Proof.
  apply (fft1D_impulse_flat 3 8).
  - lia.
  - simpl. lia.
Defined.

(** ** The 1D transform: more fuel never changes a result *)

Section FuelMonotone.

Import FFT Bits.
Local Open Scope Z_scope.

Lemma while_k_mono (f f' : nat) (j k : Z) (r : Z * Z) :
  while_k f j k = Ret r -> (f <= f')%nat -> while_k f' j k = Ret r.
Proof.
  revert f' j k. induction f as [|f IH]; intros f' j k Hrun Hle; simpl in Hrun;
    [discriminate |].
  destruct f' as [|f']; [lia |]. simpl.
  destruct (k <=? j); [apply IH; [exact Hrun | lia] | exact Hrun].
Qed.

Lemma for_eachO_mono {S : Type} (body body' : nat -> S -> outcome S)
    (l : list nat) (s r : S) :
  (forall i s r, body i s = Ret r -> body' i s = Ret r) ->
  for_eachO l body s = Ret r -> for_eachO l body' s = Ret r.
Proof.
  intros Hbody. revert s. induction l as [|i l IH]; intros s; simpl; [auto |].
  destruct (body i s) as [s1 | | |] eqn:E; simpl; try discriminate.
  rewrite (Hbody _ _ _ E). simpl. apply IH.
Qed.

Lemma bitReversalStep_mono (f f' : nat) (n : Z) (i : nat)
    (st r : list R * list R * Z) :
  (f <= f')%nat ->
  bitReversalStep f n i st = Ret r -> bitReversalStep f' n i st = Ret r.
Proof.
  intros Hle. destruct st as [[real imag] j]. unfold bitReversalStep.
  destruct (if Z.of_nat i <? j
            then let* real' := swap real (Z.of_nat i) j in
                 let* imag' := swap imag (Z.of_nat i) j in
                 Ret (real', imag')
            else Ret (real, imag)) as [[re im] | | |];
    simpl; try discriminate.
  destruct (while_k f j (sar n 1)) as [[j' k'] | | |] eqn:E; simpl;
    try discriminate.
  now rewrite (while_k_mono f f' _ _ _ E Hle).
Qed.

Lemma blocks_mono (f f' : nat) (n len halfLen : Z) (angle : R) (i : Z)
    (st r : list R * list R) :
  blocks f n len halfLen angle i st = Ret r -> (f <= f')%nat ->
  blocks f' n len halfLen angle i st = Ret r.
Proof.
  revert f' i st. induction f as [|f IH]; intros f' i [real imag] Hrun Hle;
    simpl in Hrun; [discriminate |].
  destruct f' as [|f']; [lia |]. simpl.
  destruct (i <? n); [| exact Hrun].
  destruct (for_eachO (seq 0 (Z.to_nat halfLen)) (butterfly i halfLen angle)
              (real, imag, 1%R, 0%R)) as [[[[re im] wr] wi] | | |];
    simpl in *; try discriminate.
  apply IH; [exact Hrun | lia].
Qed.

Lemma stages_mono (f f' fb fb' : nat) (n len : Z) (st r : list R * list R) :
  stages f fb n len st = Ret r -> (f <= f')%nat -> (fb <= fb')%nat ->
  stages f' fb' n len st = Ret r.
Proof.
  revert f' len st. induction f as [|f IH]; intros f' len st Hrun Hle Hle';
    simpl in Hrun; [discriminate |].
  destruct f' as [|f']; [lia |]. simpl.
  destruct (len <=? n); [| exact Hrun].
  destruct (blocks fb n len (sar len 1) (-2 * PI / IZR len) 0 st)
    as [st' | | |] eqn:E; simpl in Hrun; try discriminate.
  rewrite (blocks_mono fb fb' _ _ _ _ _ _ _ E Hle'). simpl.
  apply IH; [exact Hrun | lia | exact Hle'].
Qed.

Lemma fft1D_mono (f f' : nat) (real imag : list R) (r : list R * list R) :
  fft1D f real imag = Ret r -> (f <= f')%nat -> fft1D f' real imag = Ret r.
Proof.
  unfold fft1D. intros Hrun Hle.
  destruct (Z.of_nat (length real) <=? 1); [exact Hrun |].
  unfold bitReversal in *.
  destruct (for_eachO _ (bitReversalStep f _) _) as [[[re im] j] | | |] eqn:E;
    simpl in Hrun; try discriminate.
  rewrite (for_eachO_mono _ (bitReversalStep f' (Z.of_nat (length real)))
             _ _ _ (fun i s r => bitReversalStep_mono f f' _ i s r Hle) E).
  simpl. now apply (stages_mono f f' f f').
Qed.

(** With [len <= 0] the loop over the blocks never reaches [n]. *)
Lemma blocks_diverge (fuel : nat) (n len halfLen : Z) (angle : R) (i : Z)
    (st : list R * list R) :
  len <= 0 -> halfLen <= 0 -> i < n ->
  blocks fuel n len halfLen angle i st = OutOfFuel.
Proof.
  intros Hlen Hhalf. revert i st.
  induction fuel as [|fuel IH]; intros i [real imag] Hi; simpl; [reflexivity |].
  destruct (i <? n) eqn:E; [| apply Z.ltb_ge in E; lia].
  replace (Z.to_nat halfLen) with 0%nat by lia. simpl.
  apply IH. lia.
Qed.

(** When [n << 1] wraps to a non-positive number the transform of the
    impulse does not return. *)
Lemma fft1D_wraps (m : nat) :
  (1 <= m <= 30)%nat ->
  shl (pow2 m) 1 <= 0 -> sar (shl (pow2 m) 1) 1 <= 0 ->
  forall (fuel : nat) (out : list R * list R),
    fft1D fuel (impulse (2 ^ m)) (zeros (2 ^ m)) <> Ret out.
Proof.
  intros Hm Hshl Hsar fuel out Hret.
  apply (fft1D_mono fuel (Nat.max fuel (2 ^ m))) in Hret; [| lia].
  rewrite fft1D_impulse_run in Hret by lia.
  pose proof (pow2_pos m) as Hpos.
  destruct (Nat.max fuel (2 ^ m) - m)%nat as [|f]; [discriminate |].
  cbn [stages] in Hret.
  destruct (shl (pow2 m) 1 <=? pow2 m) eqn:E; [| apply Z.leb_gt in E; lia].
  rewrite blocks_diverge in Hret by lia.
  discriminate.
Qed.

End FuelMonotone.

(** C9 as stated fails at the power of two 2^30: there [len <<= 1] wraps
    to -2^31 after the last stage, the loop test [len <= n] holds again,
    and the transform of the impulse never returns. *)
Lemma fft1D_impulse_2_30_diverges :
  ~ (exists (fuel : nat) (real imag : list R),
       FFT.fft1D fuel (FFT.impulse (2 ^ 30)) (FFT.zeros (2 ^ 30))
       = FFT.Ret (real, imag)).
Proof.
  intros (fuel & real & imag & Hret).
  apply (fft1D_wraps 30 ltac:(lia) ltac:(vm_compute; discriminate)
           ltac:(vm_compute; discriminate) fuel (real, imag)).
  exact Hret.
Qed.

(** * Further properties of the pipeline *)

(** ** The scores of the classifier *)

Section ScoreRange.

Import Classifier.
Local Open Scope Q_scope.

Lemma ofNat_le (a b : nat) : (a <= b)%nat -> Num.ofNat a <= Num.ofNat b.
Proof. intros H. unfold Num.ofNat. rewrite <- Zle_Qle. lia. Qed.

Lemma ofNat_pos (a : nat) : (0 < a)%nat -> 0 < Num.ofNat a.
Proof.
  intros H. unfold Num.ofNat. change 0 with (inject_Z 0).
  rewrite <- Zlt_Qlt. lia.
Qed.

Lemma ofNat_mul (a b : nat) : Num.ofNat (a * b) == Num.ofNat a * Num.ofNat b.
Proof. unfold Num.ofNat. now rewrite Nat2Z.inj_mul, inject_Z_mult. Qed.

Lemma clamped_score_range (c : nat) (q : Q) :
  0 <= q -> 0 <= Qmin (Num.ofNat c / q) 1 <= 1.
Proof.
  intros Hq. split; [| apply Q.le_min_r].
  apply Q.min_glb; [| discriminate].
  apply Qdiv_nonneg; [apply ofNat_nonneg | exact Hq].
Qed.

Lemma gradientSmooth_le (normalized : list Z) (width height : nat) :
  (gradientSmooth normalized width height <= (height - 2) * (width - 2))%nat.
Proof.
  unfold gradientSmooth. rewrite for_each_rows_count. cbn [Nat.add].
  etransitivity; [apply List.filter_length_le |].
  now rewrite length_prod, !length_seq.
Qed.

(** X1.  On a spectrum of positive width and height the five scores of
    [analyzeFFTPattern] all lie in [0, 1], whatever the magnitudes and
    whatever the length of the array: the four artifact scores by their
    clamp, [smoothGradient], which has no clamp, because at most
    [(width - 2) * (height - 2)] points are counted. *)
Theorem analyzeFFTPattern_range (magnitude : list Q) (width height : nat) :
  (0 < width)%nat -> (0 < height)%nat ->
  let p := analyzeFFTPattern magnitude width height in
  0 <= gridPattern p <= 1 /\ 0 <= brightDots p <= 1
  /\ 0 <= crossShape p <= 1 /\ 0 <= checkerboard p <= 1
  /\ 0 <= smoothGradient p <= 1.
Proof.
  intros Hw Hh p. subst p. unfold analyzeFFTPattern.
  cbn [gridPattern brightDots crossShape checkerboard smoothGradient].
  pose proof (ofNat_pos width Hw) as Pw. pose proof (ofNat_pos height Hh) as Ph.
  assert (0 < Num.ofNat width * Num.ofNat height) as Pwh by nra.
  split; [apply clamped_score_range; discriminate |].
  split; [apply clamped_score_range; discriminate |].
  split; [apply clamped_score_range; lra |].
  split; [apply clamped_score_range; lra |].
  split.
  - apply Qdiv_nonneg; [apply ofNat_nonneg | lra].
  - apply Qle_shift_div_r; [exact Pwh |]. rewrite Qmult_1_l.
    rewrite <- ofNat_mul. apply ofNat_le.
    etransitivity; [apply gradientSmooth_le |]. nia.
Qed.

Lemma analyzeFFTPattern_range_witness :
  let p := analyzeFFTPattern [0; 255; 255; 0; 3; 100; 200; 50; 0] 3 3 in
  0 <= gridPattern p <= 1 /\ 0 <= brightDots p <= 1
  /\ 0 <= crossShape p <= 1 /\ 0 <= checkerboard p <= 1
  /\ 0 <= smoothGradient p <= 1.
Proof.
  apply (analyzeFFTPattern_range [0; 255; 255; 0; 3; 100; 200; 50; 0] 3 3); lia.
Defined.

End ScoreRange.

(** ** The verdict and its explanation *)

Section Verdict.

Import Classifier.
Local Open Scope Q_scope.
Local Open Scope string_scope.

Lemma push_if_length (c : bool) (msg : string) (l : list string) :
  (length (push_if c msg l) <= S (length l))%nat.
Proof. unfold push_if. destruct c; [rewrite length_app; simpl |]; lia. Qed.

Lemma push_if_nil (c : bool) (msg : string) (l : list string) :
  push_if c msg l = [] <-> c = false /\ l = [].
Proof.
  unfold push_if. destruct c.
  - split; [| intros [H _]; discriminate H].
    intros H. apply (f_equal (@length string)) in H.
    rewrite length_app in H. simpl in H. lia.
  - split; [intros ->; now split | now intros [_ ->]].
Qed.

(** X2.  For every score set, the confidence of [detectAIPatterns] lies in
    [0, 99].  A verdict "not AI" always comes with the same three
    findings; a verdict "AI" comes with at most four findings, and with
    none at all exactly when no score exceeds its reporting threshold
    (0.5, 0.5, 0.5 and 0.4), which happens for score sets in [0, 1], for
    instance when the four artifact scores are 0.4 and [smoothGradient]
    is 0. *)
Theorem decide_patterns_report (p : Patterns) :
  let d := decide_patterns p in
  0 <= confidence d <= 99
  /\ (isAI d = false ->
      details d = [ "Smooth, natural frequency distribution detected";
                    "No geometric patterns or regular artifacts found";
                    "Frequency spectrum matches real camera footage" ])
  /\ (isAI d = true ->
      (length (details d) <= 4)%nat
      /\ (details d = [] <->
          gridPattern p <= 0.5 /\ brightDots p <= 0.5
          /\ crossShape p <= 0.5 /\ checkerboard p <= 0.4))
  /\ (let q := mkPatterns 0.4 0.4 0.4 0.4 0 in
      isAI (decide_patterns q) = true /\ details (decide_patterns q) = []).
Proof.
  intros d. subst d. unfold decide_patterns. cbn [isAI confidence details].
  split; [| split; [| split]].
  - split; [| apply Q.le_min_r].
    apply Q.min_glb; [| discriminate].
    apply Qmult_le_0_compat; [apply Qabs_nonneg | discriminate].
  - now intros ->.
  - intros ->. split.
    + repeat (etransitivity; [apply push_if_length |]; apply le_n_S).
      apply Nat.le_0_l.
    + rewrite !push_if_nil, !ltb_ge. intuition.
  - split; reflexivity.
Qed.

Lemma decide_patterns_report_witness :
  details (decide_patterns (mkPatterns 0.9 0 0 0.5 0.1))
  <> [] /\
  details (decide_patterns (mkPatterns 0 0 0 0 1))
  = [ "Smooth, natural frequency distribution detected";
      "No geometric patterns or regular artifacts found";
      "Frequency spectrum matches real camera footage" ].
Proof.
  split.
  - intros H.
    apply (proj2 (proj1 (proj2 (proj2 (decide_patterns_report
             (mkPatterns 0.9 0 0 0.5 0.1)))) eq_refl)) in H.
    destruct H as (H & _). exact (H eq_refl).
  - apply (proj1 (proj2 (decide_patterns_report (mkPatterns 0 0 0 0 1)))).
    reflexivity.
Defined.

End Verdict.

(** ** Uniform spectra *)

Section UniformSpectra.

Import Classifier Uniform.
Local Open Scope Q_scope.

Lemma analyzeFFTPattern_uniform (width height : nat) (f : FFTData) :
  uniformFrame width height f ->
  analyzeFFTPattern (magnitude f) (Classifier.width f) (Classifier.height f)
  = analyzeFFTPattern (replicate (width * height) 0) width height.
Proof.
  intros (-> & -> & Hlen & c & Hc). unfold analyzeFFTPattern.
  now rewrite (normalize_constant c _ Hc), Hlen, normalize_zero.
Qed.

Lemma sum_of_equal_frames (proj : Patterns -> Q) (p0 : Patterns)
    (frames : list FFTData) (z : Patterns) :
  (forall a b, proj (addPatterns a b) = proj a + proj b) ->
  Forall (fun f => analyzeFFTPattern (magnitude f) (Classifier.width f)
                     (Classifier.height f) = p0) frames ->
  proj (fold_left
          (fun patterns fftData =>
             addPatterns patterns
               (analyzeFFTPattern (magnitude fftData) (Classifier.width fftData)
                  (Classifier.height fftData))) frames z)
  == proj z + Num.ofNat (length frames) * proj p0.
Proof.
  intros Hadd Hall. revert z.
  induction Hall as [|f frames Hf _ IH]; intros z.
  - simpl. change (Num.ofNat 0) with 0. ring.
  - cbn [fold_left length]. rewrite IH, Hadd, Hf.
    unfold Num.ofNat. rewrite Nat2Z.inj_succ, <- Z.add_1_r, inject_Z_plus.
    change (inject_Z 1) with 1. ring.
Qed.

Lemma average_of_equal_frames (p0 : Patterns) (frames : list FFTData) :
  frames <> [] ->
  Forall (fun f => analyzeFFTPattern (magnitude f) (Classifier.width f)
                     (Classifier.height f) = p0) frames ->
  let avg := averagePatterns frames in
  gridPattern avg == gridPattern p0 /\ brightDots avg == brightDots p0
  /\ crossShape avg == crossShape p0 /\ checkerboard avg == checkerboard p0
  /\ smoothGradient avg == smoothGradient p0.
Proof.
  intros Hne Hall avg. subst avg. unfold averagePatterns, divPatterns.
  cbn [gridPattern brightDots crossShape checkerboard smoothGradient].
  assert (0 < Num.ofNat (length frames)) as Hn.
  { apply ofNat_pos. destruct frames; [congruence | simpl; lia]. }
  repeat split.
  all: rewrite (sum_of_equal_frames _ p0 frames zeroPatterns (fun a b => eq_refl) Hall).
  all: cbn [zeroPatterns gridPattern brightDots crossShape checkerboard
            smoothGradient]; field; lra.
Qed.

Lemma verdict_of_smooth_scores (avg : Patterns) (s : Q) :
  gridPattern avg == 0 -> brightDots avg == 0 -> crossShape avg == 0 ->
  checkerboard avg == 0 -> smoothGradient avg == s -> 0 <= s ->
  let d := decide_patterns avg in
  isAI d = false /\ confidence d == Qmin (s * 100) 99.
Proof.
  intros Hg Hb Hc Hk Hs Hs0 d. subst d.
  assert (aiScore avg == 0) as Hai.
  { unfold aiScore. rewrite Hg, Hb, Hc, Hk. reflexivity. }
  unfold decide_patterns. cbn [isAI confidence]. unfold realScore. split.
  - apply ltb_ge. rewrite Hai, Hs. exact Hs0.
  - rewrite Hai, Hs.
    assert (Qabs (0 - s) == s) as ->; [| reflexivity].
    rewrite <- (Qabs_opp (0 - s)).
    assert (- (0 - s) == s) as -> by ring.
    now apply Qabs_pos.
Qed.

Lemma detectAIPatterns_uniform (width height : nat)
    (fftResults : list FFTData) :
  fftResults <> [] ->
  Forall (uniformFrame width height) fftResults ->
  let s := Num.ofNat ((height - 2) * (width - 2))
           / (Num.ofNat width * Num.ofNat height) in
  let d := detectAIPatterns fftResults in
  isAI d = false
  /\ confidence d == Qmin (s * 100) 99
  /\ details d = [ "Smooth, natural frequency distribution detected";
                   "No geometric patterns or regular artifacts found";
                   "Frequency spectrum matches real camera footage" ]%string.
Proof.
  intros Hne Hall s d.
  destruct (analyzeFFTPattern_zero width height) as (Zg & Zb & Zc & Zk & Zs).
  set (p0 := analyzeFFTPattern (replicate (width * height) 0) width height) in *.
  destruct (average_of_equal_frames p0 fftResults Hne)
    as (Hg & Hb & Hc & Hk & Hs).
  { eapply Forall_impl; [exact Hall |].
    intros f Hf. now apply analyzeFFTPattern_uniform. }
  rewrite Zg in Hg. rewrite Zb in Hb. rewrite Zc in Hc. rewrite Zk in Hk.
  rewrite Zs in Hs. fold s in Hs.
  assert (0 <= s) as Hs0.
  { apply Qdiv_nonneg; [apply ofNat_nonneg |].
    apply Qmult_le_0_compat; apply ofNat_nonneg. }
  destruct (verdict_of_smooth_scores _ s Hg Hb Hc Hk Hs Hs0) as [Hai Hconf].
  subst d. unfold detectAIPatterns. split; [exact Hai | split; [exact Hconf |]].
  unfold decide_patterns in *. cbn [isAI details] in *. now rewrite Hai.
Qed.

(** X3.  When every sampled frame has a uniform spectrum (one value at
    all [width * height] positions, possibly a different value in each
    frame), [detectAIPatterns] answers "not AI" with the three
    natural-footage findings, and its confidence is
    [min ((width - 2) * (height - 2) / (width * height) * 100, 99)]: the
    verdict does not depend on the values. *)
Theorem uniform_spectra_verdict (width height : nat)
    (fftResults : list FFTData) :
  fftResults <> [] ->
  Forall (uniformFrame width height) fftResults ->
  let s := Num.ofNat ((height - 2) * (width - 2))
           / (Num.ofNat width * Num.ofNat height) in
  let d := detectAIPatterns fftResults in
  isAI d = false
  /\ confidence d == Qmin (s * 100) 99
  /\ details d = [ "Smooth, natural frequency distribution detected";
                   "No geometric patterns or regular artifacts found";
                   "Frequency spectrum matches real camera footage" ]%string.
Proof. apply detectAIPatterns_uniform. Qed.

End UniformSpectra.

Lemma uniform_spectra_verdict_witness :
  Classifier.isAI
    (Classifier.detectAIPatterns
       [Classifier.mkFFTData (replicate (3 * 3) 7%Q) 3 3;
        Classifier.mkFFTData (replicate (3 * 3) (-200)%Q) 3 3]) = false.
Proof.
  apply (uniform_spectra_verdict 3 3
           [Classifier.mkFFTData (replicate (3 * 3) 7%Q) 3 3;
            Classifier.mkFFTData (replicate (3 * 3) (-200)%Q) 3 3]).
  - discriminate.
  - repeat constructor.
    + exists 7%Q. simpl. repeat constructor.
    + exists (-200)%Q. simpl. repeat constructor.
Defined.

(** ** The result of a run *)

Section RunResult.

Import Classifier Pipeline.
Local Open Scope Q_scope.

Context {ImageData : Type}.
Variable computeFFT : ImageData -> FFTData.
Variable this : FFTAnalyzer.
Variable video : @Video ImageData.

Lemma fold_lookup_push {A B : Type} (c : A -> B) (frames pre : list A)
    (acc : list B) :
  fold_left (fun s i => match (pre ++ frames) !! i with
                        | Some f => s ++ [c f]
                        | None => s
                        end)
            (seq (length pre) (length frames)) acc
  = acc ++ List.map c frames.
Proof.
  revert pre acc. induction frames as [|f fs IH]; intros pre acc.
  - simpl. now rewrite app_nil_r.
  - cbn [length seq fold_left List.map].
    rewrite lookup_app_r by lia. rewrite Nat.sub_diag. cbn [lookup list_lookup].
    specialize (IH (pre ++ [f]) (acc ++ [c f])).
    rewrite length_app in IH. cbn [length] in IH.
    rewrite Nat.add_1_r, <- app_assoc in IH. cbn [app] in IH.
    rewrite IH. now rewrite <- app_assoc.
Qed.

Local Abbreviation sampledFrames := (Run.sampledFrames this video).

Lemma analyzeVideo_run (b : bool) (tr : list Event) :
  let spectra := List.map computeFFT sampledFrames in
  let analysis := detectAIPatterns spectra in
  analyzeVideo computeFFT this video (reporting b) tr
  = ({| isAIGenerated := isAI analysis;
        res_confidence := confidence analysis;
        res_patterns := patterns analysis;
        fftData := spectra !! 0%nat;
        res_details := details analysis |},
     tr ++ flat_map (extractEvents video b (sampleFrames this))
                    (seq 1 (sampleFrames this))
        ++ flat_map (fftEvents b (sampleFrames this))
                    (seq 0 (sampleFrames this))).
Proof.
  intros spectra analysis.
  unfold analyzeVideo, Pipeline.bind at 1. rewrite extractFrames_run.
  change (List.map _ (seq 1 (sampleFrames this))) with sampledFrames.
  assert (length sampledFrames = sampleFrames this) as Hlen.
  { unfold Run.sampledFrames. now rewrite length_map, length_seq. }
  unfold Pipeline.bind at 1.
  rewrite (for_eachM_trace _
             (fun i fftResults =>
                match sampledFrames !! i with
                | Some frame => fftResults ++ [computeFFT frame]
                | None => fftResults
                end)
             (fftEvents b (length sampledFrames))).
  - pose proof (fold_lookup_push computeFFT sampledFrames [] []) as Hfold.
    cbn [app length] in Hfold. rewrite Hfold.
    fold spectra. fold analysis. unfold ret.
    now rewrite Hlen, <- app_assoc.
  - intros i s tr' Hin. apply in_seq in Hin.
    destruct (lookup_lt_is_Some_2 sampledFrames i) as [frame Hframe]; [lia |].
    rewrite Hframe. unfold Pipeline.bind, ret. rewrite callIf_reporting.
    reflexivity.
Qed.

(** X4.  A run of [analyzeVideo] seeks the video at the [N] timestamps
    and nowhere else, and its result is the verdict of [detectAIPatterns]
    on the spectra of the [N] frames shown there, in that order, together
    with the spectrum of the first of them.  The progress callback is
    advisory: the result is the same with the callback and without it, and
    the callback is called [2 N] times. *)
Theorem analyzeVideo_result (b : bool) :
  let N := sampleFrames this in
  let spectra := List.map computeFFT sampledFrames in
  let analysis := detectAIPatterns spectra in
  let out := run (analyzeVideo computeFFT this video (reporting b)) in
  fst out = fst (run (analyzeVideo computeFFT this video None))
  /\ isAIGenerated (fst out) = isAI analysis
  /\ res_confidence (fst out) = confidence analysis
  /\ res_patterns (fst out) = averagePatterns spectra
  /\ res_details (fst out) = details analysis
  /\ fftData (fst out) = spectra !! 0%nat
  /\ length spectra = N
  /\ seeks (snd out) = List.map (timeOf video N) (seq 1 N)
  /\ length (progressValues (snd out)) = if b then (2 * N)%nat else 0%nat.
Proof.
  intros N spectra analysis out. subst out. unfold run.
  change None with (reporting false) at 1.
  rewrite !analyzeVideo_run. cbn [fst snd app].
  repeat split.
  - unfold spectra, Run.sampledFrames. now rewrite !length_map, length_seq.
  - now rewrite seeks_app, seeks_extractEvents, seeks_fftEvents, app_nil_r.
  - rewrite progressValues_app, progress_extractEvents, progress_fftEvents.
    destruct b; [| reflexivity].
    rewrite length_app, !length_map, !length_seq. fold N. lia.
Qed.

End RunResult.

(** ** Loops whose reads all succeed *)

Section PureLoops.

Import FFT.

Lemma for_eachO_pure {S : Type} (body : nat -> S -> outcome S)
    (g : nat -> S -> S) (l : list nat) (s : S) :
  (forall i s', In i l -> body i s' = Ret (g i s')) ->
  for_eachO l body s = Ret (for_each l g s).
Proof.
  unfold for_each. revert s.
  induction l as [|i l IH]; intros s Hbody; simpl; [reflexivity |].
  rewrite Hbody by now left. simpl. apply IH.
  intros i' s' Hi'. apply Hbody. now right.
Qed.

Lemma stride_from_4 (fuel k n : nat) :
  (n - k <= fuel)%nat ->
  stride_from fuel (4 * k) (4 * n) 4 = List.map (fun p => 4 * p)%nat (seq k (n - k)).
Proof.
  revert k. induction fuel as [|fuel IH]; intros k Hfuel.
  - replace (n - k)%nat with 0%nat by lia. reflexivity.
  - cbn [stride_from]. destruct (4 * k <? 4 * n)%nat eqn:E.
    + apply Nat.ltb_lt in E.
      replace (n - k)%nat with (S (n - S k)) by lia. cbn [seq List.map].
      f_equal. replace (4 * k + 4)%nat with (4 * S k)%nat by lia.
      apply IH. lia.
    + apply Nat.ltb_ge in E. replace (n - k)%nat with 0%nat by lia.
      reflexivity.
Qed.

Lemma stride_range_4 (n : nat) :
  stride_range 0 (4 * n) 4 = List.map (fun p => 4 * p)%nat (seq 0 n).
Proof.
  pose proof (stride_from_4 (4 * n) 0 n ltac:(lia)) as H.
  rewrite Nat.sub_0_r in H. exact H.
Qed.

Lemma for_each_scatter {A : Type} (dst : nat -> nat) (val : nat -> A)
    (l : list nat) (s : list A) :
  for_each l (fun i s => <[dst i := val i]> s) s = Utils.scatter dst val l s.
Proof. reflexivity. Qed.

End PureLoops.

(** ** [Utils.rgbToGrayscale] *)

Section Grayscale.

Import FFT Frame.
Local Open Scope Q_scope.

Lemma luminance_range (r g b : Z) :
  (0 <= r <= 255)%Z -> (0 <= g <= 255)%Z -> (0 <= b <= 255)%Z ->
  0 <= luminance r g b <= 255.
Proof.
  intros Hr Hg Hb. unfold luminance.
  assert (0 <= inject_Z r <= 255) as Qr.
  { change 0 with (inject_Z 0). change 255 with (inject_Z 255).
    rewrite <- !Zle_Qle. exact Hr. }
  assert (0 <= inject_Z g <= 255) as Qg.
  { change 0 with (inject_Z 0). change 255 with (inject_Z 255).
    rewrite <- !Zle_Qle. exact Hg. }
  assert (0 <= inject_Z b <= 255) as Qb.
  { change 0 with (inject_Z 0). change 255 with (inject_Z 255).
    rewrite <- !Zle_Qle. exact Hb. }
  split; lra.
Qed.

Lemma quarter_indices (l : list nat) :
  (fun i => i / 4)%nat <$> List.map (fun p => 4 * p)%nat l = l.
Proof.
  induction l as [|k l IH]; [reflexivity |].
  cbn [List.map]. rewrite fmap_cons, IH. f_equal.
  rewrite Nat.mul_comm. apply Nat.div_mul. lia.
Qed.

Lemma luminance_gray (v : Z) : luminance v v v == inject_Z v.
Proof. unfold luminance. ring. Qed.

Lemma rgbToGrayscale_cells (imageData : ImageData) :
  wellFormed imageData ->
  exists gray : list Q,
    rgbToGrayscale imageData = Ret gray
    /\ length gray = (width imageData * height imageData)%nat
    /\ forall p : nat, (p < width imageData * height imageData)%nat ->
         exists r g b : Z,
           data imageData !! (4 * p)%nat = Some r
           /\ data imageData !! (4 * p + 1)%nat = Some g
           /\ data imageData !! (4 * p + 2)%nat = Some b
           /\ gray !! p = Some (luminance r g b)
           /\ 0 <= luminance r g b <= 255
           /\ (r = g -> g = b -> luminance r g b == inject_Z r).
Proof.
  intros [Hlen Hbytes]. destruct imageData as [d w h]. cbn [data width height] in *.
  set (n := (w * h)%nat) in *.
  set (byte := fun i => match d !! i with Some v => v | None => 0%Z end).
  set (val := fun i => luminance (byte i) (byte (i + 1)%nat) (byte (i + 2)%nat)).
  assert (forall p j, (p < n)%nat -> (j < 4)%nat ->
            d !! (4 * p + j)%nat = Some (byte (4 * p + j)%nat)
            /\ (0 <= byte (4 * p + j)%nat <= 255)%Z) as Hbyte.
  { intros p j Hp Hj. unfold byte.
    destruct (lookup_lt_is_Some_2 d (4 * p + j)%nat) as [v Hv]; [lia |].
    rewrite Hv. split; [reflexivity |].
    rewrite Forall_forall in Hbytes. apply Hbytes.
    eapply list_elem_of_lookup_2. exact Hv. }
  exists (Utils.scatter (fun i => i / 4)%nat val
            (List.map (fun p => 4 * p)%nat (seq 0 n)) (replicate n 0)).
  split; [| split].
  - unfold rgbToGrayscale. cbn [data width height]. fold n.
    rewrite Hlen, stride_range_4.
    rewrite (for_eachO_pure _ (fun i s => <[(i / 4)%nat := val i]> s));
      [reflexivity |].
    intros i s Hin. apply in_map_iff in Hin as (p & <- & Hp).
    apply in_seq in Hp. unfold elem.
    destruct (Hbyte p 0%nat ltac:(lia) ltac:(lia)) as [H0 _].
    destruct (Hbyte p 1%nat ltac:(lia) ltac:(lia)) as [H1 _].
    destruct (Hbyte p 2%nat ltac:(lia) ltac:(lia)) as [H2 _].
    rewrite Nat.add_0_r in H0. rewrite H0, H1, H2. cbn [FFT.bind].
    reflexivity.
  - now rewrite scatter_length, length_replicate.
  - intros p Hp.
    destruct (Hbyte p 0%nat Hp ltac:(lia)) as [H0 B0].
    destruct (Hbyte p 1%nat Hp ltac:(lia)) as [H1 B1].
    destruct (Hbyte p 2%nat Hp ltac:(lia)) as [H2 B2].
    rewrite Nat.add_0_r in H0, B0.
    exists (byte (4 * p)%nat), (byte (4 * p + 1)%nat), (byte (4 * p + 2)%nat).
    split; [exact H0 |]. split; [exact H1 |]. split; [exact H2 |].
    split; [| split].
    + replace p with ((fun i => i / 4)%nat (4 * p)%nat) at 1
        by (cbv beta; rewrite Nat.mul_comm; apply Nat.div_mul; lia).
      apply (scatter_lookup (fun i => i / 4)%nat val _ _ (4 * p)%nat).
      * rewrite quarter_indices. apply NoDup_seq.
      * apply list_elem_of_In, in_map_iff. exists p. split; [reflexivity |].
        apply in_seq. lia.
      * cbv beta. rewrite length_replicate.
        rewrite Nat.mul_comm, Nat.div_mul; lia.
    + apply luminance_range; assumption.
    + intros <- <-. apply luminance_gray.
Qed.

(** X5.  On a well-formed pixel buffer (four bytes per pixel, in
    [0, 255]) [rgbToGrayscale] returns one value per pixel: the luminance
    [0.299 R + 0.587 G + 0.114 B] of that pixel, which lies in [0, 255] and
    is the common value of R, G and B for a grey pixel.  The alpha byte is
    not read. *)
Theorem rgbToGrayscale_spec (imageData : ImageData) :
  wellFormed imageData ->
  exists gray : list Q,
    rgbToGrayscale imageData = Ret gray
    /\ length gray = (width imageData * height imageData)%nat
    /\ forall p : nat, (p < width imageData * height imageData)%nat ->
         exists r g b : Z,
           data imageData !! (4 * p)%nat = Some r
           /\ data imageData !! (4 * p + 1)%nat = Some g
           /\ data imageData !! (4 * p + 2)%nat = Some b
           /\ gray !! p = Some (luminance r g b)
           /\ 0 <= luminance r g b <= 255
           /\ (r = g -> g = b -> luminance r g b == inject_Z r).
Proof. apply rgbToGrayscale_cells. Qed.

Lemma rgbToGrayscale_spec_witness :
  exists gray : list Q,
    rgbToGrayscale (mkImageData [255; 255; 255; 255; 10; 20; 30; 0]%Z 2 1)
    = Ret gray /\ length gray = 2%nat.
Proof.
  destruct (rgbToGrayscale_spec
              (mkImageData [255; 255; 255; 255; 10; 20; 30; 0]%Z 2 1))
    as (gray & Hrun & Hlen & _).
  - split; [reflexivity |]. repeat constructor; discriminate.
  - exists gray. split; [exact Hrun | exact Hlen].
Defined.

End Grayscale.

(** ** [Utils.applyHighPassFilter] *)

Lemma interior_dec (width height y x : nat) :
  {Frame.interior width height y x} + {~ Frame.interior width height y x}.
Proof.
  unfold Frame.interior.
  destruct (le_dec 1 y), (lt_dec (y + 1) height), (le_dec 1 x),
    (lt_dec (x + 1) width); (left; lia) || (right; lia).
Qed.

Section HighPass.

Import FFT Frame.
Local Open Scope Q_scope.

Variables (data : list Q) (width height : nat).
Hypothesis data_length : length data = (width * height)%nat.

Lemma elemZ_pixel (y x : nat) (ky kx : Z) (y' x' : nat) :
  (Z.of_nat y + ky = Z.of_nat y')%Z -> (Z.of_nat x + kx = Z.of_nat x')%Z ->
  (y' < height)%nat -> (x' < width)%nat ->
  elemZ data ((Z.of_nat y + ky) * Z.of_nat width + (Z.of_nat x + kx))%Z
  = Ret (pixel data width y' x').
Proof.
  intros Hy Hx Hy' Hx'. rewrite Hy, Hx. unfold elemZ, elem, pixel.
  destruct (Z.of_nat y' * Z.of_nat width + Z.of_nat x' <? 0)%Z eqn:E; [lia |].
  replace (Z.to_nat (Z.of_nat y' * Z.of_nat width + Z.of_nat x'))
    with (y' * width + x')%nat by lia.
  destruct (lookup_lt_is_Some_2 data (y' * width + x')%nat) as [v ->];
    [nia | reflexivity].
Qed.

Lemma kernelSum_interior (y x : nat) :
  (1 <= y)%nat -> (y + 1 < height)%nat -> (1 <= x)%nat -> (x + 1 < width)%nat ->
  exists v : Q, kernelSum data width y x = Ret v
                /\ v == highPassAt data width y x.
Proof.
  intros Hy1 Hy2 Hx1 Hx2. unfold kernelSum. cbn [foldO].
  rewrite (elemZ_pixel y x (-1) (-1) (y - 1) (x - 1)) by lia.
  rewrite (elemZ_pixel y x (-1) 0 (y - 1) x) by lia.
  rewrite (elemZ_pixel y x (-1) 1 (y - 1) (x + 1)) by lia.
  rewrite (elemZ_pixel y x 0 (-1) y (x - 1)) by lia.
  rewrite (elemZ_pixel y x 0 0 y x) by lia.
  rewrite (elemZ_pixel y x 0 1 y (x + 1)) by lia.
  rewrite (elemZ_pixel y x 1 (-1) (y + 1) (x - 1)) by lia.
  rewrite (elemZ_pixel y x 1 0 (y + 1) x) by lia.
  rewrite (elemZ_pixel y x 1 1 (y + 1) (x + 1)) by lia.
  cbn -[Qplus Qmult inject_Z pixel].
  eexists. split; [reflexivity |].
  unfold highPassAt. ring.
Qed.

Local Abbreviation interior := (Frame.interior width height).

Let cells : list (nat * nat) :=
  list_prod (seq 1 (height - 2)) (seq 1 (width - 2)).

Let dst (yx : nat * nat) : nat := (fst yx * width + snd yx)%nat.

Let val (yx : nat * nat) : Q :=
  match kernelSum data width (fst yx) (snd yx) with
  | Ret v => v
  | _ => 0
  end.

Lemma in_cells (y x : nat) : (y, x) ∈ cells <-> interior y x.
Proof.
  unfold cells, Frame.interior.
  rewrite list_elem_of_In, in_prod_iff, !in_seq. lia.
Qed.

Lemma cells_NoDup : NoDup (dst <$> cells).
Proof.
  apply NoDup_fmap_2_strong.
  - intros [y x] [y' x'] Hp Hq Heq. apply in_cells in Hp, Hq.
    unfold Frame.interior in *. unfold dst in Heq. cbn [fst snd] in Heq.
    apply rowcol_inj in Heq as [-> ->]; [reflexivity | lia | lia].
  - apply NoDup_list_prod; apply NoDup_seq.
Qed.

Lemma applyHighPassFilter_run :
  applyHighPassFilter data width height
  = Ret (Utils.scatter dst val cells (replicate (length data) 0)).
Proof.
  unfold applyHighPassFilter.
  rewrite (for_eachO_pure _
             (fun y s => for_each (seq 1 (width - 2))
                           (fun x s => <[(y * width + x)%nat := val (y, x)]> s) s)).
  - now rewrite (for_each_rows_flat
                   (fun y x s => <[(y * width + x)%nat := val (y, x)]> s)).
  - intros y s Hy. apply in_seq in Hy.
    apply for_eachO_pure. intros x s' Hx. apply in_seq in Hx.
    destruct (kernelSum_interior y x) as (v & Hv & _); [lia .. |].
    unfold val. cbn [fst snd]. now rewrite Hv.
Qed.

Lemma applyHighPassFilter_cells :
  exists filtered : list Q,
    applyHighPassFilter data width height = Ret filtered
    /\ length filtered = (width * height)%nat
    /\ forall y x : nat, (y < height)%nat -> (x < width)%nat ->
         exists v : Q,
           filtered !! (y * width + x)%nat = Some v
           /\ (interior y x -> v == highPassAt data width y x)
           /\ (~ interior y x -> v = 0).
Proof.
  eexists. split; [apply applyHighPassFilter_run |].
  split; [now rewrite scatter_length, length_replicate |].
  intros y x Hy Hx.
  destruct (interior_dec width height y x) as [Hin | Hout].
  - destruct (kernelSum_interior y x) as (v & Hv & Hval);
      [unfold Frame.interior in Hin; lia .. |].
    exists v. split; [| split; [now intros _ | contradiction]].
    rewrite (scatter_lookup dst val cells _ (y, x)).
    + unfold val. cbn [fst snd]. now rewrite Hv.
    + apply cells_NoDup.
    + now apply in_cells.
    + unfold dst. cbn [fst snd]. rewrite length_replicate, data_length. nia.
  - exists 0. split; [| split; [contradiction | reflexivity]].
    rewrite scatter_lookup_other.
    + apply lookup_replicate_2. rewrite data_length. nia.
    + intros Hmem. apply list_elem_of_fmap in Hmem as ([y' x'] & Heq & Hcell).
      apply in_cells in Hcell. unfold dst in Heq. cbn [fst snd] in Heq.
      assert (y = y' /\ x = x') as [-> ->].
      { unfold Frame.interior in Hcell. apply (rowcol_inj width); lia. }
      contradiction.
Qed.

(** X6.  On a [width * height] field [applyHighPassFilter] returns a
    field of the same size that is 0 on the border (first and last row,
    first and last column) and, at every interior pixel, is eight times
    the input there minus its eight neighbours. *)
Theorem applyHighPassFilter_spec :
  exists filtered : list Q,
    applyHighPassFilter data width height = Ret filtered
    /\ length filtered = (width * height)%nat
    /\ forall y x : nat, (y < height)%nat -> (x < width)%nat ->
         exists v : Q,
           filtered !! (y * width + x)%nat = Some v
           /\ (interior y x -> v == highPassAt data width y x)
           /\ (~ interior y x -> v = 0).
Proof. apply applyHighPassFilter_cells. Qed.

End HighPass.

Lemma applyHighPassFilter_spec_witness :
  exists filtered : list Q,
    Frame.applyHighPassFilter [1; 2; 3; 4; 5; 6; 7; 8; 100]%Q 3 3
    = FFT.Ret filtered /\ length filtered = 9%nat.
Proof.
  destruct (applyHighPassFilter_spec [1; 2; 3; 4; 5; 6; 7; 8; 100]%Q 3 3
              eq_refl)
    as (filtered & Hrun & Hlen & _).
  exists filtered. split; [exact Hrun | exact Hlen].
Defined.

Section HighPassConstant.

Import FFT Frame.
Local Open Scope Q_scope.

Lemma pixel_constant (data : list Q) (c : Q) (width y x : nat) :
  Forall (fun v => v == c) data ->
  (y * width + x < length data)%nat ->
  pixel data width y x == c.
Proof.
  intros Hall Hlt. unfold pixel.
  destruct (lookup_lt_is_Some_2 data (y * width + x)%nat Hlt) as [v Hv].
  rewrite Hv. rewrite Forall_lookup in Hall. exact (Hall _ _ Hv).
Qed.

Lemma highPass_of_constant (data : list Q) (width height : nat)
    (c : Q) :
  length data = (width * height)%nat ->
  Forall (fun v => v == c) data ->
  exists filtered : list Q,
    applyHighPassFilter data width height = Ret filtered
    /\ length filtered = (width * height)%nat
    /\ Forall (fun v => v == 0) filtered.
Proof.
  intros Hlen Hall.
  destruct (applyHighPassFilter_cells data width height Hlen)
    as (filtered & Hrun & Hflen & Hcell).
  exists filtered. split; [exact Hrun | split; [exact Hflen |]].
  apply Forall_lookup. intros i v Hv.
  assert (i < width * height)%nat as Hi.
  { rewrite <- Hflen. eapply lookup_lt_Some. exact Hv. }
  assert (0 < width)%nat as Hw by nia.
  pose proof (Nat.div_mod_eq i width) as Hdm.
  pose proof (Nat.mod_upper_bound i width ltac:(lia)) as Hx.
  assert (i / width < height)%nat as Hy.
  { apply Nat.Div0.div_lt_upper_bound. lia. }
  destruct (Hcell (i / width)%nat (i mod width)%nat Hy Hx)
    as (v' & Hv' & Hin & Hout).
  replace (i / width * width + i mod width)%nat with i in Hv' by lia.
  rewrite Hv in Hv'. injection Hv' as <-.
  destruct (interior_dec width height (i / width) (i mod width))
    as [Hint | Hnot]; [| now rewrite (Hout Hnot)].
  rewrite (Hin Hint). unfold highPassAt. unfold interior in Hint.
  rewrite !(pixel_constant data c) by (try exact Hall; rewrite Hlen; nia).
  ring.
Qed.

(** X7.  The high-pass filter removes a constant: on a [width * height]
    field whose values are all equal, every value of the filtered field
    is 0. *)
Theorem applyHighPassFilter_constant (data : list Q) (width height : nat)
    (c : Q) :
  length data = (width * height)%nat ->
  Forall (fun v => v == c) data ->
  exists filtered : list Q,
    applyHighPassFilter data width height = Ret filtered
    /\ length filtered = (width * height)%nat
    /\ Forall (fun v => v == 0) filtered.
Proof. apply highPass_of_constant. Qed.

Lemma applyHighPassFilter_constant_witness :
  exists filtered : list Q,
    applyHighPassFilter (replicate 12 (7 # 2)) 4 3 = Ret filtered
    /\ length filtered = (4 * 3)%nat
    /\ Forall (fun v => v == 0) filtered.
Proof.
  apply (applyHighPassFilter_constant (replicate 12 (7 # 2)) 4 3 (7 # 2)).
  - reflexivity.
  - repeat constructor.
Defined.

End HighPassConstant.

(** ** The inferno colour map *)

Section Inferno.

Import Heatmap.
Local Open Scope Q_scope.

Lemma round_range (x : Q) : 0 <= x <= 255 -> (0 <= round x <= 255)%Z.
Proof.
  intros [H0 H1]. unfold round. split.
  - change 0%Z with (Qfloor 0). apply Qfloor_resp_le. lra.
  - assert (Qfloor (x + (1 # 2)) < 256)%Z as H; [| lia].
    rewrite Zlt_Qlt. eapply Qle_lt_trans; [apply Qfloor_le |].
    change (inject_Z 256) with 256. lra.
Qed.

Lemma inject_Z_byte (a : Z) : (0 <= a <= 255)%Z -> 0 <= inject_Z a <= 255.
Proof.
  intros H. change 0 with (inject_Z 0). change 255 with (inject_Z 255).
  now rewrite <- !Zle_Qle.
Qed.

Lemma blend_range (a b : Z) (t : Q) :
  (0 <= a <= 255)%Z -> (0 <= b <= 255)%Z -> 0 <= t <= 1 ->
  (0 <= blend a b t <= 255)%Z.
Proof.
  intros Ha Hb Ht. apply round_range.
  pose proof (inject_Z_byte a Ha). pose proof (inject_Z_byte b Hb).
  split; nra.
Qed.

Lemma colormap_entries :
  Forall (fun c : Z * Z * Z =>
            (0 <= c.1.1 <= 255)%Z /\ (0 <= c.1.2 <= 255)%Z
            /\ (0 <= c.2 <= 255)%Z) colormapData.
Proof. repeat constructor; cbn; lia. Qed.

Lemma index_range (value : Q) :
  0 <= value ->
  let index := Z.min (Qfloor (value * inject_Z 7)) 6 in
  (0 <= index <= 6)%Z /\ 0 <= value * inject_Z 7 - inject_Z index
  /\ (value <= 1 -> value * inject_Z 7 - inject_Z index <= 1).
Proof.
  intros H0 index. change (inject_Z 7) with 7 in *.
  pose proof (Qfloor_le (value * 7)) as Hlo.
  pose proof (Qlt_floor (value * 7)) as Hhi.
  rewrite inject_Z_plus in Hhi. change (inject_Z 1) with 1 in Hhi.
  assert (0 <= Qfloor (value * 7))%Z as Hf0.
  { change 0%Z with (Qfloor 0). apply Qfloor_resp_le. lra. }
  assert (inject_Z index <= inject_Z (Qfloor (value * 7))) as Hi.
  { rewrite <- Zle_Qle. subst index. lia. }
  split; [subst index; lia |]. split; [lra |].
  intros H1. destruct (Z.le_gt_cases (Qfloor (value * 7)) 6) as [Hle | Hgt].
  - subst index. rewrite Z.min_l by exact Hle. lra.
  - subst index. rewrite Z.min_r by lia. change (inject_Z 6) with 6. lra.
Qed.

End Inferno.

Section InfernoRange.

Import Heatmap.
Local Open Scope Q_scope.

Lemma round_between (lo hi : Z) (x : Q) :
  inject_Z lo <= x <= inject_Z hi -> (lo <= round x <= hi)%Z.
Proof.
  intros [H0 H1]. unfold round. split.
  - rewrite <- (Qfloor_Z lo). apply Qfloor_resp_le. lra.
  - assert (Qfloor (x + (1 # 2)) < hi + 1)%Z as H; [| lia].
    rewrite Zlt_Qlt. eapply Qle_lt_trans; [apply Qfloor_le |].
    rewrite inject_Z_plus. change (inject_Z 1) with 1. lra.
Qed.

Lemma blend_between (a b : Z) (t : Q) :
  0 <= t <= 1 -> (Z.min a b <= blend a b t <= Z.max a b)%Z.
Proof.
  intros Ht. apply round_between.
  assert (inject_Z (Z.min a b) <= inject_Z a) by (rewrite <- Zle_Qle; lia).
  assert (inject_Z (Z.min a b) <= inject_Z b) by (rewrite <- Zle_Qle; lia).
  assert (inject_Z a <= inject_Z (Z.max a b)) by (rewrite <- Zle_Qle; lia).
  assert (inject_Z b <= inject_Z (Z.max a b)) by (rewrite <- Zle_Qle; lia).
  split; nra.
Qed.

Lemma blend_start (a b : Z) (t : Q) : t == 0 -> blend a b t = a.
Proof.
  intros Ht. assert (a <= blend a b t <= a)%Z; [| lia].
  apply round_between. rewrite Ht. split; lra.
Qed.

Lemma blend_end (a b : Z) (t : Q) : t == 1 -> blend a b t = b.
Proof.
  intros Ht. assert (b <= blend a b t <= b)%Z; [| lia].
  apply round_between. rewrite Ht. split; lra.
Qed.

Lemma seventh_times (a : Q) : a / 7 * 7 == a.
Proof. field. Qed.

Lemma seventh_le (a v : Q) : a / 7 <= v -> a <= v * 7.
Proof.
  intros H. apply (Qmult_le_compat_r _ _ 7) in H; [| discriminate].
  now rewrite seventh_times in H.
Qed.

Lemma le_seventh (a v : Q) : v <= a / 7 -> v * 7 <= a.
Proof.
  intros H. apply (Qmult_le_compat_r _ _ 7) in H; [| discriminate].
  now rewrite seventh_times in H.
Qed.

Lemma lookupZ_nat {A} (a : list A) (k : nat) :
  lookupZ a (Z.of_nat k) = a !! k.
Proof.
  unfold lookupZ. destruct (Z.ltb_spec (Z.of_nat k) 0); [lia |].
  now rewrite Nat2Z.id.
Qed.

Lemma infernoColormap_at (value : Q) (k : nat) (c1 c2 : Z * Z * Z) :
  Z.min (Qfloor (value * inject_Z 7)) 6 = Z.of_nat k ->
  colormapData !! k = Some c1 -> colormapData !! S k = Some c2 ->
  let t := value * inject_Z 7 - inject_Z (Z.of_nat k) in
  infernoColormap value
  = Ok (blend c1.1.1 c2.1.1 t, blend c1.1.2 c2.1.2 t, blend c1.2 c2.2 t).
Proof.
  intros Hk H1 H2 t. unfold infernoColormap.
  change (Z.of_nat (length colormapData)) with 8%Z.
  change (8 - 1)%Z with 7%Z. change (8 - 2)%Z with 6%Z.
  rewrite Hk. replace (Z.of_nat k + 1)%Z with (Z.of_nat (S k)) by lia.
  rewrite !lookupZ_nat, H1, H2.
  destruct c1 as [[r1 g1] b1], c2 as [[r2 g2] b2]. reflexivity.
Qed.

Lemma infernoColormap_negative (value : Q) :
  value < 0 -> infernoColormap value = TypeError.
Proof.
  intros Hneg. unfold infernoColormap.
  change (Z.of_nat (length colormapData)) with 8%Z.
  change (8 - 1)%Z with 7%Z. change (8 - 2)%Z with 6%Z.
  assert (Qfloor (value * inject_Z 7) < 0)%Z as Hf.
  { rewrite Zlt_Qlt. eapply Qle_lt_trans; [apply Qfloor_le |].
    change (inject_Z 7) with 7. change (inject_Z 0) with 0. lra. }
  unfold lookupZ at 1.
  destruct (Z.ltb_spec (Z.min (Qfloor (value * inject_Z 7)) 6) 0);
    [reflexivity | lia].
Qed.

Lemma infernoColormap_nonneg (value : Q) :
  0 <= value ->
  exists r g b : Z,
    infernoColormap value = Ok (r, g, b)
    /\ (value <= 1 ->
        (0 <= r <= 255)%Z /\ (0 <= g <= 255)%Z /\ (0 <= b <= 255)%Z).
Proof.
  intros H0. destruct (index_range value H0) as (Hi & Ht0 & Ht1).
  set (k := Z.to_nat (Z.min (Qfloor (value * inject_Z 7)) 6)).
  assert (Z.min (Qfloor (value * inject_Z 7)) 6 = Z.of_nat k) as Hk
    by (subst k; lia).
  assert (k < 7)%nat as Hk7 by lia.
  destruct (lookup_lt_is_Some_2 colormapData k) as [c1 H1];
    [cbn; lia |].
  destruct (lookup_lt_is_Some_2 colormapData (S k)) as [c2 H2];
    [cbn; lia |].
  rewrite (infernoColormap_at value k c1 c2 Hk H1 H2).
  do 3 eexists. split; [reflexivity |].
  intros Hv1. specialize (Ht1 Hv1). rewrite Hk in Ht0, Ht1.
  pose proof colormap_entries as Hall.
  pose proof (proj1 (Forall_lookup _ _) Hall _ _ H1) as (? & ? & ?).
  pose proof (proj1 (Forall_lookup _ _) Hall _ _ H2) as (? & ? & ?).
  repeat split; apply blend_range; try assumption; tauto.
Qed.

(** X8 ([Utils.infernoColormap], utils.js lines 143-167).  A negative value
    makes the table index negative, so [colormapData[index]] is undefined
    and reading its component is a [TypeError].  Every value that is not
    negative gives a colour; for a value of the documented range 0..1 its
    three channels are bytes, 0 to 255, and for a value above 1 the
    extrapolation leaves the byte range (at 3/2 the red channel is 259). *)
Theorem infernoColormap_range (value : Q) :
  (value < 0 -> infernoColormap value = TypeError)
  /\ (0 <= value ->
      exists r g b : Z,
        infernoColormap value = Ok (r, g, b)
        /\ (value <= 1 ->
            (0 <= r <= 255)%Z /\ (0 <= g <= 255)%Z /\ (0 <= b <= 255)%Z))
  /\ infernoColormap (3 # 2) = Ok (259, 472, 602)%Z.
Proof.
  split; [apply infernoColormap_negative |].
  split; [apply infernoColormap_nonneg |].
  vm_compute. reflexivity.
Qed.

Lemma infernoColormap_range_witness :
  (0 <= 1 # 2)
  /\ exists r g b : Z,
       infernoColormap (1 # 2) = Ok (r, g, b)
       /\ (0 <= r <= 255)%Z /\ (0 <= g <= 255)%Z /\ (0 <= b <= 255)%Z.
Proof.
  assert (0 <= 1 # 2) as H0 by (vm_compute; discriminate).
  split; [exact H0 |].
  destruct (proj1 (proj2 (infernoColormap_range (1 # 2))) H0)
    as (r & g & b & Hc & Hr).
  exists r, g, b. split; [exact Hc |]. apply Hr. vm_compute. discriminate.
Defined.

(** X9 ([Utils.infernoColormap], utils.js lines 143-167).  The colour map
    interpolates its table: between the knots [k/7] and [(k+1)/7] every
    channel lies between the channels of table entries [k] and [k+1], at
    the knot [k/7] the colour is entry [k] itself, and at [(k+1)/7] it is
    entry [k+1]. *)
Theorem infernoColormap_interpolates (k : nat) (value : Q) (c1 c2 : Z * Z * Z) :
  colormapData !! k = Some c1 -> colormapData !! S k = Some c2 ->
  Num.ofNat k / 7 <= value <= Num.ofNat (S k) / 7 ->
  exists r g b : Z,
    infernoColormap value = Ok (r, g, b)
    /\ (Z.min c1.1.1 c2.1.1 <= r <= Z.max c1.1.1 c2.1.1)%Z
    /\ (Z.min c1.1.2 c2.1.2 <= g <= Z.max c1.1.2 c2.1.2)%Z
    /\ (Z.min c1.2 c2.2 <= b <= Z.max c1.2 c2.2)%Z
    /\ (value == Num.ofNat k / 7 -> (r, g, b) = c1)
    /\ (value == Num.ofNat (S k) / 7 -> (r, g, b) = c2).
Proof.
  intros H1 H2 [Hlo Hhi].
  assert (S k < 8)%nat as Hk8.
  { apply lookup_lt_Some in H2. exact H2. }
  unfold Num.ofNat in *.
  assert (inject_Z (Z.of_nat (S k)) == inject_Z (Z.of_nat k) + 1) as HS.
  { rewrite Nat2Z.inj_succ. unfold Z.succ. rewrite inject_Z_plus.
    reflexivity. }
  assert (inject_Z (Z.of_nat k) <= value * 7 <= inject_Z (Z.of_nat k) + 1)
    as [H7lo H7hi].
  { rewrite <- HS. split; [now apply seventh_le | now apply le_seventh]. }
  change (inject_Z 7) with 7 in *.
  pose proof (Qfloor_le (value * 7)) as Hfl.
  pose proof (Qlt_floor (value * 7)) as Hfh.
  rewrite inject_Z_plus in Hfh. change (inject_Z 1) with 1 in Hfh.
  assert (Z.of_nat k <= Qfloor (value * 7) <= Z.of_nat k + 1)%Z as Hf.
  { split.
    - rewrite <- (Qfloor_Z (Z.of_nat k)). now apply Qfloor_resp_le.
    - rewrite <- (Qfloor_Z (Z.of_nat k + 1)). apply Qfloor_resp_le.
      rewrite inject_Z_plus. exact H7hi. }
  destruct (Z.eq_dec (Z.min (Qfloor (value * 7)) 6) (Z.of_nat k)) as [Hk | Hk].
  - (* the index is k *)
    pose proof (infernoColormap_at value k c1 c2 Hk H1 H2) as Hc.
    cbv zeta in Hc. change (inject_Z 7) with 7 in Hc. rewrite Hc.
    set (t := value * 7 - inject_Z (Z.of_nat k)).
    assert (0 <= t <= 1) as Ht by (subst t; split; lra).
    do 3 eexists. split; [reflexivity |].
    split; [now apply blend_between |].
    split; [now apply blend_between |].
    split; [now apply blend_between |].
    split.
    + intros Hv. assert (t == 0) as Ht0.
      { subst t. rewrite Hv. field. }
      rewrite !(blend_start _ _ t Ht0).
      now destruct c1 as [[? ?] ?].
    + intros Hv. assert (t == 1) as Ht1.
      { subst t. rewrite Hv, HS. field. }
      rewrite !(blend_end _ _ t Ht1).
      now destruct c2 as [[? ?] ?].
  - (* the value is the upper knot and the index is k + 1 *)
    assert (Qfloor (value * 7) = Z.of_nat k + 1 /\ Z.of_nat k + 1 <= 6)%Z
      as [Hfe Hk6] by lia.
    assert (value * 7 == inject_Z (Z.of_nat k) + 1) as Hv7.
    { apply Qle_antisym; [exact H7hi |].
      rewrite Hfe, inject_Z_plus in Hfl. exact Hfl. }
    assert (Z.min (Qfloor (value * 7)) 6 = Z.of_nat (S k)) as HkS by lia.
    destruct (lookup_lt_is_Some_2 colormapData (S (S k))) as [c3 H3];
      [cbn; lia |].
    pose proof (infernoColormap_at value (S k) c2 c3 HkS H2 H3) as Hc.
    cbv zeta in Hc. change (inject_Z 7) with 7 in Hc. rewrite Hc.
    set (t := value * 7 - inject_Z (Z.of_nat (S k))).
    assert (t == 0) as Ht0 by (subst t; rewrite Hv7, HS; ring).
    rewrite !(blend_start _ _ t Ht0).
    do 3 eexists. split; [reflexivity |].
    repeat split; try lia.
    + intros Hv. exfalso. rewrite Hv, seventh_times in Hv7. lra.
    + intros _. now destruct c2 as [[? ?] ?].
Qed.

Lemma infernoColormap_interpolates_witness :
  exists r g b : Z,
    infernoColormap (1 # 2) = Ok (r, g, b)
    /\ (159 <= r <= 212)%Z /\ (42 <= g <= 72)%Z /\ (66 <= b <= 99)%Z.
Proof.
  destruct (infernoColormap_interpolates 3 (1 # 2) (159, 42, 99)%Z
              (212, 72, 66)%Z eq_refl eq_refl)
    as (r & g & b & Hc & Hr & Hg & Hb & _).
  { split; vm_compute; discriminate. }
  exists r, g, b. cbn in Hr, Hg, Hb. repeat split; (exact Hc || lia).
Defined.

End InfernoRange.

(** ** The pixel buffer of the heat map *)

Section RenderPixels.

Import Heatmap.
Local Open Scope Q_scope.

Local Abbreviation byte := (fun v : Z => (0 <= v <= 255)%Z).

Lemma toUint8Clamp_byte (c : Z) :
  (0 <= c <= 255)%Z -> Num.toUint8Clamp (inject_Z c) = c.
Proof.
  intros Hc.
  pose proof (toUint8Clamp_near (inject_Z c) (inject_Z_byte c Hc)) as Hn.
  apply Qabs_Qle_condition in Hn. destruct Hn as [Hlo Hhi].
  set (u := Num.toUint8Clamp (inject_Z c)) in *.
  assert (inject_Z (u - 1) < inject_Z c) as H1.
  { unfold Z.sub. rewrite inject_Z_plus, inject_Z_opp.
    change (inject_Z 1) with 1. lra. }
  assert (inject_Z c < inject_Z (u + 1)) as H2.
  { rewrite inject_Z_plus. change (inject_Z 1) with 1. lra. }
  rewrite <- Zlt_Qlt in H1, H2. lia.
Qed.

Lemma unit_of_byte (v : Z) :
  (0 <= v <= 255)%Z -> 0 <= inject_Z v / 255 <= 1.
Proof.
  intros Hv. pose proof (inject_Z_byte v Hv) as [H0 H1]. split.
  - apply Qle_shift_div_l; [reflexivity | lra].
  - apply Qle_shift_div_r; [reflexivity | lra].
Qed.

Lemma fillPixels_run (normalized : list Z) :
  Forall byte normalized ->
  forall (i : nat) (pixels : list Z),
    exists out : list Z,
      fillPixels normalized i pixels = Ok out
      /\ length out = length pixels
      /\ (Forall byte pixels -> Forall byte out)
      /\ (forall k : nat,
            (k < i * 4 \/ (i + length normalized) * 4 <= k)%nat ->
            out !! k = pixels !! k)
      /\ (forall (j : nat) (v : Z),
            normalized !! j = Some v ->
            ((i + j) * 4 + 3 < length pixels)%nat ->
            exists r g b : Z,
              infernoColormap (inject_Z v / 255) = Ok (r, g, b)
              /\ out !! ((i + j) * 4)%nat = Some r
              /\ out !! ((i + j) * 4 + 1)%nat = Some g
              /\ out !! ((i + j) * 4 + 2)%nat = Some b
              /\ out !! ((i + j) * 4 + 3)%nat = Some 255%Z).
Proof.
  induction 1 as [| v rest Hv Hrest IH]; intros i pixels.
  - exists pixels. cbn. repeat split; try tauto.
    intros j v Hj. now rewrite lookup_nil in Hj.
  - pose proof (unit_of_byte v Hv) as [Hu0 Hu1].
    destruct (infernoColormap_nonneg (inject_Z v / 255) Hu0)
      as (r & g & b & Hc & Hrange).
    destruct (Hrange Hu1) as (Hr & Hg & Hb).
    cbn [fillPixels]. cbv zeta. rewrite Hc.
    rewrite !toUint8Clamp_byte by assumption.
    change (Num.toUint8Clamp 255) with 255%Z.
    set (pixels' := <[(i * 4 + 3)%nat := 255%Z]>
                      (<[(i * 4 + 2)%nat := b]>
                         (<[(i * 4 + 1)%nat := g]>
                            (<[(i * 4)%nat := r]> pixels)))).
    destruct (IH (S i) pixels') as (out & Hout & Hlen & Hbytes & Hframe & Hfill).
    assert (length pixels' = length pixels) as Hlen'.
    { subst pixels'. now rewrite !length_insert. }
    exists out. split; [exact Hout |].
    split; [congruence |].
    split.
    { intros Hp. apply Hbytes. subst pixels'.
      repeat (apply Forall_insert; [| lia]). exact Hp. }
    split.
    { intros k Hk. cbn [length] in Hk.
      rewrite Hframe by lia. subst pixels'.
      rewrite !list_lookup_insert_ne by lia. reflexivity. }
    intros [| j] w Hj Hbound.
    + cbn in Hj. injection Hj as <-. rewrite Nat.add_0_r in *.
      exists r, g, b. split; [exact Hc |].
      rewrite !Hframe by lia. subst pixels'.
      repeat split.
      * rewrite !list_lookup_insert_ne by lia.
        apply list_lookup_insert_eq. lia.
      * rewrite !list_lookup_insert_ne by lia.
        apply list_lookup_insert_eq. rewrite length_insert. lia.
      * rewrite !list_lookup_insert_ne by lia.
        apply list_lookup_insert_eq. rewrite !length_insert. lia.
      * apply list_lookup_insert_eq. rewrite !length_insert. lia.
    + cbn in Hj.
      replace (i + S j)%nat with (S i + j)%nat by lia.
      apply Hfill; [exact Hj |]. rewrite Hlen'. lia.
Qed.

(** X10 ([FFTVisualizer.render], visualizer.js lines 36-57, with
    [Utils.normalize] and [Utils.infernoColormap]).  For an image with
    pixels, filling the pixel buffer never fails, whatever the spectrum:
    the buffer keeps its [4 * width * height] bytes, every pixel that has
    a spectrum value gets the colour of [normalized[i] / 255] unchanged by
    the byte store and the alpha byte 255, and the bytes past the spectrum
    stay 0.  Without pixels [createImageData] throws. *)
Theorem renderPixels_spec (magnitude : list Q) (width height : nat) :
  ((0 < width)%nat -> (0 < height)%nat ->
   exists pixels : list Z,
     renderPixels magnitude width height = Ok pixels
     /\ length pixels = (4 * (width * height))%nat
     /\ Forall (fun p => (0 <= p <= 255)%Z) pixels
     /\ (forall (i : nat) (v : Z),
           Utils.normalize magnitude !! i = Some v ->
           (i < width * height)%nat ->
           exists r g b : Z,
             infernoColormap (inject_Z v / 255) = Ok (r, g, b)
             /\ pixels !! (i * 4)%nat = Some r
             /\ pixels !! (i * 4 + 1)%nat = Some g
             /\ pixels !! (i * 4 + 2)%nat = Some b
             /\ pixels !! (i * 4 + 3)%nat = Some 255%Z)
     /\ (forall k : nat,
           (length magnitude * 4 <= k < 4 * (width * height))%nat ->
           pixels !! k = Some 0%Z))
  /\ (width = 0%nat \/ height = 0%nat ->
      renderPixels magnitude width height = IndexSizeError).
Proof.
  split.
  - intros Hw Hh. unfold renderPixels.
    destruct (Nat.eqb_spec width 0); [lia |].
    destruct (Nat.eqb_spec height 0); [lia |]. cbn [orb].
    destruct (fillPixels_run (Utils.normalize magnitude)
                (normalize_range magnitude) 0
                (replicate (4 * (width * height)) 0%Z))
      as (out & Hout & Hlen & Hbytes & Hframe & Hfill).
    rewrite length_replicate in Hlen, Hfill.
    exists out. split; [exact Hout |]. split; [exact Hlen |].
    split.
    { apply Hbytes. apply Forall_replicate. lia. }
    split.
    + intros i v Hi Hlt.
      destruct (Hfill i v Hi) as (r & g & b & H); [cbn; lia |].
      exists r, g, b. exact H.
    + intros k [Hk1 Hk2]. rewrite Hframe.
      * apply lookup_replicate_2. exact Hk2.
      * right. rewrite normalize_length. cbn. lia.
  - intros Hzero. unfold renderPixels.
    destruct (Nat.eqb_spec width 0), (Nat.eqb_spec height 0);
      try reflexivity. lia.
Qed.

Lemma renderPixels_spec_witness :
  exists pixels : list Z,
    renderPixels [0; 1; 2; 4] 2 2 = Ok pixels
    /\ length pixels = 16%nat
    /\ pixels !! 15%nat = Some 255%Z.
Proof.
  destruct (proj1 (renderPixels_spec [0; 1; 2; 4] 2 2))
    as (pixels & Hrun & Hlen & _ & Hcells & _); [lia | lia |].
  exists pixels. split; [exact Hrun |]. split; [exact Hlen |].
  destruct (Hcells 3%nat 255%Z eq_refl ltac:(lia))
    as (r & g & b & _ & _ & _ & _ & Ha).
  exact Ha.
Defined.

End RenderPixels.

(** * The 1D transform computes the discrete Fourier transform *)

(** ** Complex sums *)

Section ComplexSums.

Import Fourier.
Local Open Scope R_scope.

Lemma C_eq (a b : C) : a.1 = b.1 -> a.2 = b.2 -> a = b.
Proof. destruct a, b. cbn. now intros -> ->. Qed.

Lemma Cmul_assoc (a b c : C) : Cmul a (Cmul b c) = Cmul (Cmul a b) c.
Proof. apply C_eq; cbn; ring. Qed.

Lemma Cmul_comm (a b : C) : Cmul a b = Cmul b a.
Proof. apply C_eq; cbn; ring. Qed.

Lemma cis_0 : cis 0 = (1, 0).
Proof. unfold cis. now rewrite cos_0, sin_0. Qed.

Lemma cis_add (a b : R) : cis (a + b) = Cmul (cis a) (cis b).
Proof.
  unfold cis, Cmul. cbn. rewrite cos_plus, sin_plus. f_equal. ring.
Qed.

Lemma cis_turns (x : R) (k : nat) : cis (x - 2 * INR k * PI) = cis x.
Proof.
  unfold cis.
  rewrite <- (cos_period (x - 2 * INR k * PI) k).
  rewrite <- (sin_period (x - 2 * INR k * PI) k).
  now replace (x - 2 * INR k * PI + 2 * INR k * PI) with x by ring.
Qed.

Lemma cis_half_turn (x : R) : cis (x - PI) = Cmul (cis x) (-1, 0).
Proof.
  unfold cis, Cmul. cbn.
  pose proof (neg_cos (x - PI)) as Hc. pose proof (neg_sin (x - PI)) as Hs.
  replace (x - PI + PI) with x in Hc, Hs by ring.
  rewrite Hc, Hs. f_equal; ring.
Qed.

Lemma Csum_ext (n : nat) (f g : nat -> C) :
  (forall t : nat, (t < n)%nat -> f t = g t) -> Csum n f = Csum n g.
Proof.
  induction n as [|n IH]; intros H; [reflexivity |].
  cbn [Csum]. rewrite IH, (H n) by (intros; auto with arith). reflexivity.
Qed.

Lemma Csum_mul_l (n : nat) (c : C) (f : nat -> C) :
  Csum n (fun t => Cmul c (f t)) = Cmul c (Csum n f).
Proof.
  induction n as [|n IH]; cbn [Csum].
  - apply C_eq; cbn; ring.
  - rewrite IH. apply C_eq; cbn; ring.
Qed.

Lemma Csum_even_odd (n : nat) (f : nat -> C) :
  Csum (2 * n) f
  = Cadd (Csum n (fun t => f (2 * t)%nat))
         (Csum n (fun t => f (2 * t + 1)%nat)).
Proof.
  induction n as [|n IH].
  - apply C_eq; cbn; ring.
  - replace (2 * S n)%nat with (S (S (2 * n))) by lia.
    cbn [Csum]. rewrite IH.
    replace (S (2 * n)) with (2 * n + 1)%nat by lia.
    apply C_eq; cbn; ring.
Qed.

Lemma Csum_zero (n : nat) (f : nat -> C) :
  (forall t : nat, (t < n)%nat -> f t = (0, 0)) -> Csum n f = (0, 0).
Proof.
  induction n as [|n IH]; intros H; [reflexivity |].
  cbn [Csum]. rewrite IH, (H n) by (intros; auto with arith).
  apply C_eq; cbn; ring.
Qed.

End ComplexSums.

(** ** One stage of butterflies doubles the length of the transforms *)

Section StageMath.

Import Fourier.
Local Open Scope R_scope.

Lemma rev_even (w B : nat) : rev (S w) (2 * B) = rev w B.
Proof.
  cbn [rev]. replace (2 * B)%nat with (B * 2)%nat by lia.
  rewrite Nat.Div0.mod_mul, Nat.div_mul by lia. lia.
Qed.

Lemma rev_odd (w B : nat) : rev (S w) (2 * B + 1) = (2 ^ w + rev w B)%nat.
Proof.
  cbn [rev]. replace (2 * B + 1)%nat with (1 + B * 2)%nat by lia.
  rewrite Nat.Div0.mod_add, Nat.div_add by lia.
  change (1 mod 2)%nat with 1%nat. change (1 / 2)%nat with 0%nat.
  rewrite Nat.add_0_l. lia.
Qed.

Lemma rev_lt (w v : nat) : (rev w v < 2 ^ w)%nat.
Proof.
  revert v. induction w as [|w IH]; intros v; cbn [rev].
  - cbn. lia.
  - rewrite Nat.pow_succ_r'. specialize (IH (v / 2)%nat).
    pose proof (Nat.mod_upper_bound v 2 ltac:(lia)) as Hm.
    assert (v mod 2 * 2 ^ w <= 1 * 2 ^ w)%nat
      by (apply Nat.mul_le_mono_r; lia).
    lia.
Qed.

Lemma pow2_pos_nat (s : nat) : (1 <= 2 ^ s)%nat.
Proof. pose proof (Nat.pow_nonzero 2 s). lia. Qed.

Lemma partial_at (w s : nat) (x : nat -> C) (b k : nat) :
  (k < 2 ^ s)%nat ->
  partial w s x (b * 2 ^ s + k)
  = dftOf (2 ^ s) (fun t => x (rev w b + 2 ^ w * t)%nat) k.
Proof.
  intros Hk. unfold partial. cbv zeta.
  pose proof (pow2_pos_nat s).
  replace (b * 2 ^ s + k)%nat with (k + b * 2 ^ s)%nat by lia.
  rewrite Nat.div_add, Nat.Div0.mod_add by lia.
  rewrite Nat.div_small, Nat.mod_small by lia. reflexivity.
Qed.

Variables (w s : nat) (x : nat -> C).

Local Abbreviation L := (2 ^ s)%nat.
Local Abbreviation angle := (- 2 * PI / INR (2 * 2 ^ s)).

Lemma INR_L_pos : 0 < INR L.
Proof. apply lt_0_INR. pose proof (pow2_pos_nat s). lia. Qed.

Lemma even_terms (B k : nat) :
  Csum L (fun t => Cmul (x (rev w B + 2 ^ w * (2 * t))%nat)
                     (cis (- (2 * PI * INR (2 * t) * INR k / INR (2 * L)))))
  = dftOf L (fun t => x (rev (S w) (2 * B) + 2 ^ S w * t)%nat) k.
Proof.
  unfold dftOf. apply Csum_ext. intros t _.
  pose proof INR_L_pos as HL.
  rewrite rev_even, Nat.pow_succ_r'. f_equal; [f_equal; lia |].
  f_equal. rewrite !mult_INR. change (INR 2) with 2. field. lra.
Qed.

Lemma odd_terms (B k : nat) :
  Csum L (fun t => Cmul (x (rev w B + 2 ^ w * (2 * t + 1))%nat)
                     (cis (- (2 * PI * INR (2 * t + 1) * INR k
                              / INR (2 * L)))))
  = Cmul (cis (INR k * angle))
         (dftOf L (fun t => x (rev (S w) (2 * B + 1) + 2 ^ S w * t)%nat) k).
Proof.
  unfold dftOf. rewrite <- Csum_mul_l. apply Csum_ext. intros t _.
  pose proof INR_L_pos as HL.
  rewrite rev_odd, Nat.pow_succ_r'.
  replace (rev w B + 2 ^ w * (2 * t + 1))%nat
    with (2 ^ w + rev w B + 2 * 2 ^ w * t)%nat by lia.
  rewrite (Cmul_comm (cis (INR k * angle))), <- Cmul_assoc. f_equal.
  rewrite <- cis_add. f_equal.
  rewrite plus_INR, !mult_INR. change (INR 2) with 2. change (INR 1) with 1.
  field. lra.
Qed.

Lemma even_terms_hi (B k : nat) :
  (L <= k)%nat ->
  Csum L (fun t => Cmul (x (rev w B + 2 ^ w * (2 * t))%nat)
                     (cis (- (2 * PI * INR (2 * t) * INR k / INR (2 * L)))))
  = dftOf L (fun t => x (rev (S w) (2 * B) + 2 ^ S w * t)%nat) (k - L).
Proof.
  intros Hk. unfold dftOf. apply Csum_ext. intros t _.
  pose proof INR_L_pos as HL.
  rewrite rev_even, Nat.pow_succ_r'. f_equal; [f_equal; lia |].
  rewrite <- (cis_turns (- (2 * PI * INR t * INR (k - L) / INR L)) t).
  f_equal. rewrite minus_INR, !mult_INR by exact Hk.
  change (INR 2) with 2. field. lra.
Qed.

Lemma odd_terms_hi (B k : nat) :
  (L <= k)%nat ->
  Csum L (fun t => Cmul (x (rev w B + 2 ^ w * (2 * t + 1))%nat)
                     (cis (- (2 * PI * INR (2 * t + 1) * INR k
                              / INR (2 * L)))))
  = Cmul (-1, 0)
      (Cmul (cis (INR (k - L) * angle))
         (dftOf L (fun t => x (rev (S w) (2 * B + 1) + 2 ^ S w * t)%nat)
                (k - L))).
Proof.
  intros Hk. unfold dftOf. rewrite <- !Csum_mul_l. apply Csum_ext.
  intros t _. pose proof INR_L_pos as HL.
  rewrite rev_odd, Nat.pow_succ_r'.
  replace (rev w B + 2 ^ w * (2 * t + 1))%nat
    with (2 ^ w + rev w B + 2 * 2 ^ w * t)%nat by lia.
  rewrite (Cmul_comm (cis (INR (k - L) * angle))), <- Cmul_assoc.
  rewrite (Cmul_comm (-1, 0)), <- Cmul_assoc. f_equal.
  rewrite <- cis_add, <- cis_half_turn.
  rewrite <- (cis_turns (- (2 * PI * INR t * INR (k - L) / INR L)
                         + INR (k - L) * angle - PI) t).
  f_equal. rewrite minus_INR, !plus_INR, !mult_INR by exact Hk.
  change (INR 2) with 2. change (INR 1) with 1. field. lra.
Qed.

(** The butterflies of half-length [2^s] turn the transforms of length
    [2^s] into the transforms of length [2^(s+1)]. *)
Lemma stage_partial (p : nat) :
  stage L angle (partial (S w) s x) p = partial w (S s) x p.
Proof.
  pose proof (pow2_pos_nat s) as HL1.
  pose proof (Nat.div_mod_eq p (2 * L)) as Hp.
  pose proof (Nat.mod_upper_bound p (2 * L) ltac:(lia)) as Hk.
  set (B := (p / (2 * L))%nat) in *. set (k' := (p mod (2 * L))%nat) in *.
  assert (partial w (S s) x p
          = dftOf (2 * L) (fun u => x (rev w B + 2 ^ w * u)%nat) k') as ->.
  { unfold partial. cbv zeta. rewrite Nat.pow_succ_r'. reflexivity. }
  unfold stage. cbv zeta. fold k'.
  unfold dftOf at 1. rewrite Csum_even_odd.
  destruct (Nat.ltb_spec k' L) as [Hlo | Hhi].
  - assert (partial (S w) s x p
            = dftOf L (fun t => x (rev (S w) (2 * B) + 2 ^ S w * t)%nat) k')
      as ->.
    { rewrite <- partial_at by exact Hlo. f_equal. lia. }
    assert (partial (S w) s x (p + L)
            = dftOf L (fun t => x (rev (S w) (2 * B + 1) + 2 ^ S w * t)%nat)
                    k') as ->.
    { rewrite <- partial_at by exact Hlo. f_equal. lia. }
    now rewrite even_terms, odd_terms.
  - assert (partial (S w) s x (p - L)
            = dftOf L (fun t => x (rev (S w) (2 * B) + 2 ^ S w * t)%nat)
                    (k' - L)) as ->.
    { rewrite <- partial_at by lia. f_equal. lia. }
    assert (partial (S w) s x p
            = dftOf L (fun t => x (rev (S w) (2 * B + 1) + 2 ^ S w * t)%nat)
                    (k' - L)) as ->.
    { rewrite <- partial_at by lia. f_equal. lia. }
    rewrite even_terms_hi, odd_terms_hi by exact Hhi.
    apply C_eq; cbn [fst snd Cadd Csub Cmul]; ring.
Qed.

End StageMath.

(** ** Arrays that hold a sequence *)

Section Holds.

Import FFT Fourier.

Lemma get_nat (a : list R) (p : nat) (v : R) :
  a !! p = Some v -> get a (Z.of_nat p) = Ret v.
Proof.
  intros H. unfold get. destruct (Z.ltb_spec (Z.of_nat p) 0); [lia |].
  now rewrite Nat2Z.id, H.
Qed.

Lemma set_nat (a : list R) (p : nat) (v : R) :
  set a (Z.of_nat p) v = <[p := v]> a.
Proof.
  unfold set. destruct (Z.ltb_spec (Z.of_nat p) 0); [lia |].
  now rewrite Nat2Z.id.
Qed.

Lemma holds_ext (real imag : list R) (N : nat) (F G : nat -> C) :
  holds real imag N F ->
  (forall p : nat, (p < N)%nat -> F p = G p) ->
  holds real imag N G.
Proof.
  intros (Hr & Hi & HF) Hext. repeat split; try assumption;
    rewrite <- (Hext p) by assumption; now apply HF.
Qed.

Lemma holds_insert2 (real imag : list R) (N : nat) (F : nat -> C)
    (e o : nat) (a b : C) :
  holds real imag N F -> (e < N)%nat -> (o < N)%nat -> e <> o ->
  holds (<[e := a.1]> (<[o := b.1]> real)) (<[e := a.2]> (<[o := b.2]> imag))
        N (fun q => if (q =? e)%nat then a
                    else if (q =? o)%nat then b else F q).
Proof.
  intros (Hr & Hi & HF) He Ho Hne.
  split; [now rewrite !length_insert |].
  split; [now rewrite !length_insert |].
  intros p Hp. destruct (Nat.eqb_spec p e) as [-> | Hpe].
  - split; apply list_lookup_insert_eq; rewrite length_insert; lia.
  - rewrite !(list_lookup_insert_ne _ e p) by lia.
    destruct (Nat.eqb_spec p o) as [-> | Hpo].
    + split; apply list_lookup_insert_eq; lia.
    + rewrite !list_lookup_insert_ne by lia. now apply HF.
Qed.

Lemma holds_signal (real imag : list R) :
  length imag = length real ->
  holds real imag (length real) (signal real imag).
Proof.
  intros Hlen. split; [reflexivity |]. split; [exact Hlen |].
  intros p Hp. unfold signal. cbn [fst snd]. split.
  - destruct (lookup_lt_is_Some_2 real p Hp) as [v Hv].
    rewrite Hv. f_equal. symmetry. now apply nth_lookup_Some with (d := 0%R).
  - destruct (lookup_lt_is_Some_2 imag p ltac:(lia)) as [v Hv].
    rewrite Hv. f_equal. symmetry. now apply nth_lookup_Some with (d := 0%R).
Qed.

End Holds.

(** ** The bit-reversal loop permutes the arrays *)

Section RevFacts.

Import Fourier.

Lemma rev_top (w c u : nat) :
  c < 2 -> u < 2 ^ w -> rev (S w) (c * 2 ^ w + u) = 2 * rev w u + c.
Proof.
  revert u. induction w as [|w IH]; intros u Hc Hu.
  - cbn in Hu. assert (u = 0) as -> by lia. cbn [rev].
    rewrite Nat.pow_0_r, Nat.mul_1_r, Nat.add_0_r, Nat.mod_small by lia.
    lia.
  - rewrite Nat.pow_succ_r' in Hu.
    assert (u / 2 < 2 ^ w) as Hu2 by (apply Nat.Div0.div_lt_upper_bound; lia).
    change (rev (S (S w)) (c * 2 ^ S w + u))
      with ((c * 2 ^ S w + u) mod 2 * 2 ^ S w
            + rev (S w) ((c * 2 ^ S w + u) / 2)).
    assert ((c * 2 ^ S w + u) mod 2 = u mod 2) as ->.
    { rewrite Nat.pow_succ_r'.
      replace (c * (2 * 2 ^ w) + u) with (u + (c * 2 ^ w) * 2) by lia.
      apply Nat.Div0.mod_add. }
    assert ((c * 2 ^ S w + u) / 2 = c * 2 ^ w + u / 2) as ->.
    { rewrite Nat.pow_succ_r'.
      replace (c * (2 * 2 ^ w) + u) with (u + (c * 2 ^ w) * 2) by lia.
      rewrite Nat.div_add by lia. lia. }
    rewrite (IH (u / 2) Hc Hu2).
    change (rev (S w) u) with (u mod 2 * 2 ^ w + rev w (u / 2)).
    rewrite Nat.pow_succ_r'. lia.
Qed.

Lemma rev_involutive (w a : nat) : a < 2 ^ w -> rev w (rev w a) = a.
Proof.
  revert a. induction w as [|w IH]; intros a Ha.
  - cbn in Ha. cbn. lia.
  - rewrite Nat.pow_succ_r' in Ha.
    assert (a / 2 < 2 ^ w) as Ha2 by (apply Nat.Div0.div_lt_upper_bound; lia).
    change (rev (S w) a) with (a mod 2 * 2 ^ w + rev w (a / 2)).
    rewrite rev_top;
      [| apply Nat.mod_upper_bound; lia | apply rev_lt].
    rewrite (IH _ Ha2). pose proof (Nat.div_mod_eq a 2). lia.
Qed.

Lemma msb_is_rev (bs : list bool) (a : nat) :
  Bits.val_lsb bs = Z.of_nat a ->
  Bits.val_msb bs = Z.of_nat (rev (length bs) a).
Proof.
  revert a. induction bs as [|b bs IH]; intros a Ha.
  - reflexivity.
  - cbn [Bits.val_lsb] in Ha. cbn [Bits.val_msb length].
    change (rev (S (length bs)) a)
      with (a mod 2 * 2 ^ length bs + rev (length bs) (a / 2)).
    pose proof (Nat.div_mod_eq a 2) as Hdm.
    pose proof (Nat.mod_upper_bound a 2 ltac:(lia)) as Hm.
    pose proof (val_lsb_bound bs) as Hb.
    assert (Bits.val_lsb bs = Z.of_nat (a / 2)) as Hhalf
      by (destruct b; lia).
    rewrite (IH _ Hhalf). rewrite Nat2Z.inj_add, Nat2Z.inj_mul, pow2_nat.
    destruct b; [assert (a mod 2 = 1) as -> by lia
                | assert (a mod 2 = 0) as -> by lia]; lia.
Qed.

End RevFacts.

Section BitReversalPermutes.

Import FFT Bits Fourier.
Local Open Scope Z_scope.

Variable m : nat.
Hypothesis m_range : (1 <= m <= 30)%nat.
Variable F : nat -> C.

Local Abbreviation N := (2 ^ m)%nat.

Lemma swap_nat (a : list R) (i j : nat) (ai aj : R) :
  a !! i = Some ai -> a !! j = Some aj ->
  swap a (Z.of_nat i) (Z.of_nat j) = Ret (<[j := ai]> (<[i := aj]> a)).
Proof.
  intros Hi Hj. unfold swap.
  rewrite (get_nat a j aj Hj), (get_nat a i ai Hi). cbn [FFT.bind].
  now rewrite !set_nat.
Qed.

Lemma reversalInv_swap (i q : nat) :
  (i < N)%nat -> (q < N)%nat -> (i < rev m i)%nat ->
  (if (q =? rev m i)%nat then reversalInv m i F i
   else if (q =? i)%nat then reversalInv m i F (rev m i)
        else reversalInv m i F q)
  = reversalInv m (S i) F q.
Proof.
  intros Hi Hq Hlt. unfold reversalInv.
  pose proof (rev_involutive m i Hi) as Hii.
  pose proof (rev_involutive m q Hq) as Hqq.
  destruct (Nat.eqb_spec q (rev m i)) as [-> | Hq1].
  - rewrite Hii.
    destruct (Nat.ltb_spec i i); [lia |].
    destruct (Nat.ltb_spec (rev m i) i); [lia |].
    destruct (Nat.ltb_spec i (S i)); [| lia].
    now rewrite orb_true_r.
  - destruct (Nat.eqb_spec q i) as [-> | Hq2].
    + rewrite Hii.
      destruct (Nat.ltb_spec (rev m i) i); [lia |].
      destruct (Nat.ltb_spec i i); [lia |].
      destruct (Nat.ltb_spec i (S i)); [| lia].
      reflexivity.
    + assert (rev m q <> i) as Hq3 by (intros E; rewrite <- E, Hqq in Hq1; lia).
      destruct (Nat.ltb_spec q i), (Nat.ltb_spec q (S i)),
        (Nat.ltb_spec (rev m q) i), (Nat.ltb_spec (rev m q) (S i));
        try lia; reflexivity.
Qed.

Lemma reversalInv_keep (i q : nat) :
  (i < N)%nat -> (q < N)%nat -> (rev m i <= i)%nat ->
  reversalInv m i F q = reversalInv m (S i) F q.
Proof.
  intros Hi Hq Hle. unfold reversalInv.
  pose proof (rev_involutive m i Hi) as Hii.
  pose proof (rev_involutive m q Hq) as Hqq.
  destruct (Nat.eq_dec q i) as [-> | Hq2].
  - destruct (Nat.ltb_spec i i); [lia |].
    destruct (Nat.ltb_spec i (S i)); [| lia].
    destruct (Nat.ltb_spec (rev m i) i); [reflexivity |].
    cbn [orb]. f_equal. lia.
  - destruct (Nat.eq_dec (rev m q) i) as [E | Hq3].
    + assert (q < i)%nat by (rewrite <- E, Hqq in Hle; lia).
      destruct (Nat.ltb_spec q i), (Nat.ltb_spec q (S i)); try lia.
      reflexivity.
    + destruct (Nat.ltb_spec q i), (Nat.ltb_spec q (S i)),
        (Nat.ltb_spec (rev m q) i), (Nat.ltb_spec (rev m q) (S i));
        try lia; reflexivity.
Qed.

(** The invariant of the bit-reversal loop at index [i]. *)
Local Abbreviation reversing :=
  (fun (i : nat) (st : list R * list R * Z) =>
     holds st.1.1 st.1.2 N (reversalInv m i F)
     /\ exists bs : list bool,
          length bs = m /\ val_lsb bs = Z.of_nat i /\ val_msb bs = st.2).

Lemma bitReversalStep_holds (fuel i : nat) (st : list R * list R * Z) :
  (m < fuel)%nat -> (i < N - 1)%nat -> reversing i st ->
  exists st', bitReversalStep fuel (pow2 m) i st = Ret st'
              /\ reversing (S i) st'.
Proof.
  intros Hfuel Hi. destruct st as [[real imag] j].
  intros (Hholds & bs & Hlen & Hlsb & Hmsb). cbn [fst snd] in *.
  pose proof (msb_is_rev bs i Hlsb) as Hj. rewrite Hlen, Hmsb in Hj.
  pose proof (rev_lt m i) as Hjlt.
  unfold bitReversalStep.
  assert (exists real' imag',
            (if Z.of_nat i <? j
             then let* real' := swap real (Z.of_nat i) j in
                  let* imag' := swap imag (Z.of_nat i) j in
                  Ret (real', imag')
             else Ret (real, imag)) = Ret (real', imag')
            /\ holds real' imag' N (reversalInv m (S i) F))
    as (real' & imag' & -> & Hholds').
  { destruct (Z.ltb_spec (Z.of_nat i) j) as [Hlt | Hge].
    - destruct Hholds as (Hr & Hi' & HF).
      destruct (HF i ltac:(lia)) as [Hri Hii].
      destruct (HF (rev m i) Hjlt) as [Hrj Hij].
      rewrite Hj.
      rewrite (swap_nat real _ _ _ _ Hri Hrj).
      rewrite (swap_nat imag _ _ _ _ Hii Hij). cbn [FFT.bind].
      eexists _, _. split; [reflexivity |].
      eapply holds_ext.
      + apply (holds_insert2 real imag N (reversalInv m i F) (rev m i) i
                 (reversalInv m i F i) (reversalInv m i F (rev m i)));
          [exact (conj Hr (conj Hi' HF)) | lia | lia | lia].
      + intros q Hq. cbv beta. apply reversalInv_swap; lia.
    - exists real, imag. split; [reflexivity |].
      eapply holds_ext; [exact Hholds |].
      intros q Hq. apply reversalInv_keep; lia. }
  cbn [FFT.bind].
  destruct (inc bs) as [r|] eqn:Einc.
  - destruct (while_k_inc bs r fuel Einc ltac:(lia) ltac:(lia))
      as (j' & k' & Hw & Hjk).
    rewrite Hlen, Hmsb in Hw.
    assert (sar (pow2 m) 1 = pow2 (m - 1)) as ->.
    { rewrite <- (sar_pow2 (m - 1)) by lia. do 2 f_equal. lia. }
    rewrite Hw. cbn [FFT.bind].
    eexists. split; [reflexivity |].
    split; [exact Hholds' |]. exists r. cbn [snd].
    rewrite (inc_length bs r Einc), (inc_lsb bs r Einc), Hlsb.
    repeat split; lia.
  - apply inc_none in Einc. rewrite Hlen, <- pow2_nat in Einc. lia.
Qed.

Lemma bitReversal_holds (fuel : nat) (real imag : list R) :
  (m < fuel)%nat -> holds real imag N F ->
  exists (real' imag' : list R) (j : Z),
    bitReversal fuel (pow2 m) real imag = Ret (real', imag', j)
    /\ holds real' imag' N (fun a => F (rev m a)).
Proof.
  intros Hfuel Hholds. unfold bitReversal.
  pose proof (pow2_nat m) as HN. pose proof (pow2_pos_nat m) as HN1.
  destruct (for_eachO_seq_inv reversing (bitReversalStep fuel (pow2 m))
              (Z.to_nat (pow2 m - 1)) 0 (real, imag, 0))
    as ([[real' imag'] j] & Hrun & Hend & _).
  - split.
    + cbn [fst snd]. eapply holds_ext; [exact Hholds |].
      intros p Hp. unfold reversalInv.
      now destruct (Nat.ltb_spec p 0), (Nat.ltb_spec (rev m p) 0); try lia.
    + exists (replicate m false). rewrite length_replicate. cbn [snd].
      repeat split.
      * clear. induction m as [|k IH]; simpl; [reflexivity | lia].
      * clear. induction m as [|k IH]; simpl; [reflexivity | lia].
  - intros i st Hi Hinv. apply bitReversalStep_holds; [exact Hfuel | lia |].
    exact Hinv.
  - exists real', imag', j. split; [exact Hrun |].
    cbn [fst snd] in Hend. eapply holds_ext; [exact Hend |].
    intros p Hp. unfold reversalInv. cbn [Nat.add].
    pose proof (rev_lt m p) as Hrp.
    pose proof (rev_involutive m p Hp) as Hpp.
    destruct (Nat.ltb_spec p (Z.to_nat (pow2 m - 1))),
      (Nat.ltb_spec (rev m p) (Z.to_nat (pow2 m - 1)));
      try reflexivity.
    cbn [orb]. f_equal. lia.
Qed.

End BitReversalPermutes.

(** ** The butterflies of one stage *)

Section Butterflies.

Import FFT Fourier.
Local Open Scope R_scope.

Variables N H : nat.
Variable angle : R.
Hypothesis H_pos : (1 <= H)%nat.

Lemma butterfly_lists (real imag : list R) (i j : nat)
    (re ro ie io wReal wImag : R) :
  real !! (i + j)%nat = Some re -> real !! (i + j + H)%nat = Some ro ->
  imag !! (i + j)%nat = Some ie -> imag !! (i + j + H)%nat = Some io ->
  let t := Cmul (wReal, wImag) (ro, io) in
  let w := Cmul (wReal, wImag) (cis angle) in
  butterfly (Z.of_nat i) (Z.of_nat H) angle j (real, imag, wReal, wImag)
  = Ret (<[(i + j)%nat := (Cadd (re, ie) t).1]>
           (<[(i + j + H)%nat := (Csub (re, ie) t).1]> real),
         <[(i + j)%nat := (Cadd (re, ie) t).2]>
           (<[(i + j + H)%nat := (Csub (re, ie) t).2]> imag),
         w.1, w.2).
Proof.
  intros Hre Hro Hie Hio t w. unfold butterfly.
  replace (Z.of_nat i + Z.of_nat j + Z.of_nat H)%Z
    with (Z.of_nat (i + j + H)) by lia.
  replace (Z.of_nat i + Z.of_nat j)%Z with (Z.of_nat (i + j)) by lia.
  rewrite (get_nat real _ _ Hro), (get_nat imag _ _ Hio). cbn [FFT.bind].
  rewrite (get_nat real _ _ Hre). cbn [FFT.bind].
  rewrite (get_nat imag _ _ Hie). cbn [FFT.bind].
  rewrite !set_nat.
  rewrite (get_nat (<[(i + j + H)%nat := _]> real) (i + j) re)
    by (rewrite list_lookup_insert_ne by lia; exact Hre).
  cbn [FFT.bind].
  rewrite (get_nat (<[(i + j + H)%nat := _]> imag) (i + j) ie)
    by (rewrite list_lookup_insert_ne by lia; exact Hie).
  cbn [FFT.bind]. rewrite !set_nat. reflexivity.
Qed.

Variable F : nat -> C.

Lemma innerInv_step (i t q : nat) :
  (t < H)%nat ->
  (if (q =? i + t)%nat
   then Cadd (innerInv H angle i t F (i + t))
             (Cmul (cis (INR t * angle)) (innerInv H angle i t F (i + t + H)))
   else if (q =? i + t + H)%nat
   then Csub (innerInv H angle i t F (i + t))
             (Cmul (cis (INR t * angle)) (innerInv H angle i t F (i + t + H)))
   else innerInv H angle i t F q)
  = innerInv H angle i (S t) F q.
Proof.
  intros Ht.
  assert (innerInv H angle i t F (i + t) = F (i + t)%nat) as ->.
  { unfold innerInv.
    destruct (Nat.leb_spec i (i + t)), (Nat.ltb_spec (i + t) (i + t)),
      (Nat.leb_spec (i + H) (i + t)), (Nat.ltb_spec (i + t) (i + H + t));
      try lia; reflexivity. }
  assert (innerInv H angle i t F (i + t + H) = F (i + t + H)%nat) as ->.
  { unfold innerInv.
    destruct (Nat.leb_spec i (i + t + H)),
      (Nat.ltb_spec (i + t + H) (i + t)),
      (Nat.leb_spec (i + H) (i + t + H)),
      (Nat.ltb_spec (i + t + H) (i + H + t));
      try lia; reflexivity. }
  unfold innerInv.
  destruct (Nat.eqb_spec q (i + t)) as [-> | Hq1].
  - destruct (Nat.leb_spec i (i + t)), (Nat.ltb_spec (i + t) (i + S t));
      try lia.
    cbn [andb]. now replace (i + t - i)%nat with t by lia.
  - destruct (Nat.eqb_spec q (i + t + H)) as [-> | Hq2].
    + destruct (Nat.leb_spec i (i + t + H)),
        (Nat.ltb_spec (i + t + H) (i + S t)),
        (Nat.leb_spec (i + H) (i + t + H)),
        (Nat.ltb_spec (i + t + H) (i + H + S t)); try lia.
      cbn [andb].
      replace (i + t + H - i - H)%nat with t by lia.
      now replace (i + t + H - H)%nat with (i + t)%nat by lia.
    + destruct (Nat.leb_spec i q), (Nat.ltb_spec q (i + t)),
        (Nat.ltb_spec q (i + S t)), (Nat.leb_spec (i + H) q),
        (Nat.ltb_spec q (i + H + t)), (Nat.ltb_spec q (i + H + S t));
        try lia; reflexivity.
Qed.

(** The inner loop of the block that starts at [i]. *)
Lemma inner_holds (real imag : list R) (i : nat) :
  (i + 2 * H <= N)%nat -> holds real imag N F ->
  exists (real' imag' : list R) (wReal wImag : R),
    for_eachO (seq 0 H) (butterfly (Z.of_nat i) (Z.of_nat H) angle)
              (real, imag, 1, 0)
    = Ret (real', imag', wReal, wImag)
    /\ holds real' imag' N (innerInv H angle i H F).
Proof.
  intros Hi Hholds.
  destruct (for_eachO_seq_inv
              (fun t (st : list R * list R * R * R) =>
                 holds st.1.1.1 st.1.1.2 N (innerInv H angle i t F)
                 /\ (st.1.2, st.2) = cis (INR t * angle))
              (butterfly (Z.of_nat i) (Z.of_nat H) angle) H 0
              (real, imag, 1, 0))
    as ([[[real' imag'] wr] wi] & Hrun & Hend & _).
  - cbn [fst snd]. split.
    + eapply holds_ext; [exact Hholds |]. intros p Hp. unfold innerInv.
      destruct (Nat.leb_spec i p), (Nat.ltb_spec p (i + 0)),
        (Nat.leb_spec (i + H) p), (Nat.ltb_spec p (i + H + 0));
        try lia; reflexivity.
    + cbn [INR]. rewrite Rmult_0_l. symmetry. apply cis_0.
  - intros t [[[re im] wr] wi] Ht [Hh Hw]. cbn [fst snd] in Hh, Hw.
    destruct Hh as (Hr & Hi' & HG).
    destruct (HG (i + t)%nat ltac:(lia)) as [Hre Hie].
    destruct (HG (i + t + H)%nat ltac:(lia)) as [Hro Hio].
    rewrite (butterfly_lists re im i t _ _ _ _ wr wi Hre Hro Hie Hio).
    eexists. split; [reflexivity |]. cbn [fst snd]. split.
    + eapply holds_ext.
      * apply (holds_insert2 re im N (innerInv H angle i t F)
                 (i + t) (i + t + H)); [exact (conj Hr (conj Hi' HG)) | lia..].
      * intros q Hq. cbv beta. rewrite <- innerInv_step by lia.
        rewrite <- Hw.
        now rewrite <- !surjective_pairing.
    + rewrite Hw, S_INR, Rmult_plus_distr_r, Rmult_1_l, cis_add.
      now rewrite <- surjective_pairing.
  - exists real', imag', wr, wi. split; [exact Hrun |]. exact Hend.
Qed.

End Butterflies.

Section Blocks.

Import FFT Fourier.
Local Open Scope R_scope.

Variables N H : nat.
Variable angle : R.
Hypothesis H_pos : (1 <= H)%nat.
Variable F : nat -> C.

Lemma innerInv_block (b p : nat) :
  innerInv H angle (b * (2 * H)) H (blocksInv H angle (b * (2 * H)) F) p
  = blocksInv H angle (S b * (2 * H)) F p.
Proof.
  unfold innerInv, blocksInv, stage. cbv zeta.
  set (i := (b * (2 * H))%nat).
  replace (S b * (2 * H))%nat with (i + 2 * H)%nat by (subst i; lia).
  destruct (Nat.leb_spec i p) as [Hip | Hip].
  - destruct (Nat.ltb_spec p (i + 2 * H)) as [Hp2 | Hp2].
    + assert (p mod (2 * H) = p - i)%nat as ->.
      { replace p with ((p - i) + b * (2 * H))%nat at 1 by (subst i; lia).
        rewrite Nat.Div0.mod_add. apply Nat.mod_small. lia. }
      destruct (Nat.ltb_spec p (i + H)) as [Hp1 | Hp1].
      * destruct (Nat.ltb_spec (p - i) H); [| lia].
        destruct (Nat.ltb_spec p i), (Nat.ltb_spec (p + H) i); try lia.
        reflexivity.
      * destruct (Nat.leb_spec (i + H) p); [| lia].
        destruct (Nat.ltb_spec p (i + H + H)); [| lia].
        destruct (Nat.ltb_spec (p - i) H); [lia |].
        destruct (Nat.ltb_spec p i), (Nat.ltb_spec (p - H) i); try lia.
        cbn [andb]. now replace (p - i - H)%nat with (p - i - H)%nat by lia.
    + destruct (Nat.ltb_spec p (i + H)), (Nat.leb_spec (i + H) p),
        (Nat.ltb_spec p (i + H + H)), (Nat.ltb_spec p i); try lia.
      reflexivity.
  - destruct (Nat.leb_spec (i + H) p), (Nat.ltb_spec p i),
      (Nat.ltb_spec p (i + 2 * H)); try lia.
    reflexivity.
Qed.

(** The loop over the blocks, entered at block [b]. *)
Lemma blocks_holds (q k b fuel : nat) (real imag : list R) :
  N = (q * (2 * H))%nat -> (b + k = q)%nat -> (k < fuel)%nat ->
  holds real imag N (blocksInv H angle (b * (2 * H)) F) ->
  exists real' imag' : list R,
    blocks fuel (Z.of_nat N) (Z.of_nat (2 * H)) (Z.of_nat H) angle
           (Z.of_nat (b * (2 * H))) (real, imag)
    = Ret (real', imag')
    /\ holds real' imag' N (stage H angle F).
Proof.
  intros HN. revert b fuel real imag.
  induction k as [|k IH]; intros b fuel real imag Hbk Hfuel Hholds;
    (destruct fuel as [|fuel]; [lia |]); cbn [blocks].
  - assert (b = q) as -> by lia.
    destruct (Z.ltb_spec (Z.of_nat (q * (2 * H))) (Z.of_nat N)); [lia |].
    exists real, imag. split; [reflexivity |].
    eapply holds_ext; [exact Hholds |]. intros p Hp. unfold blocksInv.
    destruct (Nat.ltb_spec p (q * (2 * H))); [reflexivity | lia].
  - assert ((b + 1) * (2 * H) <= q * (2 * H))%nat as Hle
      by (apply Nat.mul_le_mono_r; lia).
    destruct (Z.ltb_spec (Z.of_nat (b * (2 * H))) (Z.of_nat N)); [| lia].
    rewrite Nat2Z.id.
    destruct (inner_holds N H angle H_pos
                (blocksInv H angle (b * (2 * H)) F) real imag (b * (2 * H)))
      as (real1 & imag1 & wr & wi & Hrun & Hh1); [lia | exact Hholds |].
    rewrite Hrun. cbn [FFT.bind].
    replace (Z.of_nat (b * (2 * H)) + Z.of_nat (2 * H))%Z
      with (Z.of_nat (S b * (2 * H))) by lia.
    apply IH; [lia | lia |].
    eapply holds_ext; [exact Hh1 |]. intros p _. apply innerInv_block.
Qed.

End Blocks.

(** ** The stages, and the whole transform *)

Section Stages.

Import FFT Bits Fourier.
Local Open Scope R_scope.

Variable m : nat.
Hypothesis m_le_29 : (m <= 29)%nat.
Variable x : nat -> C.

Local Abbreviation N := (2 ^ m)%nat.

Lemma angle_of_len (s : nat) :
  -2 * PI / IZR (pow2 (S s)) = - 2 * PI / INR (2 * 2 ^ s).
Proof.
  rewrite INR_IZR_INZ. rewrite <- (Nat.pow_succ_r' 2 s), pow2_nat.
  reflexivity.
Qed.

Lemma partial_0 (w p : nat) : partial w 0 x p = x (rev w p).
Proof.
  unfold partial, dftOf. cbv zeta. rewrite Nat.pow_0_r, Nat.div_1_r.
  cbn [Csum]. rewrite Nat.mul_0_r, Nat.add_0_r.
  replace (- (2 * PI * INR 0 * INR (p mod 1) / INR 1)) with 0
    by (cbn [INR]; field).
  rewrite cis_0. apply C_eq; cbn [fst snd Cadd Cmul]; ring.
Qed.

Lemma partial_top (k : nat) :
  (k < N)%nat -> partial 0 m x k = dftOf N x k.
Proof.
  intros Hk. unfold partial. cbv zeta.
  rewrite Nat.div_small, Nat.mod_small by exact Hk.
  unfold dftOf. apply Csum_ext. intros t _. cbn [rev].
  rewrite Nat.pow_0_r, Nat.mul_1_l. reflexivity.
Qed.

Lemma stages_holds (fuel_blocks r : nat) :
  (N <= fuel_blocks)%nat ->
  forall (s fuel : nat) (real imag : list R),
    (s + r = m)%nat -> (r < fuel)%nat ->
    holds real imag N (partial r s x) ->
    exists real' imag' : list R,
      stages fuel fuel_blocks (pow2 m) (pow2 (S s)) (real, imag)
      = Ret (real', imag')
      /\ holds real' imag' N (partial 0 m x).
Proof.
  intros Hfb. induction r as [|r IH]; intros s fuel real imag Hsr Hfuel Hh;
    (destruct fuel as [|fuel]; [lia |]); cbn [stages].
  - assert (s = m) as -> by lia.
    pose proof (pow2_lt m (S m) ltac:(lia)).
    destruct (Z.leb_spec (pow2 (S m)) (pow2 m)); [lia |].
    exists real, imag. split; [reflexivity | exact Hh].
  - pose proof (pow2_le (S s) m ltac:(lia)).
    destruct (Z.leb_spec (pow2 (S s)) (pow2 m)); [| lia].
    rewrite sar_pow2, shl_pow2 by lia. rewrite angle_of_len.
    assert (N = 2 ^ r * (2 * 2 ^ s))%nat as HN.
    { replace m with (r + S s)%nat by lia.
      now rewrite Nat.pow_add_r, (Nat.pow_succ_r' 2 s). }
    pose proof (pow2_pos_nat s) as Hs1. pose proof (pow2_pos_nat r) as Hr1.
    assert (2 ^ r < N)%nat as HrN by (apply Nat.pow_lt_mono_r; lia).
    rewrite <- (pow2_nat m), <- (pow2_nat s).
    replace (pow2 (S s)) with (Z.of_nat (2 * 2 ^ s))
      by (rewrite <- pow2_nat, Nat.pow_succ_r'; reflexivity).
    destruct (blocks_holds N (2 ^ s) (- 2 * PI / INR (2 * 2 ^ s)) Hs1
                (partial (S r) s x) (2 ^ r) (2 ^ r) 0 fuel_blocks real imag
                HN ltac:(lia) ltac:(lia))
      as (real1 & imag1 & Hrun & Hh1).
    { eapply holds_ext; [exact Hh |]. intros p _. reflexivity. }
    change (Z.of_nat (0 * (2 * 2 ^ s))) with 0%Z in Hrun.
    rewrite Hrun. cbn [FFT.bind].
    rewrite pow2_nat.
    apply IH; [lia | lia |].
    eapply holds_ext; [exact Hh1 |]. intros p _. apply stage_partial.
Qed.

End Stages.

Section Transform.

Import FFT Bits Fourier.
Local Open Scope R_scope.

Lemma dftOf_1 (x : nat -> C) : dftOf 1 x 0 = x 0%nat.
Proof.
  unfold dftOf. cbn [Csum].
  replace (- (2 * PI * INR 0 * INR 0 / INR 1)) with 0 by (cbn [INR]; field).
  rewrite cis_0. apply C_eq; cbn [fst snd Cadd Cmul]; ring.
Qed.

Lemma fft1D_holds (m fuel : nat) (real imag : list R) :
  (m <= 29)%nat -> length real = (2 ^ m)%nat -> length imag = (2 ^ m)%nat ->
  (2 ^ m <= fuel)%nat ->
  exists real' imag' : list R,
    fft1D fuel real imag = Ret (real', imag')
    /\ holds real' imag' (2 ^ m) (dft real imag).
Proof.
  intros Hm Hreal Himag Hfuel.
  pose proof (holds_signal real imag ltac:(congruence)) as Hsig.
  rewrite Hreal in Hsig.
  unfold fft1D. rewrite Hreal, pow2_nat.
  destruct (Nat.eq_dec m 0%nat) as [-> | Hm0].
  - exists real, imag. split; [reflexivity |].
    eapply holds_ext; [exact Hsig |]. intros p Hp.
    change (2 ^ 0)%nat with 1%nat in Hp. assert (p = 0%nat) as -> by lia.
    unfold dft. rewrite Hreal. symmetry. apply dftOf_1.
  - pose proof (pow2_le 1 m ltac:(lia)) as Hge. change (pow2 1) with 2%Z in Hge.
    destruct (Z.leb_spec (pow2 m) 1); [lia |].
    pose proof (pow_gt_exp m) as Hexp.
    destruct (bitReversal_holds m ltac:(lia) (signal real imag) fuel
                real imag ltac:(lia) Hsig)
      as (real1 & imag1 & j & Hrun & Hh1).
    rewrite Hrun. cbn [FFT.bind].
    change 2%Z with (pow2 1).
    destruct (stages_holds m Hm (signal real imag) fuel m ltac:(lia)
                0%nat fuel real1 imag1 ltac:(lia) ltac:(lia))
      as (real2 & imag2 & Hrun2 & Hh2).
    { eapply holds_ext; [exact Hh1 |]. intros p _. symmetry.
      apply partial_0. }
    exists real2, imag2. split; [exact Hrun2 |].
    eapply holds_ext; [exact Hh2 |]. intros p Hp.
    unfold dft. rewrite Hreal. now apply partial_top.
Qed.

(** X11 ([fft1D], fft-analyzer.js lines 179-228).  For arrays of a common
    length [2^m], [m <= 29], the in-place transform returns and leaves in
    the two arrays the real and the imaginary parts of the discrete
    Fourier transform of the input: entry [k] is the sum over [t] of
    [(real[t] + i imag[t]) * exp (- 2 pi i t k / n)]. *)
Theorem fft1D_computes_dft (m fuel : nat) (real imag : list R) :
  (m <= 29)%nat -> length real = (2 ^ m)%nat -> length imag = (2 ^ m)%nat ->
  (2 ^ m <= fuel)%nat ->
  exists real' imag' : list R,
    FFT.fft1D fuel real imag = FFT.Ret (real', imag')
    /\ length real' = (2 ^ m)%nat /\ length imag' = (2 ^ m)%nat
    /\ forall k : nat, (k < 2 ^ m)%nat ->
         real' !! k = Some (Fourier.dft real imag k).1
         /\ imag' !! k = Some (Fourier.dft real imag k).2.
Proof.
  intros Hm Hreal Himag Hfuel.
  destruct (fft1D_holds m fuel real imag Hm Hreal Himag Hfuel)
    as (real' & imag' & Hrun & Hr & Hi & Hk).
  exists real', imag'. repeat split; try assumption; now apply Hk.
Qed.

Lemma fft1D_computes_dft_witness :
  exists real' imag' : list R,
    FFT.fft1D 2%nat [1; 2] [0; 0] = FFT.Ret (real', imag')
    /\ length real' = 2%nat /\ length imag' = 2%nat
    /\ forall k : nat, (k < 2)%nat ->
         real' !! k = Some (Fourier.dft [1; 2] [0; 0] k).1
         /\ imag' !! k = Some (Fourier.dft [1; 2] [0; 0] k).2.
Proof.
  apply (fft1D_computes_dft 1%nat 2%nat [1; 2] [0; 0]);
    [lia | reflexivity | reflexivity | cbn; lia].
Defined.

End Transform.

(** * The 2D transform *)

Section CopyCells.

Import FFT Fourier Spectrum.
Local Open Scope R_scope.

Lemma holds_insert1 (real imag : list R) (N : nat) (F : nat -> C)
    (e : nat) (a : C) :
  holds real imag N F -> (e < N)%nat ->
  holds (<[e := a.1]> real) (<[e := a.2]> imag) N
        (fun q => if (q =? e)%nat then a else F q).
Proof.
  intros (Hr & Hi & HF) He.
  split; [now rewrite length_insert |].
  split; [now rewrite length_insert |].
  intros p Hp. destruct (Nat.eqb_spec p e) as [-> | Hpe].
  - split; apply list_lookup_insert_eq; lia.
  - rewrite !list_lookup_insert_ne by lia. now apply HF.
Qed.

(** The contents of the target arrays of [copyCells] after its first [k]
    rounds. *)
Local Abbreviation copied :=
  (fun (S F : nat -> C) (src dst : nat -> nat) (N k : nat)
       (st : list R * list R) =>
     length st.1 = N /\ length st.2 = N
     /\ (forall t : nat, (t < k)%nat ->
           st.1 !! dst t = Some (S (src t)).1
           /\ st.2 !! dst t = Some (S (src t)).2)
     /\ (forall p : nat, (p < N)%nat ->
           (forall t : nat, (t < k)%nat -> dst t <> p) ->
           st.1 !! p = Some (F p).1 /\ st.2 !! p = Some (F p).2)).

Lemma copyCells_holds (len M N : nat) (src dst : nat -> nat)
    (S F : nat -> C) (from to : list R * list R) :
  holds from.1 from.2 M S -> holds to.1 to.2 N F ->
  (forall t : nat, (t < len)%nat -> (src t < M)%nat /\ (dst t < N)%nat) ->
  (forall t t' : nat, (t < len)%nat -> (t' < len)%nat ->
     dst t = dst t' -> t = t') ->
  exists st : list R * list R,
    copyCells len src dst from to = Ret st
    /\ copied S F src dst N len st.
Proof.
  intros (HfR & HfI & HS) (HtR & HtI & HF) Hrange Hinj.
  unfold copyCells.
  destruct (for_eachO_seq_inv (copied S F src dst N)
              (fun t (st : list R * list R) =>
                 let '(real, imag) := st in
                 let* r := get from.1 (Z.of_nat (src t)) in
                 let real := set real (Z.of_nat (dst t)) r in
                 let* i := get from.2 (Z.of_nat (src t)) in
                 let imag := set imag (Z.of_nat (dst t)) i in
                 Ret (real, imag))
              len 0 to) as (st & Hrun & Hend).
  - repeat split; try assumption; try (intros; lia); now apply HF.
  - intros k [real imag] Hk (Hr & Hi & Hdone & Hrest). cbn [fst snd] in *.
    destruct (Hrange k ltac:(lia)) as [Hsk Hdk].
    destruct (HS (src k) Hsk) as [HSr HSi].
    rewrite (get_nat _ _ _ HSr). cbn [FFT.bind].
    rewrite (get_nat _ _ _ HSi). cbn [FFT.bind]. rewrite !set_nat.
    eexists. split; [reflexivity |]. cbn [fst snd].
    split; [now rewrite length_insert |].
    split; [now rewrite length_insert |].
    split.
    + intros t Ht. destruct (Nat.eq_dec t k) as [-> | Htk].
      * split; apply list_lookup_insert_eq; lia.
      * assert (dst k <> dst t)
          by (intros E; apply Htk; apply Hinj; [lia | lia | congruence]).
        rewrite !list_lookup_insert_ne by assumption.
        apply Hdone. lia.
    + intros p Hp Hnot.
      assert (dst k <> p) by (apply Hnot; lia).
      rewrite !list_lookup_insert_ne by assumption.
      apply Hrest; [exact Hp |]. intros t Ht. apply Hnot. lia.
  - exists st. split; [exact Hrun | exact Hend].
Qed.

Lemma slice_holds (real imag : list R) (N : nat) (F : nat -> C)
    (lo len : nat) :
  holds real imag N F -> (lo + len <= N)%nat ->
  holds (slice real lo (lo + len)) (slice imag lo (lo + len)) len
        (fun t => F (lo + t)%nat).
Proof.
  intros (Hr & Hi & HF) Hle. unfold slice.
  replace (lo + len - lo)%nat with len by lia.
  split; [rewrite length_take, length_drop; lia |].
  split; [rewrite length_take, length_drop; lia |].
  intros t Ht. rewrite !lookup_take_lt, !lookup_drop by exact Ht.
  apply HF. lia.
Qed.

Lemma holds_nth (real imag : list R) (N : nat) (F : nat -> C) (p : nat) :
  holds real imag N F -> (p < N)%nat -> signal real imag p = F p.
Proof.
  intros (Hr & Hi & HF) Hp. destruct (HF p Hp) as [H1 H2].
  unfold signal. apply C_eq; cbn [fst snd];
    now apply nth_lookup_Some with (d := 0).
Qed.

(** The transform of arrays that hold the sequence [F]. *)
Lemma fft1D_of (m fuel : nat) (real imag : list R) (F : nat -> C) :
  (m <= 29)%nat -> (2 ^ m <= fuel)%nat -> holds real imag (2 ^ m) F ->
  exists real' imag' : list R,
    fft1D fuel real imag = Ret (real', imag')
    /\ holds real' imag' (2 ^ m) (dftOf (2 ^ m) F).
Proof.
  intros Hm Hfuel Hh. pose proof Hh as (Hr & Hi & _).
  destruct (fft1D_holds m fuel real imag Hm Hr Hi Hfuel)
    as (real' & imag' & Hrun & Hh').
  exists real', imag'. split; [exact Hrun |].
  eapply holds_ext; [exact Hh' |]. intros p _. unfold dft. rewrite Hr.
  unfold dftOf. apply Csum_ext. intros t Ht.
  now rewrite (holds_nth real imag (2 ^ m) F t Hh Ht).
Qed.

End CopyCells.

Section Transform2D.

Import FFT Fourier Spectrum.
Local Open Scope R_scope.

Lemma copied_holds (len N : nat) (src dst : nat -> nat) (S F G : nat -> C)
    (st : list R * list R) :
  (length st.1 = N /\ length st.2 = N
   /\ (forall t : nat, (t < len)%nat ->
         st.1 !! dst t = Some (S (src t)).1
         /\ st.2 !! dst t = Some (S (src t)).2)
   /\ (forall p : nat, (p < N)%nat ->
         (forall t : nat, (t < len)%nat -> dst t <> p) ->
         st.1 !! p = Some (F p).1 /\ st.2 !! p = Some (F p).2)) ->
  (forall p : nat, (p < N)%nat ->
     (exists t : nat, (t < len)%nat /\ dst t = p /\ G p = S (src t))
     \/ ((forall t : nat, (t < len)%nat -> dst t <> p) /\ G p = F p)) ->
  holds st.1 st.2 N G.
Proof.
  intros (Hr & Hi & Hdone & Hrest) Hcases.
  split; [exact Hr |]. split; [exact Hi |]. intros p Hp.
  destruct (Hcases p Hp) as [(t & Ht & <- & ->) | [Hnot ->]].
  - now apply Hdone.
  - now apply Hrest.
Qed.

Lemma rowcol_divmod (W y t : nat) :
  (t < W)%nat -> ((y * W + t) / W = y /\ (y * W + t) mod W = t)%nat.
Proof.
  intros Ht. replace (y * W + t)%nat with (t + y * W)%nat by lia.
  rewrite Nat.div_add, Nat.Div0.mod_add by lia.
  rewrite Nat.div_small, Nat.mod_small by lia. lia.
Qed.

Lemma copy_in (data : list R) :
  for_eachO (seq 0 (length data))
    (fun i real =>
       let* v := get data (Z.of_nat i) in Ret (set real (Z.of_nat i) v))
    (zeros (length data))
  = Ret data.
Proof.
  destruct (for_eachO_seq_inv
              (fun k (real : list R) =>
                 length real = length data
                 /\ forall p : nat, (p < length data)%nat ->
                      real !! p = if (p <? k)%nat then data !! p
                                  else Some 0)
              (fun i real =>
                 let* v := get data (Z.of_nat i) in
                 Ret (set real (Z.of_nat i) v))
              (length data) 0 (zeros (length data)))
    as (real & Hrun & Hlen & Hend).
  - split; [apply length_replicate |]. intros p Hp.
    destruct (Nat.ltb_spec p 0); [lia |]. now apply lookup_replicate_2.
  - intros k real Hk [Hlen Hinv].
    destruct (lookup_lt_is_Some_2 data k ltac:(lia)) as [v Hv].
    rewrite (get_nat _ _ _ Hv). cbn [FFT.bind]. rewrite set_nat.
    eexists. split; [reflexivity |].
    split; [now rewrite length_insert |]. intros p Hp.
    destruct (Nat.eq_dec p k) as [-> | Hpk].
    + destruct (Nat.ltb_spec k (Datatypes.S k)); [| lia].
      rewrite Hv. apply list_lookup_insert_eq. lia.
    + rewrite list_lookup_insert_ne by lia. rewrite (Hinv p Hp).
      destruct (Nat.ltb_spec p k), (Nat.ltb_spec p (Datatypes.S k));
        try lia; reflexivity.
  - rewrite Hrun. f_equal. apply list_eq. intros p.
    destruct (Nat.lt_ge_cases p (length data)) as [Hp | Hp].
    + rewrite (Hend p Hp). cbn [Nat.add].
      destruct (Nat.ltb_spec p (length data)); [reflexivity | lia].
    + rewrite !lookup_ge_None_2 by lia. reflexivity.
Qed.

Lemma holds_image (data : list R) :
  holds data (zeros (length data)) (length data) (pixelAt data).
Proof.
  split; [reflexivity |]. split; [apply length_replicate |].
  intros p Hp. unfold pixelAt. cbn [fst snd]. split.
  - destruct (lookup_lt_is_Some_2 data p Hp) as [v Hv]. rewrite Hv.
    f_equal. symmetry. now apply nth_lookup_Some with (d := 0).
  - now apply lookup_replicate_2.
Qed.

Variables (a b fuel : nat) (data : list R).
Hypothesis a_le_29 : (a <= 29)%nat.
Hypothesis b_le_29 : (b <= 29)%nat.
Hypothesis fuel_width : (2 ^ a <= fuel)%nat.
Hypothesis fuel_height : (2 ^ b <= fuel)%nat.
Hypothesis data_length : length data = (2 ^ a * 2 ^ b)%nat.

Local Abbreviation W := (2 ^ a)%nat.
Local Abbreviation Hgt := (2 ^ b)%nat.
Local Abbreviation n := (2 ^ a * 2 ^ b)%nat.

Lemma cell_lt (y x : nat) : (y < Hgt)%nat -> (x < W)%nat -> (y * W + x < n)%nat.
Proof.
  intros Hy Hx.
  assert (Datatypes.S y * W <= Hgt * W)%nat by (apply Nat.mul_le_mono_r; lia).
  lia.
Qed.

Lemma row_of_lt (p : nat) : (p < n)%nat -> (p / W < Hgt)%nat.
Proof.
  intros Hp. pose proof (pow2_pos_nat a).
  apply Nat.Div0.div_lt_upper_bound. lia.
Qed.

Lemma rows_step (y : nat) (st : list R * list R) :
  (y < Hgt)%nat -> holds st.1 st.2 n (rowsInv data W y) ->
  exists st' : list R * list R,
    (let '(real, imag) := st in
     let rowReal := slice real (y * W) ((y + 1) * W) in
     let rowImag := slice imag (y * W) ((y + 1) * W) in
     let* (rowReal, rowImag) := fft1D fuel rowReal rowImag in
     copyCells W (fun x => x) (fun x => (y * W + x)%nat)
               (rowReal, rowImag) (real, imag)) = Ret st'
    /\ holds st'.1 st'.2 n (rowsInv data W (Datatypes.S y)).
Proof.
  intros Hy Hold. destruct st as [real imag]. cbn [fst snd] in Hold.
  pose proof (pow2_pos_nat a) as HW.
  pose proof (cell_lt y (W - 1) Hy ltac:(lia)) as Hrow.
  cbv zeta. replace ((y + 1) * W)%nat with (y * W + W)%nat by lia.
  pose proof (slice_holds real imag n _ (y * W) W Hold ltac:(lia)) as Hslice.
  destruct (fft1D_of a fuel _ _ _ a_le_29 fuel_width Hslice)
    as (rowReal & rowImag & Hrun & Hrow').
  rewrite Hrun. cbn [FFT.bind].
  destruct (copyCells_holds W W n (fun x => x) (fun x => (y * W + x)%nat)
              _ _ (rowReal, rowImag) (real, imag) Hrow' Hold)
    as (st' & Hcopy & Hcopied).
  { intros t Ht. split; [exact Ht | now apply cell_lt]. }
  { intros t t' _ _ E. lia. }
  exists st'. split; [exact Hcopy |].
  eapply copied_holds; [exact Hcopied |]. intros p Hp.
  pose proof (Nat.div_mod_eq p W) as Hdm.
  pose proof (Nat.mod_upper_bound p W ltac:(lia)) as Hmod.
  unfold rowsInv.
  destruct (Nat.eq_dec (p / W)%nat y) as [E | E].
  - left. exists (p mod W)%nat. split; [exact Hmod |].
    split; [rewrite <- E; lia |].
    destruct (Nat.ltb_spec (p / W)%nat (Datatypes.S y)); [| lia].
    rewrite E. unfold rowDft, dftOf. apply Csum_ext. intros t Ht.
    f_equal. destruct (rowcol_divmod W y t Ht) as [Hd _]. rewrite Hd.
    destruct (Nat.ltb_spec y y); [lia | reflexivity].
  - right. split.
    + intros t Ht E'. apply E. rewrite <- E'.
      now destruct (rowcol_divmod W y t Ht).
    + destruct (Nat.ltb_spec (p / W)%nat y),
        (Nat.ltb_spec (p / W)%nat (Datatypes.S y)); try lia; reflexivity.
Qed.

Lemma cols_step (x : nat) (st : list R * list R) :
  (x < W)%nat -> holds st.1 st.2 n (colsInv data W Hgt x) ->
  exists st' : list R * list R,
    (let '(real, imag) := st in
     let* (colReal, colImag) :=
       copyCells Hgt (fun y => (y * W + x)%nat) (fun y => y)
                 (real, imag) (zeros Hgt, zeros Hgt) in
     let* (colReal, colImag) := fft1D fuel colReal colImag in
     copyCells Hgt (fun y => y) (fun y => (y * W + x)%nat)
               (colReal, colImag) (real, imag)) = Ret st'
    /\ holds st'.1 st'.2 n (colsInv data W Hgt (Datatypes.S x)).
Proof.
  intros Hx Hold. destruct st as [real imag]. cbn [fst snd] in Hold.
  pose proof (pow2_pos_nat a) as HW.
  assert (holds (zeros Hgt) (zeros Hgt) Hgt (fun _ => (0, 0))) as Hzero.
  { split; [apply length_replicate |]. split; [apply length_replicate |].
    intros p Hp. split; now apply lookup_replicate_2. }
  destruct (copyCells_holds Hgt n Hgt (fun y => (y * W + x)%nat) (fun y => y)
              _ _ (real, imag) (zeros Hgt, zeros Hgt) Hold Hzero)
    as ([colReal colImag] & Hgather & Hcopied).
  { intros t Ht. split; [now apply cell_lt | exact Ht]. }
  { intros t t' _ _ E. exact E. }
  rewrite Hgather. cbn [FFT.bind].
  assert (holds colReal colImag Hgt
            (fun y => colsInv data W Hgt x (y * W + x))) as Hcol.
  { apply (copied_holds Hgt Hgt (fun y => (y * W + x)%nat) (fun y => y)
             (colsInv data W Hgt x) (fun _ => (0, 0)) _ (colReal, colImag)
             Hcopied).
    intros p Hp. left. exists p. repeat split; assumption || reflexivity. }
  destruct (fft1D_of b fuel _ _ _ b_le_29 fuel_height Hcol)
    as (colReal' & colImag' & Hrun & Hcol').
  rewrite Hrun. cbn [FFT.bind].
  destruct (copyCells_holds Hgt Hgt n (fun y => y) (fun y => (y * W + x)%nat)
              _ _ (colReal', colImag') (real, imag) Hcol' Hold)
    as (st' & Hcopy & Hcopied').
  { intros t Ht. split; [exact Ht | now apply cell_lt]. }
  { intros t t' _ _ E. nia. }
  exists st'. split; [exact Hcopy |].
  eapply copied_holds; [exact Hcopied' |]. intros p Hp.
  pose proof (Nat.div_mod_eq p W) as Hdm.
  pose proof (Nat.mod_upper_bound p W ltac:(lia)) as Hmod.
  pose proof (row_of_lt p Hp) as Hrow.
  unfold colsInv.
  destruct (Nat.eq_dec (p mod W)%nat x) as [E | E].
  - left. exists (p / W)%nat. split; [exact Hrow |].
    split; [rewrite <- E; lia |].
    destruct (Nat.ltb_spec (p mod W)%nat (Datatypes.S x)); [| lia].
    rewrite E. unfold dft2D, dftOf. apply Csum_ext. intros t Ht.
    f_equal. destruct (rowcol_divmod W t x Hx) as [Hd Hm]. rewrite Hd, Hm.
    destruct (Nat.ltb_spec x x); [lia | reflexivity].
  - right. split.
    + intros t Ht E'. apply E. rewrite <- E'.
      now destruct (rowcol_divmod W t x Hx).
    + destruct (Nat.ltb_spec (p mod W)%nat x),
        (Nat.ltb_spec (p mod W)%nat (Datatypes.S x)); try lia; reflexivity.
Qed.

Lemma fft2D_holds :
  exists real imag : list R,
    fft2D fuel data W Hgt = Ret (real, imag)
    /\ holds real imag n
         (fun p => dft2D data W Hgt (p mod W) (p / W)).
Proof.
  pose proof (pow2_pos_nat a) as HW.
  unfold fft2D. rewrite copy_in. cbn [FFT.bind].
  pose proof (holds_image data) as Himg. rewrite data_length in *.
  match goal with
  | |- context [for_eachO (seq 0 Hgt) ?body (data, zeros n)] =>
      destruct (for_eachO_seq_inv
                  (fun y (st : list R * list R) =>
                     holds st.1 st.2 n (rowsInv data W y))
                  body Hgt 0 (data, zeros n))
        as ([real1 imag1] & Hrows & Hh1)
  end.
  - cbn [fst snd]. eapply holds_ext; [exact Himg |]. intros p _.
    unfold rowsInv.
    destruct (Nat.ltb_spec (p / W)%nat 0); [lia | reflexivity].
  - intros y st Hy Hinv. apply rows_step; [lia | exact Hinv].
  - rewrite Hrows. cbn [FFT.bind]. cbn [fst snd Nat.add] in Hh1.
    match goal with
    | |- context [for_eachO (seq 0 W) ?body (real1, imag1)] =>
        destruct (for_eachO_seq_inv
                    (fun x (st : list R * list R) =>
                       holds st.1 st.2 n (colsInv data W Hgt x))
                    body W 0 (real1, imag1))
          as ([real2 imag2] & Hcols & Hh2)
    end.
    + cbn [fst snd]. eapply holds_ext; [exact Hh1 |]. intros p Hp.
      unfold rowsInv, colsInv. pose proof (row_of_lt p Hp).
      destruct (Nat.ltb_spec (p / W)%nat Hgt),
        (Nat.ltb_spec (p mod W)%nat 0); try lia; reflexivity.
    + intros x st Hx Hinv. apply cols_step; [lia | exact Hinv].
    + exists real2, imag2. split; [exact Hcols |].
      cbn [fst snd Nat.add] in Hh2. eapply holds_ext; [exact Hh2 |].
      intros p Hp. unfold colsInv.
      pose proof (Nat.mod_upper_bound p W ltac:(lia)).
      destruct (Nat.ltb_spec (p mod W)%nat W); [reflexivity | lia].
Qed.

End Transform2D.

(** X12 ([fft2D], fft-analyzer.js lines 130-172).  For an image of
    [2^a] columns and [2^b] rows, [a, b <= 29], the row-column transform
    returns, and the entry at row [v], column [u] of its two arrays is the
    2D discrete Fourier transform of the image at the frequency [(u, v)]:
    the transform over the rows [y] of the transforms of each row at [u]. *)
Theorem fft2D_computes_dft2D (a b fuel : nat) (data : list R) :
  (a <= 29)%nat -> (b <= 29)%nat ->
  (2 ^ a <= fuel)%nat -> (2 ^ b <= fuel)%nat ->
  length data = (2 ^ a * 2 ^ b)%nat ->
  exists real imag : list R,
    Spectrum.fft2D fuel data (2 ^ a) (2 ^ b) = FFT.Ret (real, imag)
    /\ length real = (2 ^ a * 2 ^ b)%nat
    /\ length imag = (2 ^ a * 2 ^ b)%nat
    /\ forall u v : nat, (u < 2 ^ a)%nat -> (v < 2 ^ b)%nat ->
         real !! (v * 2 ^ a + u)%nat
         = Some (Fourier.dft2D data (2 ^ a) (2 ^ b) u v).1
         /\ imag !! (v * 2 ^ a + u)%nat
            = Some (Fourier.dft2D data (2 ^ a) (2 ^ b) u v).2.
Proof.
  intros Ha Hb Hfa Hfb Hlen.
  destruct (fft2D_holds a b fuel data Ha Hb Hfa Hfb Hlen)
    as (real & imag & Hrun & Hr & Hi & Hcells).
  exists real, imag. split; [exact Hrun |].
  split; [exact Hr |]. split; [exact Hi |]. intros u v Hu Hv.
  destruct (rowcol_divmod (2 ^ a) v u Hu) as [Hd Hm].
  pose proof (Hcells (v * 2 ^ a + u)%nat) as Hc.
  rewrite Hd, Hm in Hc. apply Hc.
  assert (S v * 2 ^ a <= 2 ^ b * 2 ^ a)%nat by (apply Nat.mul_le_mono_r; lia).
  lia.
Qed.

Lemma fft2D_computes_dft2D_witness :
  exists real imag : list R,
    Spectrum.fft2D 2 [1; 2; 3; 4]%R 2 2 = FFT.Ret (real, imag)
    /\ length real = 4%nat /\ length imag = 4%nat
    /\ forall u v : nat, (u < 2)%nat -> (v < 2)%nat ->
         real !! (v * 2 + u)%nat
         = Some (Fourier.dft2D [1; 2; 3; 4]%R 2 2 u v).1
         /\ imag !! (v * 2 + u)%nat
            = Some (Fourier.dft2D [1; 2; 3; 4]%R 2 2 u v).2.
Proof.
  apply (fft2D_computes_dft2D 1 1 2 [1; 2; 3; 4]%R);
    [lia | lia | cbn; lia | cbn; lia | reflexivity].
Defined.

(** * The spectrum in decibels *)

Section Decibels.

Import FFT Fourier Spectrum.
Local Open Scope R_scope.

Lemma fill_loop (n : nat) (body : nat -> list R -> outcome (list R))
    (g : nat -> R) :
  (forall (i : nat) (out : list R), (i < n)%nat -> length out = n ->
     body i out = Ret (<[i := g i]> out)) ->
  exists out : list R,
    for_eachO (seq 0 n) body (zeros n) = Ret out
    /\ length out = n
    /\ forall p : nat, (p < n)%nat -> out !! p = Some (g p).
Proof.
  intros Hbody.
  destruct (for_eachO_seq_inv
              (fun k (out : list R) =>
                 length out = n
                 /\ forall p : nat, (p < k)%nat -> out !! p = Some (g p))
              body n 0 (zeros n)) as (out & Hrun & Hlen & Hend).
  - split; [apply length_replicate |]. intros p Hp. lia.
  - intros k out Hk [Hlen Hinv]. rewrite Hbody by (lia || assumption).
    eexists. split; [reflexivity |].
    split; [now rewrite length_insert |]. intros p Hp.
    destruct (Nat.eq_dec p k) as [-> | Hpk].
    + apply list_lookup_insert_eq. lia.
    + rewrite list_lookup_insert_ne by lia. apply Hinv. lia.
  - exists out. split; [exact Hrun |]. split; [exact Hlen |]. exact Hend.
Qed.

Lemma calculateMagnitude_holds (real imag : list R) (N : nat)
    (F : nat -> C) :
  holds real imag N F ->
  exists magnitude : list R,
    calculateMagnitude real imag = Ret magnitude
    /\ length magnitude = N
    /\ forall p : nat, (p < N)%nat ->
         magnitude !! p
         = Some (sqrt ((F p).1 * (F p).1 + (F p).2 * (F p).2)).
Proof.
  intros (Hr & Hi & HF). unfold calculateMagnitude. rewrite Hr.
  apply fill_loop. intros i out Hi' Hout.
  destruct (HF i Hi') as [Hre Him].
  rewrite (get_nat _ _ _ Hre). cbn [FFT.bind].
  rewrite (get_nat _ _ _ Him). cbn [FFT.bind]. now rewrite set_nat.
Qed.

Lemma tiny_pos : 0 < 1 / 10 ^ 10.
Proof.
  apply Rdiv_lt_0_compat; [lra |]. apply pow_lt. lra.
Qed.

Lemma ln_10_pos : 0 < ln 10.
Proof. rewrite <- ln_1. apply ln_increasing; lra. Qed.

Lemma log10_tiny : log10 (1 / 10 ^ 10) = -10.
Proof.
  unfold log10. pose proof ln_10_pos.
  unfold Rdiv at 2. rewrite Rmult_1_l, ln_Rinv by (apply pow_lt; lra).
  rewrite ln_pow by lra.
  replace (INR 10) with 10 by (rewrite INR_IZR_INZ; reflexivity).
  field. lra.
Qed.

Lemma log10_le (x y : R) : 0 < x -> x <= y -> log10 x <= log10 y.
Proof.
  intros Hx Hxy. unfold log10. pose proof ln_10_pos.
  apply Rmult_le_compat_r; [left; now apply Rinv_0_lt_compat |].
  destruct Hxy as [Hlt | ->]; [| lra]. left. now apply ln_increasing.
Qed.

Lemma decibels_floor (c : C) : -200 <= decibels c.
Proof.
  unfold decibels. pose proof tiny_pos as Ht.
  pose proof (sqrt_pos (c.1 * c.1 + c.2 * c.2)) as Hs.
  pose proof (log10_le (1 / 10 ^ 10) (sqrt (c.1 * c.1 + c.2 * c.2)
                                      + 1 / 10 ^ 10) Ht ltac:(lra)) as Hl.
  rewrite log10_tiny in Hl. lra.
Qed.

Lemma decibels_zero : decibels (0, 0) = -200.
Proof.
  unfold decibels. cbn [fst snd].
  replace (0 * 0 + 0 * 0) with 0 by ring.
  rewrite sqrt_0, Rplus_0_l, log10_tiny. lra.
Qed.

Lemma toLogScale_run (magnitude : list R) :
  Forall (fun v => 0 <= v) magnitude ->
  exists logMag : list R,
    toLogScale magnitude = Ret logMag
    /\ length logMag = length magnitude
    /\ forall (p : nat) (v : R), magnitude !! p = Some v ->
         logMag !! p = Some (20 * log10 (v + 1 / 10 ^ 10)).
Proof.
  intros Hpos. unfold toLogScale.
  destruct (fill_loop (length magnitude)
              (fun i logMag =>
                 let* v := get magnitude (Z.of_nat i) in
                 let arg := v + 1 / 10 ^ 10 in
                 if Rlt_dec 0 arg
                 then Ret (set logMag (Z.of_nat i) (20 * log10 arg))
                 else Undefined)
              (fun i => 20 * log10 (nth i magnitude 0 + 1 / 10 ^ 10)))
    as (out & Hrun & Hlen & Hout).
  - intros i out Hi Hout.
    destruct (lookup_lt_is_Some_2 magnitude i Hi) as [v Hv].
    rewrite (get_nat _ _ _ Hv). cbn [FFT.bind]. cbv zeta.
    pose proof (proj1 (Forall_lookup _ _) Hpos i v Hv) as Hv0.
    cbv beta in Hv0. pose proof tiny_pos.
    destruct (Rlt_dec 0 (v + 1 / 10 ^ 10)); [| lra].
    rewrite set_nat. now rewrite (nth_lookup_Some _ _ 0 _ Hv).
  - exists out. split; [exact Hrun |]. split; [exact Hlen |].
    intros p v Hv. rewrite Hout by (now apply lookup_lt_Some in Hv).
    now rewrite (nth_lookup_Some _ _ 0 _ Hv).
Qed.

(** The two steps from the transform to the spectrum in decibels. *)
Lemma decibels_holds (real imag : list R) (N : nat) (F : nat -> C) :
  holds real imag N F ->
  exists magnitude logMag : list R,
    calculateMagnitude real imag = Ret magnitude
    /\ toLogScale magnitude = Ret logMag
    /\ length logMag = N
    /\ forall p : nat, (p < N)%nat -> logMag !! p = Some (decibels (F p)).
Proof.
  intros Hh.
  destruct (calculateMagnitude_holds real imag N F Hh)
    as (magnitude & Hmag & Hlen & Hcells).
  destruct (toLogScale_run magnitude) as (logMag & Hlog & Hlen' & Hcells').
  { apply Forall_lookup. intros p v Hv.
    rewrite Hcells in Hv by (apply lookup_lt_Some in Hv; lia).
    injection Hv as <-. apply sqrt_pos. }
  exists magnitude, logMag. split; [exact Hmag |]. split; [exact Hlog |].
  split; [lia |]. intros p Hp. apply Hcells'. now apply Hcells.
Qed.

End Decibels.

(** X13 ([Utils.calculateMagnitude] and [Utils.toLogScale], utils.js lines
    90-113).  For two arrays of the same length the magnitude and its
    logarithm are computed without reading past an end or leaving the
    domain of the logarithm; entry [i] of the result is
    [20 * log10 (sqrt (re^2 + im^2) + 1e-10)], it is never below -200,
    and it is -200 where both parts are 0. *)
Theorem decibel_spectrum (real imag : list R) :
  length imag = length real ->
  exists magnitude logMag : list R,
    Spectrum.calculateMagnitude real imag = FFT.Ret magnitude
    /\ Spectrum.toLogScale magnitude = FFT.Ret logMag
    /\ length logMag = length real
    /\ forall (i : nat) (re im : R),
         real !! i = Some re -> imag !! i = Some im ->
         logMag !! i = Some (Spectrum.decibels (re, im))
         /\ (-200 <= Spectrum.decibels (re, im))%R
         /\ (re = 0%R -> im = 0%R -> Spectrum.decibels (re, im) = (-200)%R).
Proof.
  intros Hlen.
  destruct (decibels_holds real imag (length real) _
              (holds_signal real imag Hlen))
    as (magnitude & logMag & Hmag & Hlog & Hl & Hcells).
  exists magnitude, logMag. split; [exact Hmag |]. split; [exact Hlog |].
  split; [exact Hl |]. intros i re im Hre Him.
  pose proof (lookup_lt_Some _ _ _ Hre) as Hi.
  split; [| split].
  - rewrite (Hcells i Hi). do 2 f_equal. unfold Fourier.signal.
    f_equal; now apply nth_lookup_Some with (d := 0%R).
  - apply decibels_floor.
  - intros -> ->. apply decibels_zero.
Qed.

Lemma decibel_spectrum_witness :
  exists magnitude logMag : list R,
    Spectrum.calculateMagnitude [3; 0]%R [4; 0]%R = FFT.Ret magnitude
    /\ Spectrum.toLogScale magnitude = FFT.Ret logMag
    /\ length logMag = 2%nat
    /\ logMag !! 1%nat = Some (Spectrum.decibels (0, 0)%R)
    /\ Spectrum.decibels (0, 0)%R = (-200)%R.
Proof.
  destruct (decibel_spectrum [3; 0]%R [4; 0]%R eq_refl)
    as (magnitude & logMag & Hmag & Hlog & Hl & Hcells).
  exists magnitude, logMag. split; [exact Hmag |]. split; [exact Hlog |].
  split; [exact Hl |].
  destruct (Hcells 1%nat 0%R 0%R eq_refl eq_refl) as (Hc & _ & Hz).
  split; [exact Hc |]. now apply Hz.
Defined.

(** * The spectrum of a frame *)

Section FrameSpectrum.

Import FFT Fourier Spectrum.
Local Open Scope R_scope.

Lemma even_pow2 (m : nat) : (1 <= m)%nat -> Nat.Even (2 ^ m).
Proof.
  intros Hm. exists (2 ^ (m - 1))%nat.
  rewrite <- Nat.pow_succ_r'. f_equal. lia.
Qed.

Lemma shiftIndex_onto (w h k : nat) :
  Nat.Even w -> Nat.Even h -> (k < w * h)%nat ->
  exists y x : nat,
    (y < h)%nat /\ (x < w)%nat /\ Utils.shiftIndex w h (y, x) = k.
Proof.
  intros Hw Hh Hk.
  assert (0 < w)%nat as Hw0 by nia. assert (0 < h)%nat as Hh0 by nia.
  pose proof (Nat.div_mod_eq k w) as Hdm.
  pose proof (Nat.mod_upper_bound k w ltac:(lia)) as Hx.
  assert (k / w < h)%nat as Hy
    by (apply Nat.Div0.div_lt_upper_bound; lia).
  exists ((k / w + h / 2) mod h)%nat, ((k mod w + w / 2) mod w)%nat.
  split; [now apply shift_lt |]. split; [now apply shift_lt |].
  unfold Utils.shiftIndex. cbn [fst snd].
  rewrite (shift_twice h (k / w) Hh Hy), (shift_twice w (k mod w) Hw Hx).
  lia.
Qed.

Variables m fuel : nat.
Hypothesis m_range : (1 <= m <= 29)%nat.
Hypothesis fuel_enough : (2 ^ m <= fuel)%nat.

Local Abbreviation fs := (2 ^ m)%nat.

(** From the filtered field to the spectrum. *)
Lemma spectrum_of_field (filtered : list Q) :
  length filtered = (fs * fs)%nat ->
  exists (real imag magnitude logMagnitude : list R),
    fft2D fuel (Q2R <$> filtered) fs fs = Ret (real, imag)
    /\ calculateMagnitude real imag = Ret magnitude
    /\ toLogScale magnitude = Ret logMagnitude
    /\ let shifted :=
         Utils.fftShift (Some 0) None (Some <$> logMagnitude) fs fs in
       length shifted = (fs * fs)%nat
       /\ forall u v : nat, (u < fs)%nat -> (v < fs)%nat ->
            shifted !! Utils.shiftIndex fs fs (v, u)
            = Some (Some (decibels (dft2D (Q2R <$> filtered) fs fs u v))).
Proof.
  intros Hlen.
  destruct (fft2D_holds m m fuel (Q2R <$> filtered))
    as (real & imag & Hfft & Hh); try lia.
  { now rewrite length_fmap. }
  destruct (decibels_holds real imag _ _ Hh)
    as (magnitude & logMagnitude & Hmag & Hlog & Hl & Hcells).
  exists real, imag, magnitude, logMagnitude.
  split; [exact Hfft |]. split; [exact Hmag |]. split; [exact Hlog |].
  cbv zeta. split.
  - now rewrite fftShift_length, length_fmap.
  - intros u v Hu Hv.
    rewrite fftShift_lookup;
      [| apply even_pow2; lia | apply even_pow2; lia
       | now rewrite length_fmap | exact Hv | exact Hu].
    rewrite list_lookup_fmap, Hcells.
    + cbn [fmap option_fmap option_map].
      destruct (rowcol_divmod fs v u Hu) as [-> ->]. reflexivity.
    + assert (S v * fs <= fs * fs)%nat by (apply Nat.mul_le_mono_r; lia).
      lia.
Qed.

Variable this : Pipeline.FFTAnalyzer.
Hypothesis frameSize_pow2 : Pipeline.frameSize this = (2 ^ m)%nat.

Lemma computeFFT_run (imageData : Frame.ImageData) :
  Frame.wellFormed imageData ->
  Frame.width imageData = fs -> Frame.height imageData = fs ->
  exists (grayscale filtered : list Q) (spectrum : FFTData),
    Frame.rgbToGrayscale imageData = Ret grayscale
    /\ Frame.applyHighPassFilter grayscale fs fs = Ret filtered
    /\ length filtered = (fs * fs)%nat
    /\ computeFFT fuel this imageData = Ret spectrum
    /\ width spectrum = fs /\ height spectrum = fs
    /\ length (magnitude spectrum) = (fs * fs)%nat
    /\ forall u v : nat, (u < fs)%nat -> (v < fs)%nat ->
         magnitude spectrum !! Utils.shiftIndex fs fs (v, u)
         = Some (Some (decibels (dft2D (Q2R <$> filtered) fs fs u v))).
Proof.
  intros Hwf Hw Hhgt.
  destruct (rgbToGrayscale_cells imageData Hwf)
    as (grayscale & Hgray & Hglen & _).
  rewrite Hw, Hhgt in Hglen.
  destruct (applyHighPassFilter_cells grayscale fs fs Hglen)
    as (filtered & Hfilt & Hflen & _).
  destruct (spectrum_of_field filtered Hflen)
    as (real & imag & magnitude & logMagnitude & Hfft & Hmag & Hlog
        & Hslen & Hcells).
  exists grayscale, filtered.
  eexists. split; [exact Hgray |]. split; [exact Hfilt |].
  split; [exact Hflen |]. split.
  - unfold computeFFT. rewrite frameSize_pow2, Hgray. cbn [FFT.bind].
    rewrite Hfilt. cbn [FFT.bind]. rewrite Hfft. cbn [FFT.bind].
    rewrite Hmag. cbn [FFT.bind]. rewrite Hlog. cbn [FFT.bind].
    reflexivity.
  - cbn [Spectrum.width Spectrum.height Spectrum.magnitude].
    repeat split; assumption.
Qed.

End FrameSpectrum.

(** X14 ([computeFFT], fft-analyzer.js lines 97-121).  On a well-formed
    frame of [2^m * 2^m] pixels, [1 <= m <= 29], with the analyzer's frame
    size [2^m], [computeFFT] returns a spectrum of the frame size.  Its
    entry at the shifted position of the frequency [(u, v)] is
    [20 * log10 (|X| + 1e-10)], where [X] is the 2D discrete Fourier
    transform at [(u, v)] of the high-pass filtered luminance of the
    frame; no entry is NaN and none is below -200. *)
Theorem computeFFT_spectrum (m fuel : nat) (this : Pipeline.FFTAnalyzer)
    (imageData : Frame.ImageData) :
  (1 <= m <= 29)%nat -> (2 ^ m <= fuel)%nat ->
  Pipeline.frameSize this = (2 ^ m)%nat ->
  Frame.wellFormed imageData ->
  Frame.width imageData = (2 ^ m)%nat ->
  Frame.height imageData = (2 ^ m)%nat ->
  exists (grayscale filtered : list Q) (spectrum : Spectrum.FFTData),
    Frame.rgbToGrayscale imageData = FFT.Ret grayscale
    /\ Frame.applyHighPassFilter grayscale (2 ^ m) (2 ^ m) = FFT.Ret filtered
    /\ Spectrum.computeFFT fuel this imageData = FFT.Ret spectrum
    /\ Spectrum.width spectrum = (2 ^ m)%nat
    /\ Spectrum.height spectrum = (2 ^ m)%nat
    /\ length (Spectrum.magnitude spectrum) = (2 ^ m * 2 ^ m)%nat
    /\ (forall u v : nat, (u < 2 ^ m)%nat -> (v < 2 ^ m)%nat ->
          Spectrum.magnitude spectrum
            !! Utils.shiftIndex (2 ^ m) (2 ^ m) (v, u)
          = Some (Some (Spectrum.decibels
                          (Fourier.dft2D (Q2R <$> filtered)
                                         (2 ^ m) (2 ^ m) u v))))
    /\ Forall (fun e => exists x : R, e = Some x /\ (-200 <= x)%R)
              (Spectrum.magnitude spectrum).
Proof.
  intros Hm Hfuel Hfs Hwf Hw Hh.
  destruct (computeFFT_run m fuel Hm Hfuel this Hfs imageData Hwf Hw Hh)
    as (grayscale & filtered & spectrum & Hgray & Hfilt & _ & Hrun & Hsw
        & Hsh & Hlen & Hcells).
  exists grayscale, filtered, spectrum.
  repeat (split; [assumption |]).
  apply Forall_lookup. intros k e He.
  pose proof (lookup_lt_Some _ _ _ He) as Hk. rewrite Hlen in Hk.
  destruct (shiftIndex_onto (2 ^ m) (2 ^ m) k) as (y & x & Hy & Hx & Hidx);
    [apply even_pow2; lia | apply even_pow2; lia | exact Hk |].
  rewrite <- Hidx, (Hcells x y Hx Hy) in He. injection He as <-.
  eexists. split; [reflexivity |]. apply decibels_floor.
Qed.

Lemma computeFFT_spectrum_witness :
  exists spectrum : Spectrum.FFTData,
    Spectrum.computeFFT 2
      (Pipeline.mkFFTAnalyzer 2 5)
      (Frame.mkImageData
         [10; 20; 30; 255; 40; 50; 60; 255;
          70; 80; 90; 255; 100; 110; 120; 255]%Z 2 2)
    = FFT.Ret spectrum
    /\ length (Spectrum.magnitude spectrum) = 4%nat.
Proof.
  destruct (computeFFT_spectrum 1 2 (Pipeline.mkFFTAnalyzer 2 5)
              (Frame.mkImageData
                 [10; 20; 30; 255; 40; 50; 60; 255;
                  70; 80; 90; 255; 100; 110; 120; 255]%Z 2 2))
    as (grayscale & filtered & spectrum & _ & _ & Hrun & _ & _ & Hlen & _).
  - lia.
  - cbn. lia.
  - reflexivity.
  - split; [reflexivity |]. repeat constructor; cbn; lia.
  - reflexivity.
  - reflexivity.
  - exists spectrum. split; [exact Hrun | exact Hlen].
Defined.

(** * Frames of one colour *)

Section UniformFrames.

Import FFT Fourier Spectrum.
Local Open Scope R_scope.

Lemma Cmul_0_l (c : C) : Cmul (0, 0) c = (0, 0).
Proof. apply C_eq; cbn [fst snd Cmul]; ring. Qed.

Lemma dft2D_zero (data : list R) (w h u v : nat) :
  Forall (fun x => x = 0) data -> dft2D data w h u v = (0, 0).
Proof.
  intros Hzero.
  assert (forall p : nat, pixelAt data p = (0, 0)) as Hpix.
  { intros p. unfold pixelAt. f_equal.
    destruct (data !! p) as [x|] eqn:E.
    - rewrite (nth_lookup_Some _ _ 0 _ E).
      exact (proj1 (Forall_lookup _ _) Hzero p x E).
    - apply nth_overflow. now apply lookup_ge_None. }
  unfold dft2D, dftOf. apply Csum_zero. intros y _.
  assert (rowDft data w y u = (0, 0)) as ->; [| apply Cmul_0_l].
  unfold rowDft, dftOf. apply Csum_zero. intros x _.
  rewrite Hpix. apply Cmul_0_l.
Qed.

Lemma Q2R_zero_field (filtered : list Q) :
  Forall (fun q => (q == 0)%Q) filtered ->
  Forall (fun x => x = 0) (Q2R <$> filtered).
Proof.
  intros Hall. apply Forall_fmap. eapply Forall_impl; [exact Hall |].
  intros q Hq. cbn. rewrite (Qreals.Qeq_eqR _ _ Hq). apply RMicromega.Q2R_0.
Qed.

Lemma Q2R_m200 : Q2R (-200) = -200.
Proof. unfold Q2R. cbn. lra. Qed.

Variables (m fuel : nat) (this : Pipeline.FFTAnalyzer).
Hypothesis m_range : (1 <= m <= 29)%nat.
Hypothesis fuel_enough : (2 ^ m <= fuel)%nat.
Hypothesis frameSize_pow2 : Pipeline.frameSize this = (2 ^ m)%nat.

Local Abbreviation fs := (2 ^ m)%nat.

Lemma computeFFT_of_uniform (imageData : Frame.ImageData) (r g b : Z) :
  Frame.wellFormed imageData ->
  Frame.width imageData = fs -> Frame.height imageData = fs ->
  uniformColour imageData r g b ->
  computeFFT fuel this imageData
  = Ret {| magnitude := replicate (fs * fs) (Some (-200));
           width := fs; height := fs |}.
Proof.
  intros Hwf Hw Hhgt Hcol.
  destruct (rgbToGrayscale_cells imageData Hwf)
    as (grayscale & Hgray & Hglen & Hgcells).
  assert (Forall (fun v => (v == Frame.luminance r g b)%Q) grayscale)
    as Hconst.
  { apply Forall_lookup. intros p v Hv.
    pose proof (lookup_lt_Some _ _ _ Hv) as Hp. rewrite Hglen in Hp.
    destruct (Hgcells p Hp) as (r' & g' & b' & Hr & Hg & Hb & Hl & _).
    destruct (Hcol p Hp) as (Hr' & Hg' & Hb').
    assert (r' = r) as -> by congruence.
    assert (g' = g) as -> by congruence.
    assert (b' = b) as -> by congruence.
    rewrite Hv in Hl. injection Hl as ->. reflexivity. }
  rewrite Hw, Hhgt in Hglen.
  destruct (highPass_of_constant grayscale fs fs _ Hglen Hconst)
    as (filtered & Hfilt & Hflen & Hzero).
  destruct (spectrum_of_field m fuel m_range fuel_enough filtered Hflen)
    as (real & imag & magnitude & logMagnitude & Hfft & Hmag & Hlog
        & Hslen & Hcells).
  unfold computeFFT. rewrite frameSize_pow2, Hgray. cbn [FFT.bind].
  rewrite Hfilt. cbn [FFT.bind]. rewrite Hfft. cbn [FFT.bind].
  rewrite Hmag. cbn [FFT.bind]. rewrite Hlog. cbn [FFT.bind].
  do 2 f_equal. apply list_eq. intros k.
  destruct (Nat.lt_ge_cases k (fs * fs)) as [Hk | Hk].
  - destruct (shiftIndex_onto fs fs k) as (y & x & Hy & Hx & Hidx);
      [apply even_pow2; lia | apply even_pow2; lia | exact Hk |].
    rewrite <- Hidx at 1. rewrite (Hcells x y Hx Hy).
    rewrite (dft2D_zero _ _ _ _ _ (Q2R_zero_field _ Hzero)), decibels_zero.
    symmetry. now apply lookup_replicate_2.
  - rewrite !lookup_ge_None_2; [reflexivity | | ].
    + rewrite length_replicate. exact Hk.
    + rewrite Hslen. exact Hk.
Qed.

End UniformFrames.

(** X15 ([computeFFT], fft-analyzer.js lines 97-121, with the utilities it
    calls).  A frame whose pixels all have one colour has the flat
    spectrum: every one of the [2^m * 2^m] entries is -200 dB, whatever
    the colour. *)
Theorem computeFFT_uniform (m fuel : nat) (this : Pipeline.FFTAnalyzer)
    (imageData : Frame.ImageData) (r g b : Z) :
  (1 <= m <= 29)%nat -> (2 ^ m <= fuel)%nat ->
  Pipeline.frameSize this = (2 ^ m)%nat ->
  Frame.wellFormed imageData ->
  Frame.width imageData = (2 ^ m)%nat ->
  Frame.height imageData = (2 ^ m)%nat ->
  Spectrum.uniformColour imageData r g b ->
  Spectrum.computeFFT fuel this imageData
  = FFT.Ret {| Spectrum.magnitude :=
                 replicate (2 ^ m * 2 ^ m) (Some (-200)%R);
               Spectrum.width := (2 ^ m)%nat;
               Spectrum.height := (2 ^ m)%nat |}.
Proof.
  intros Hm Hfuel Hfs Hwf Hw Hh Hcol.
  now apply (computeFFT_of_uniform m fuel this Hm Hfuel Hfs imageData r g b).
Qed.

Lemma computeFFT_uniform_witness :
  Spectrum.computeFFT 2 (Pipeline.mkFFTAnalyzer 2 5)
    (Frame.mkImageData
       [9; 8; 7; 255; 9; 8; 7; 255; 9; 8; 7; 255; 9; 8; 7; 255]%Z 2 2)
  = FFT.Ret {| Spectrum.magnitude := replicate (2 ^ 1 * 2 ^ 1) (Some (-200)%R);
               Spectrum.width := (2 ^ 1)%nat;
               Spectrum.height := (2 ^ 1)%nat |}.
Proof.
  apply (computeFFT_uniform 1 2 (Pipeline.mkFFTAnalyzer 2 5)
           (Frame.mkImageData
              [9; 8; 7; 255; 9; 8; 7; 255; 9; 8; 7; 255; 9; 8; 7; 255]%Z 2 2)
           9 8 7).
  - lia.
  - cbn. lia.
  - reflexivity.
  - split; [reflexivity |]. repeat constructor; cbn; lia.
  - reflexivity.
  - reflexivity.
  - intros p Hp. cbn in Hp.
    destruct p as [|[|[|[|p]]]]; [repeat split.. | lia].
Defined.

(** * A video of one colour *)

Section UniformVideo.

Import Classifier Pipeline.
Local Open Scope Q_scope.

Lemma readsAs_flat (n w h : nat) (f : FFTData) :
  Spectrum.readsAs
    {| Spectrum.magnitude := replicate n (Some (-200)%R);
       Spectrum.width := w; Spectrum.height := h |} f ->
  length (magnitude f) = n /\ width f = w /\ height f = h
  /\ Forall (fun q => q == -200) (magnitude f).
Proof.
  intros (Hmag & Hw & Hh). cbn in Hmag, Hw, Hh.
  split; [| split; [now symmetry | split; [now symmetry |]]].
  - apply (f_equal length) in Hmag.
    now rewrite length_replicate, length_fmap in Hmag.
  - apply Forall_lookup. intros i q Hq.
    apply (f_equal (fun l => l !! i)) in Hmag.
    rewrite list_lookup_fmap, Hq in Hmag. cbn in Hmag.
    destruct (replicate n (Some (-200)%R) !! i) as [e|] eqn:E;
      [| discriminate].
    apply lookup_replicate in E as [-> _].
    injection Hmag as Hmag. apply Qreals.eqR_Qeq.
    now rewrite Q2R_m200, <- Hmag.
Qed.

End UniformVideo.

(** X16 ([analyzeVideo] with [extractFrames], [computeFFT] and
    [detectAIPatterns], fft-analyzer.js lines 18-121 and 235-301).  A
    video that shows, at every time, a frame of one colour is reported as
    not AI-generated, with the three natural-footage findings and the
    confidence [min ((n - 2)^2 / n^2 * 100, 99)] for the frame size [n];
    for [n = 256] that is 98.4.  The classifier receives, for each frame,
    the spectrum that [computeFFT] computes over the reals. *)
Theorem analyzeVideo_uniform_video (m fuel : nat)
    (this : Pipeline.FFTAnalyzer) (video : @Pipeline.Video Frame.ImageData)
    (computeFFT : Frame.ImageData -> Classifier.FFTData) (b : bool) :
  (1 <= m <= 29)%nat -> (2 ^ m <= fuel)%nat ->
  Pipeline.frameSize this = (2 ^ m)%nat ->
  (1 <= Pipeline.sampleFrames this)%nat ->
  (forall t : Q,
     let frame := Pipeline.frameAt video t (2 ^ m) in
     Frame.wellFormed frame
     /\ Frame.width frame = (2 ^ m)%nat /\ Frame.height frame = (2 ^ m)%nat
     /\ (exists r g b : Z, Spectrum.uniformColour frame r g b)
     /\ forall spectrum : Spectrum.FFTData,
          Spectrum.computeFFT fuel this frame = FFT.Ret spectrum ->
          Spectrum.readsAs spectrum (computeFFT frame)) ->
  let s := (Num.ofNat ((2 ^ m - 2) * (2 ^ m - 2))
            / (Num.ofNat (2 ^ m) * Num.ofNat (2 ^ m)))%Q in
  let out :=
    fst (Pipeline.run
           (Pipeline.analyzeVideo computeFFT this video
                                  (Pipeline.reporting b))) in
  Pipeline.isAIGenerated out = false
  /\ (Pipeline.res_confidence out == Qmin (s * 100) 99)%Q
  /\ Pipeline.res_details out
     = [ "Smooth, natural frequency distribution detected";
         "No geometric patterns or regular artifacts found";
         "Frequency spectrum matches real camera footage" ]%string.
Proof.
  intros Hm Hfuel Hfs Hn Hvideo s out. subst out. unfold Pipeline.run.
  rewrite analyzeVideo_run.
  cbn [fst Pipeline.isAIGenerated Pipeline.res_confidence
       Pipeline.res_details].
  apply (detectAIPatterns_uniform (2 ^ m) (2 ^ m)).
  - unfold Run.sampledFrames.
    destruct (Pipeline.sampleFrames this) as [|k]; [lia |]. discriminate.
  - apply Forall_forall. intros f Hf.
    apply list_elem_of_In, in_map_iff in Hf as (frame & <- & Hframe).
    unfold Run.sampledFrames in Hframe.
    apply in_map_iff in Hframe as (i & <- & _). rewrite Hfs.
    destruct (Hvideo (Pipeline.timeOf video (Pipeline.sampleFrames this) i))
      as (Hwf & Hw & Hh & (r & g & c & Hcol) & Hreads).
    pose proof (computeFFT_of_uniform m fuel this Hm Hfuel Hfs _ r g c
                  Hwf Hw Hh Hcol) as Hrun.
    destruct (readsAs_flat _ _ _ _ (Hreads _ Hrun))
      as (Hlen & Hfw & Hfh & Hall).
    split; [exact Hfw |]. split; [exact Hfh |]. split; [exact Hlen |].
    exists (-200)%Q. exact Hall.
Qed.

Lemma analyzeVideo_uniform_video_witness :
  Pipeline.isAIGenerated
    (fst (Pipeline.run
            (Pipeline.analyzeVideo
               (fun _ : Frame.ImageData =>
                  Classifier.mkFFTData (replicate 4 (-200)%Q) 2 2)
               (Pipeline.mkFFTAnalyzer 2 1)
               (Pipeline.mkVideo 10
                  (fun _ _ =>
                     Frame.mkImageData
                       [9; 8; 7; 255; 9; 8; 7; 255;
                        9; 8; 7; 255; 9; 8; 7; 255]%Z 2 2))
               (Pipeline.reporting true))))
  = false.
Proof.
  apply (analyzeVideo_uniform_video 1 2 (Pipeline.mkFFTAnalyzer 2 1)
           (Pipeline.mkVideo 10
              (fun _ _ =>
                 Frame.mkImageData
                   [9; 8; 7; 255; 9; 8; 7; 255;
                    9; 8; 7; 255; 9; 8; 7; 255]%Z 2 2))
           (fun _ => Classifier.mkFFTData (replicate 4 (-200)%Q) 2 2) true).
  - lia.
  - cbn. lia.
  - reflexivity.
  - cbn. lia.
  - intros t frame. subst frame. cbn [Pipeline.frameAt].
    assert (Spectrum.uniformColour
              (Frame.mkImageData
                 [9; 8; 7; 255; 9; 8; 7; 255;
                  9; 8; 7; 255; 9; 8; 7; 255]%Z 2 2) 9 8 7) as Hcol.
    { intros p Hp. cbn in Hp.
      destruct p as [|[|[|[|p]]]]; [repeat split.. | lia]. }
    assert (Frame.wellFormed
              (Frame.mkImageData
                 [9; 8; 7; 255; 9; 8; 7; 255;
                  9; 8; 7; 255; 9; 8; 7; 255]%Z 2 2)) as Hwf.
    { split; [reflexivity |]. repeat constructor; cbn; lia. }
    split; [exact Hwf |]. split; [reflexivity |]. split; [reflexivity |].
    split; [exists 9%Z, 8%Z, 7%Z; exact Hcol |].
    intros spectrum Hrun.
    rewrite (computeFFT_of_uniform 1 2 (Pipeline.mkFFTAnalyzer 2 1)
               ltac:(lia) ltac:(cbn; lia) eq_refl _ 9 8 7 Hwf eq_refl eq_refl
               Hcol) in Hrun.
    injection Hrun as <-. split; [| split; reflexivity].
    cbn [Spectrum.magnitude Classifier.magnitude].
    change (2 ^ 1 * 2 ^ 1)%nat with 4%nat.
    cbn [replicate fmap list_fmap]. now rewrite Q2R_m200.
Defined.

(** * [Utils.normalize] keeps the order and spans the byte range *)

Section NormalizeOrder.

Local Open Scope Q_scope.

Lemma arr_min_attained (xs : list Q) (x : Q) :
  exists d : Q, In d (x :: xs) /\ d == Utils.arr_min x xs.
Proof.
  unfold Utils.arr_min. revert x.
  induction xs as [|y ys IH]; intros x; cbn [fold_left].
  - exists x. split; [now left | reflexivity].
  - destruct (IH (Qmin x y)) as (d & [<- | Hin] & Hd).
    + destruct (Q.min_dec x y) as [E | E].
      * exists x. split; [now left |]. now rewrite <- Hd, E.
      * exists y. split; [right; now left |]. now rewrite <- Hd, E.
    + exists d. split; [right; now right | exact Hd].
Qed.

Lemma arr_max_attained (xs : list Q) (x : Q) :
  exists d : Q, In d (x :: xs) /\ d == Utils.arr_max x xs.
Proof.
  unfold Utils.arr_max. revert x.
  induction xs as [|y ys IH]; intros x; cbn [fold_left].
  - exists x. split; [now left | reflexivity].
  - destruct (IH (Qmax x y)) as (d & [<- | Hin] & Hd).
    + destruct (Q.max_dec x y) as [E | E].
      * exists x. split; [now left |]. now rewrite <- Hd, E.
      * exists y. split; [right; now left |]. now rewrite <- Hd, E.
    + exists d. split; [right; now right | exact Hd].
Qed.

Lemma clamp_mono (x y : Q) :
  x <= y -> Qmin (Qmax x 0) 255 <= Qmin (Qmax y 0) 255.
Proof.
  intros H. apply Q.min_le_compat_r. now apply Q.max_le_compat_r.
Qed.

Lemma toUint8Clamp_of_clamp (x y : Q) :
  Qmin (Qmax x 0) 255 == Qmin (Qmax y 0) 255 ->
  Num.toUint8Clamp x = Num.toUint8Clamp y.
Proof.
  intros Hc. unfold Num.toUint8Clamp.
  rewrite (Qfloor_comp _ _ Hc).
  rewrite (ltb_compat _ (Qmin (Qmax y 0) 255) _
             (inject_Z (Qfloor (Qmin (Qmax y 0) 255)) + (1 # 2)) Hc)
    by reflexivity.
  rewrite (ltb_compat (inject_Z (Qfloor (Qmin (Qmax y 0) 255)) + (1 # 2))
             (inject_Z (Qfloor (Qmin (Qmax y 0) 255)) + (1 # 2))
             _ (Qmin (Qmax y 0) 255)) by (reflexivity || exact Hc).
  reflexivity.
Qed.

Lemma toUint8Clamp_mono (x y : Q) :
  x <= y -> (Num.toUint8Clamp x <= Num.toUint8Clamp y)%Z.
Proof.
  intros Hxy. pose proof (clamp_mono x y Hxy) as Hc.
  pose proof (Qfloor_resp_le _ _ Hc) as Hf.
  pose proof (Qfloor_le (Qmin (Qmax y 0) 255)) as Hylo.
  pose proof (Qlt_floor (Qmin (Qmax x 0) 255)) as Hxhi.
  rewrite inject_Z_plus in Hxhi. change (inject_Z 1) with 1 in Hxhi.
  destruct (toUint8Clamp_cases x) as [[Ex Hx] | [Ex Hx]];
    destruct (toUint8Clamp_cases y) as [[Ey Hy] | [Ey Hy]];
    cbv zeta in Hx, Hy; try (rewrite Ex, Ey; lia).
  (* x rounds up and y rounds down *)
  destruct (Z.eq_dec (Qfloor (Qmin (Qmax x 0) 255))
                     (Qfloor (Qmin (Qmax y 0) 255))) as [E | E];
    [| rewrite Ex, Ey; lia].
  rewrite (toUint8Clamp_of_clamp x y); [lia |].
  rewrite E in Hx. apply Qle_antisym; [exact Hc | lra].
Qed.

Lemma rescale_mono (d e mn r : Q) :
  d <= e ->
  (if Num.ltb 0 r then (d - mn) / r * 255 else 0)
  <= (if Num.ltb 0 r then (e - mn) / r * 255 else 0).
Proof.
  intros Hde. destruct (Num.ltb 0 r) eqn:E; [| apply Qle_refl].
  apply ltb_lt in E.
  apply Qmult_le_compat_r; [| discriminate].
  unfold Qdiv. apply Qmult_le_compat_r; [lra |].
  apply Qlt_le_weak. now apply Qinv_lt_0_compat.
Qed.

Lemma normalize_at (x : Q) (xs : list Q) (i : nat) (d : Q) :
  (x :: xs) !! i = Some d ->
  Utils.normalize (x :: xs) !! i
  = Some (Num.toUint8Clamp
            (if Num.ltb 0 (Utils.arr_max x xs - Utils.arr_min x xs)
             then (d - Utils.arr_min x xs)
                  / (Utils.arr_max x xs - Utils.arr_min x xs) * 255
             else 0)).
Proof. intros Hd. now rewrite normalize_lookup, Hd. Qed.

(** X18 ([Utils.normalize], utils.js lines 70-82).  Normalization keeps
    the order of the values: a larger element never gets a smaller byte.
    When the data is not constant the result spans the whole byte range:
    every element equal to the minimum becomes 0, every element equal to
    the maximum becomes 255, and both occur. *)
Theorem normalize_order (x : Q) (xs : list Q) :
  let data := x :: xs in
  let mn := Utils.arr_min x xs in
  let mx := Utils.arr_max x xs in
  (forall (i j : nat) (d e : Q) (v w : Z),
     data !! i = Some d -> data !! j = Some e ->
     Utils.normalize data !! i = Some v ->
     Utils.normalize data !! j = Some w ->
     d <= e -> (v <= w)%Z)
  /\ (mn < mx ->
      (forall (i : nat) (d : Q), data !! i = Some d ->
         (d == mn -> Utils.normalize data !! i = Some 0%Z)
         /\ (d == mx -> Utils.normalize data !! i = Some 255%Z))
      /\ (exists i : nat, Utils.normalize data !! i = Some 0%Z)
      /\ (exists j : nat, Utils.normalize data !! j = Some 255%Z)).
Proof.
  intros data mn mx. subst data. split.
  - intros i j d e v w Hd He Hv Hw Hde.
    rewrite (normalize_at x xs i d Hd) in Hv.
    rewrite (normalize_at x xs j e He) in Hw.
    injection Hv as <-. injection Hw as <-.
    apply toUint8Clamp_mono. now apply rescale_mono.
  - intros Hlt. fold mn mx.
    assert (Num.ltb 0 (mx - mn) = true) as Hr by (apply ltb_lt; lra).
    assert (forall (i : nat) (d : Q), (x :: xs) !! i = Some d ->
              (d == mn -> Utils.normalize (x :: xs) !! i = Some 0%Z)
              /\ (d == mx -> Utils.normalize (x :: xs) !! i = Some 255%Z))
      as Hends.
    { intros i d Hd. rewrite (normalize_at x xs i d Hd). fold mn mx.
      rewrite Hr. split; intros E; f_equal.
      - rewrite <- toUint8Clamp_0. apply toUint8Clamp_compat.
        rewrite E. field. lra.
      - transitivity (Num.toUint8Clamp 255); [| reflexivity].
        apply toUint8Clamp_compat. rewrite E. field. lra. }
    split; [exact Hends |]. split.
    + destruct (arr_min_attained xs x) as (d & Hin & Hd).
      apply list_elem_of_In, list_elem_of_lookup in Hin as [i Hi].
      exists i. now apply (Hends i d Hi).
    + destruct (arr_max_attained xs x) as (d & Hin & Hd).
      apply list_elem_of_In, list_elem_of_lookup in Hin as [j Hj].
      exists j. now apply (Hends j d Hj).
Qed.

Lemma normalize_order_witness :
  (exists i : nat, Utils.normalize [3; 1; 2] !! i = Some 0%Z)
  /\ (exists j : nat, Utils.normalize [3; 1; 2] !! j = Some 255%Z).
Proof.
  destruct (proj2 (normalize_order 3 [1; 2])) as (_ & H0 & H255).
  - vm_compute. reflexivity.
  - split; assumption.
Defined.

End NormalizeOrder.
